(** * GattConnection: a multi-request GATT connection

    Verification of [lib/transport/ble/gatt-connection.js]: the frame
    codec ([_encryptPdus], [_decryptPdus]), the connection state machine
    ([connect], [disconnect]), the operation sequencer ([_queueOperation])
    and the characteristic transactions built on them.

    The synchronous methods are functions on the fields of the connection
    object.  The asynchronous ones run on a small model of the JavaScript
    promise machinery (promise cells, reaction jobs, the microtask queue)
    and of the peripheral, which answers the calls made on it from a
    script. *)

From Stdlib Require Import NArith Lia.
From Stdlib.Strings Require Import Byte.
From stdpp Require Import base list strings.
From Equations Require Import Equations.

Set Default Proof Using "Type".
Open Scope string_scope.
Open Scope list_scope.

(** ** Values *)

(** A Node.js [Buffer]. *)
Abbreviation Buffer := (list byte).

(** Identity of a promise object: its index in the store of promise cells. *)
Abbreviation pid := nat (only parsing).

(** The JavaScript values that flow through the connection: what promises
    settle with, what callbacks receive and what is thrown. *)
Inductive value :=
| VUndefined
| VString (s : string)
| VError (name : string)            (* an Error object *)
| VBuffers (pdus : list Buffer)     (* a Buffer[] *)
| VUndefArray (n : nat)             (* what Promise.all gives for n writes *)
| VPromise (p : pid).

(** [if (v)] *)
Definition truthy (v : value) : bool :=
  match v with
  | VUndefined => false
  | VString s => negb (String.eqb s "")
  | _ => true
  end.

(** How a call completes: normally, or by throwing. *)
Inductive completion (A : Type) :=
| Normal (a : A)
| Throw (e : value).
Arguments Normal {A} a.
Arguments Throw {A} e.

(** ** Buffers *)

(** [Buffer.alloc(n)] *)
Definition Buffer_alloc (n : nat) : Buffer := replicate n x00.

Definition byte_of_N (n : N) : byte :=
  default x00 (Byte.of_N (n mod 256)).

Definition UInt32LE (v : N) : Buffer :=
  [byte_of_N v; byte_of_N (N.shiftr v 8);
   byte_of_N (N.shiftr v 16); byte_of_N (N.shiftr v 24)].

(** [buf.writeUInt32LE(v, offset)]: a RangeError when [v] is not a u32 or
    the four bytes do not fit. *)
Definition writeUInt32LE (buf : Buffer) (v : N) (offset : nat)
  : completion Buffer :=
  if (v <=? 4294967295)%N && bool_decide (offset + 4 <= length buf)
  then Normal (take offset buf ++ UInt32LE v ++ drop (offset + 4) buf)
  else Throw (VError "ERR_OUT_OF_RANGE").

(** [buf.slice(start, end)] for [start <= end]. *)
Definition slice (buf : Buffer) (start end_ : nat) : Buffer :=
  take (end_ - start) (drop start buf).

(** ** libsodium *)

(** The two AEAD calls of [libsodium-wrappers] the connection makes
    (ChaCha20-Poly1305, IETF variant, no associated data), as
    [message -> nonce -> key].  Decryption is [None] when libsodium
    throws (the tag does not verify). *)
Class Sodium := {
  crypto_aead_chacha20poly1305_ietf_encrypt : Buffer -> Buffer -> Buffer -> Buffer;
  crypto_aead_chacha20poly1305_ietf_decrypt : Buffer -> Buffer -> Buffer -> option Buffer;
}.

(** What an AEAD promises: decrypting a frame under the nonce and key it
    was sealed with gives the message back. *)
Class SodiumCorrect `{Sodium} :=
  decrypt_encrypt : forall m n k,
    crypto_aead_chacha20poly1305_ietf_decrypt
      (crypto_aead_chacha20poly1305_ietf_encrypt m n k) n k = Some m.

(** ** The connection object *)

(** Internal connection state. *)
Inductive State := DISCONNECTED | CONNECTING | CONNECTED.

#[global] Instance State_eq_dec : EqDecision State.
Proof. solve_decision. Defined.

(** The session key object obtained from PairingProtocol. *)
Record SessionKeys := {
  ControllerToAccessoryKey : Buffer;
  AccessoryToControllerKey : Buffer;
}.

(** The fields of a [GattConnection] ([peripheral] is the device, below). *)
Record GattConnection := {
  state : State;
  sessionKeys : option SessionKeys;
  a2cCounter : N;
  c2aCounter : N;
  currentOperation : pid;
}.

Definition set_state (s : State) (this : GattConnection) : GattConnection :=
  {| state := s; sessionKeys := sessionKeys this;
     a2cCounter := a2cCounter this; c2aCounter := c2aCounter this;
     currentOperation := currentOperation this |}.

Definition set_a2cCounter (n : N) (this : GattConnection) : GattConnection :=
  {| state := state this; sessionKeys := sessionKeys this;
     a2cCounter := n; c2aCounter := c2aCounter this;
     currentOperation := currentOperation this |}.

Definition set_c2aCounter (n : N) (this : GattConnection) : GattConnection :=
  {| state := state this; sessionKeys := sessionKeys this;
     a2cCounter := a2cCounter this; c2aCounter := n;
     currentOperation := currentOperation this |}.

Definition set_currentOperation (p : pid) (this : GattConnection) : GattConnection :=
  {| state := state this; sessionKeys := sessionKeys this;
     a2cCounter := a2cCounter this; c2aCounter := c2aCounter this;
     currentOperation := p |}.

(** [setSessionKeys(keys)] *)
Definition setSessionKeys (keys : SessionKeys) (this : GattConnection)
  : GattConnection :=
  {| state := state this; sessionKeys := Some keys;
     a2cCounter := a2cCounter this; c2aCounter := c2aCounter this;
     currentOperation := currentOperation this |}.

(** ** The frame codec *)

Section Codec.
Context `{Sodium}.

(** One turn of the [while] loop of [_encryptPdus]: the nonce is built
    from the post-incremented [c2aCounter], then the chunk of at most 496
    bytes at [position] is sealed.  Reading the key off a null
    [sessionKeys] is a TypeError. *)
Definition encrypt_frame (pdu : Buffer) (position : nat)
    (this : GattConnection) : completion Buffer * GattConnection :=
  let writeNonce := Buffer_alloc 12 in
  let counter := c2aCounter this in
  let this := set_c2aCounter (counter + 1) this in
  match writeUInt32LE writeNonce counter 4 with
  | Throw e => (Throw e, this)
  | Normal writeNonce =>
    let frameLength := Nat.min (length pdu - position) 496 in
    match sessionKeys this with
    | None => (Throw (VError "TypeError"), this)
    | Some keys =>
      (Normal (crypto_aead_chacha20poly1305_ietf_encrypt
                 (slice pdu position (position + frameLength))
                 writeNonce
                 (ControllerToAccessoryKey keys)), this)
    end
  end.

(** [while (position < pdu.length) { ... position += frameLength; }] *)
Equations? encrypt_while (pdu : Buffer) (position : nat)
    (encryptedPdus : list Buffer) (this : GattConnection)
  : completion (list Buffer) * GattConnection
  by wf (length pdu - position) lt :=
  encrypt_while pdu position encryptedPdus this
    with decide (position < length pdu) => {
    | right _ := (Normal encryptedPdus, this)
    | left _ with encrypt_frame pdu position this => {
      | (Throw e, this') := (Throw e, this')
      | (Normal frame, this') :=
          encrypt_while pdu
            (position + Nat.min (length pdu - position) 496)
            (encryptedPdus ++ [frame]) this' } }.
Proof. lia. Qed.

(** [for (const pdu of pdus) { let position = 0; while ... }] *)
Fixpoint encrypt_for (pdus : list Buffer) (encryptedPdus : list Buffer)
    (this : GattConnection) : completion (list Buffer) * GattConnection :=
  match pdus with
  | [] => (Normal encryptedPdus, this)
  | pdu :: pdus =>
    match encrypt_while pdu 0 encryptedPdus this with
    | (Throw e, this) => (Throw e, this)
    | (Normal encryptedPdus, this) => encrypt_for pdus encryptedPdus this
    end
  end.

(** Encrypt a series of PDUs. *)
Definition _encryptPdus (pdus : list Buffer) (this : GattConnection)
  : completion (list Buffer) * GattConnection :=
  encrypt_for pdus [] this.

(** The [try] block of [_decryptPdus]: [None] when it throws, either
    libsodium or the read of the key off a null [sessionKeys]. *)
Definition decrypt_frame (pdu readNonce : Buffer) (this : GattConnection)
  : option Buffer :=
  match sessionKeys this with
  | None => None
  | Some keys =>
    crypto_aead_chacha20poly1305_ietf_decrypt pdu readNonce
      (AccessoryToControllerKey keys)
  end.

(** [for (const pdu of pdus) { ... try { ... push ... } catch (e) {} }] *)
Fixpoint decrypt_for (pdus : list Buffer) (decryptedPdus : list Buffer)
    (this : GattConnection) : completion (list Buffer) * GattConnection :=
  match pdus with
  | [] => (Normal decryptedPdus, this)
  | pdu :: pdus =>
    let readNonce := Buffer_alloc 12 in
    let counter := a2cCounter this in
    let this := set_a2cCounter (counter + 1) this in
    match writeUInt32LE readNonce counter 4 with
    | Throw e => (Throw e, this)
    | Normal readNonce =>
      match decrypt_frame pdu readNonce this with
      | Some decryptedData =>
        decrypt_for pdus (decryptedPdus ++ [decryptedData]) this
      | None => decrypt_for pdus decryptedPdus this
      end
    end
  end.

(** Decrypt a series of PDUs. *)
Definition _decryptPdus (pdus : list Buffer) (this : GattConnection)
  : completion (list Buffer) * GattConnection :=
  decrypt_for pdus [] this.

End Codec.

(** ** Promises, closures and the peripheral *)

(** The asynchronous methods pass function expressions to [then], to
    [catch], to [new Promise] and to the peripheral.  Each function
    expression of the source is a constructor below, holding the variables
    it closes over; [call_handler], [run_op] and [invoke_callback] give
    their bodies.  Promises are cells in a store and behave as ECMAScript
    has them: a reaction on a settled promise becomes a job at once, a
    promise resolved with a promise follows it through a job of its own,
    and jobs run first in, first out.  The peripheral calls back later,
    never from inside the call, and answers the calls in the order they
    were made. *)

Inductive pstate :=
| Pending
| Fulfilled (v : value)
| Rejected (reason : value).

(** Handles of noble's service and characteristic objects. *)
Abbreviation Service := nat (only parsing).
Abbreviation Characteristic := nat (only parsing).

(** The closures handed to [_queueOperation]. *)
Inductive operation :=
| OpFindAndWrite (serviceUuid characteristicUuid : string)
    (pdus : list Buffer)                                       (* line 123 *)
| OpWrite (characteristic : Characteristic) (pdus : list Buffer) (* line 226 *)
| OpRead (characteristic : Characteristic).                    (* line 286 *)

(** The functions given to [then] and [catch]. *)
Inductive handler :=
| HOp (op : operation)              (* () => op(), lines 34 and 35 *)
| HConnect                          (* line 75 *)
| HDiscover (serviceUuid characteristicUuid : string)
    (pdus : list Buffer)            (* line 124 *)
| HDrain (characteristic : Characteristic)   (* line 247 *)
| HResolve (p : pid)                (* resolving functions of p, made *)
| HReject (p : pid)                 (*   when p adopts another promise *)
| HAllResolveElement (all : pid).   (* Promise.all's element function *)

Record reaction := {
  onFulfilled : option handler;
  onRejected : option handler;
  derived : pid;
}.

(** A promise object.  [alreadyResolved] belongs to the [resolve] and
    [reject] functions its executor received. *)
Record cell := {
  settled : pstate;
  alreadyResolved : bool;
  reactions : list reaction;
}.

(** Microtasks. *)
Inductive job :=
| JReaction (h : option handler) (rejected : bool) (argument : value)
    (derived : pid)
| JThenable (p thenable : pid).

(** The callbacks handed to the peripheral and to characteristics. *)
Inductive callback :=
| CbReconnect (p : pid)             (* line 62 *)
| CbConnect (p : pid)               (* line 78 *)
| CbDisconnect (p : pid)            (* line 99 *)
| CbDiscover (p : pid) (pdus : list Buffer)   (* line 129 *)
| CbWrite (p : pid)                 (* line 236 *)
| CbRead (p : pid) (characteristic : Characteristic)
    (pdus : list Buffer).           (* line 262 *)

(** The calls made on the peripheral and on its characteristics. *)
Inductive request :=
| ReqConnect
| ReqDisconnect
| ReqDiscover (serviceUuids characteristicUuids : list string)
| ReqWrite (characteristic : Characteristic) (data : Buffer)
    (withoutResponse : bool)
| ReqRead (characteristic : Characteristic).

(** What a callback is called with. *)
Record arguments := {
  arg_err : value;
  arg_services : list Service;
  arg_characteristics : list Characteristic;
  arg_data : option Buffer;
}.

(** The peripheral: for each kind of call, the answers it will still give,
    in order.  A call whose answers have run out is never called back. *)
Record Peripheral := {
  connectResults : list value;
  disconnectResults : list value;
  discoverResults : list (value * list Service * list Characteristic);
  writeResults : list value;
  readResults : list (value * option Buffer);
}.

Definition err_only (err : value) : arguments :=
  {| arg_err := err; arg_services := []; arg_characteristics := [];
     arg_data := None |}.

Definition answer (req : request) (per : Peripheral)
  : option (arguments * Peripheral) :=
  match req with
  | ReqConnect =>
    match connectResults per with
    | [] => None
    | err :: rest =>
      Some (err_only err,
            {| connectResults := rest;
               disconnectResults := disconnectResults per;
               discoverResults := discoverResults per;
               writeResults := writeResults per;
               readResults := readResults per |})
    end
  | ReqDisconnect =>
    match disconnectResults per with
    | [] => None
    | err :: rest =>
      Some (err_only err,
            {| connectResults := connectResults per;
               disconnectResults := rest;
               discoverResults := discoverResults per;
               writeResults := writeResults per;
               readResults := readResults per |})
    end
  | ReqDiscover _ _ =>
    match discoverResults per with
    | [] => None
    | (err, services, characteristics) :: rest =>
      Some ({| arg_err := err; arg_services := services;
               arg_characteristics := characteristics; arg_data := None |},
            {| connectResults := connectResults per;
               disconnectResults := disconnectResults per;
               discoverResults := rest;
               writeResults := writeResults per;
               readResults := readResults per |})
    end
  | ReqWrite _ _ _ =>
    match writeResults per with
    | [] => None
    | err :: rest =>
      Some (err_only err,
            {| connectResults := connectResults per;
               disconnectResults := disconnectResults per;
               discoverResults := discoverResults per;
               writeResults := rest;
               readResults := readResults per |})
    end
  | ReqRead _ =>
    match readResults per with
    | [] => None
    | (err, data) :: rest =>
      Some ({| arg_err := err; arg_services := [];
               arg_characteristics := []; arg_data := data |},
            {| connectResults := connectResults per;
               disconnectResults := disconnectResults per;
               discoverResults := discoverResults per;
               writeResults := writeResults per;
               readResults := rest |})
    end
  end.

(** ** The machine *)

Record machine := {
  this : GattConnection;
  heap : list cell;
  remainingElements : list (pid * (nat * nat));
                                  (* Promise.all: result promise, then
                                     elements outstanding and in all *)
  jobs : list job;                (* the microtask queue *)
  inflight : list (request * callback);
                                  (* calls the peripheral has yet to answer *)
  peripheral : Peripheral;
  calls : list request;           (* every call made so far, oldest first *)
  invoked : list operation;       (* every run of a queued closure, likewise *)
  uncaught : list value;          (* exceptions that escaped a callback *)
}.

Definition set_this (x : GattConnection) (m : machine) : machine :=
  {| this := x; heap := heap m; remainingElements := remainingElements m;
     jobs := jobs m; inflight := inflight m; peripheral := peripheral m;
     calls := calls m; invoked := invoked m;
     uncaught := uncaught m |}.

Definition set_heap (x : list cell) (m : machine) : machine :=
  {| this := this m; heap := x; remainingElements := remainingElements m;
     jobs := jobs m; inflight := inflight m; peripheral := peripheral m;
     calls := calls m; invoked := invoked m;
     uncaught := uncaught m |}.

Definition set_remainingElements (x : list (pid * (nat * nat))) (m : machine)
  : machine :=
  {| this := this m; heap := heap m; remainingElements := x;
     jobs := jobs m; inflight := inflight m; peripheral := peripheral m;
     calls := calls m; invoked := invoked m;
     uncaught := uncaught m |}.

Definition set_jobs (x : list job) (m : machine) : machine :=
  {| this := this m; heap := heap m; remainingElements := remainingElements m;
     jobs := x; inflight := inflight m; peripheral := peripheral m;
     calls := calls m; invoked := invoked m;
     uncaught := uncaught m |}.

Definition set_inflight (x : list (request * callback)) (m : machine)
  : machine :=
  {| this := this m; heap := heap m; remainingElements := remainingElements m;
     jobs := jobs m; inflight := x; peripheral := peripheral m;
     calls := calls m; invoked := invoked m;
     uncaught := uncaught m |}.

Definition set_peripheral (x : Peripheral) (m : machine) : machine :=
  {| this := this m; heap := heap m; remainingElements := remainingElements m;
     jobs := jobs m; inflight := inflight m; peripheral := x;
     calls := calls m; invoked := invoked m;
     uncaught := uncaught m |}.

Definition set_calls (x : list request) (m : machine) : machine :=
  {| this := this m; heap := heap m; remainingElements := remainingElements m;
     jobs := jobs m; inflight := inflight m; peripheral := peripheral m;
     calls := x; invoked := invoked m;
     uncaught := uncaught m |}.

Definition set_invoked (x : list operation) (m : machine) : machine :=
  {| this := this m; heap := heap m; remainingElements := remainingElements m;
     jobs := jobs m; inflight := inflight m; peripheral := peripheral m;
     calls := calls m; invoked := x;
     uncaught := uncaught m |}.

Definition set_uncaught (x : list value) (m : machine) : machine :=
  {| this := this m; heap := heap m; remainingElements := remainingElements m;
     jobs := jobs m; inflight := inflight m; peripheral := peripheral m;
     calls := calls m; invoked := invoked m;
     uncaught := x |}.

(** Code that runs on the machine and returns or throws. *)
Definition M (A : Type) : Type := machine -> completion A * machine.

#[global] Instance M_ret : MRet M := fun A a m => (Normal a, m).

#[global] Instance M_bind : MBind M := fun A B f c m =>
  match c m with
  | (Normal a, m) => f a m
  | (Throw e, m) => (Throw e, m)
  end.

Definition modify (f : machine -> machine) : M unit :=
  fun m => (Normal tt, f m).

(** *** Promise primitives *)

Definition new_cell : cell :=
  {| settled := Pending; alreadyResolved := false; reactions := [] |}.

Definition alloc (c : cell) : M pid :=
  fun m => (Normal (length (heap m)), set_heap (heap m ++ [c]) m).

Definition enqueue (js : list job) : M unit :=
  modify (fun m => set_jobs (jobs m ++ js) m).

Definition reaction_job (st : pstate) (r : reaction) : list job :=
  match st with
  | Pending => []
  | Fulfilled v => [JReaction (onFulfilled r) false v (derived r)]
  | Rejected e => [JReaction (onRejected r) true e (derived r)]
  end.

(** FulfillPromise and RejectPromise: a pending promise takes its state
    and its reactions become jobs; a settled one stays as it is. *)
Definition settle (p : pid) (st : pstate) : M unit := fun m =>
  match heap m !! p with
  | Some c =>
    match settled c with
    | Pending =>
      (Normal tt,
       set_jobs (jobs m ++ concat (map (reaction_job st) (reactions c)))
         (set_heap (<[p := {| settled := st;
                              alreadyResolved := alreadyResolved c;
                              reactions := [] |}]> (heap m)) m))
    | _ => (Normal tt, m)
    end
  | None => (Normal tt, m)
  end.

(** The promise resolution procedure: a promise is adopted in a job of
    its own, anything else fulfils. *)
Definition resolve_promise (p : pid) (v : value) : M unit :=
  match v with
  | VPromise q =>
    if decide (q = p) then settle p (Rejected (VError "TypeError"))
    else enqueue [JThenable p q]
  | _ => settle p (Fulfilled v)
  end.

Definition lock (p : pid) : M bool := fun m =>
  match heap m !! p with
  | Some c =>
    (Normal (alreadyResolved c),
     set_heap (<[p := {| settled := settled c; alreadyResolved := true;
                         reactions := reactions c |}]> (heap m)) m)
  | None => (Normal true, m)
  end.

(** The [resolve] and [reject] an executor receives: only the first call
    of either counts. *)
Definition resolveFn (p : pid) (v : value) : M unit :=
  done_ ← lock p;
  if done_ : bool then mret tt else resolve_promise p v.

Definition rejectFn (p : pid) (e : value) : M unit :=
  done_ ← lock p;
  if done_ : bool then mret tt else settle p (Rejected e).

(** PerformPromiseThen: the reaction waits on a pending promise and
    becomes a job at once on a settled one. *)
Definition perform_then (p : pid) (r : reaction) : M unit := fun m =>
  match heap m !! p with
  | Some c =>
    match settled c with
    | Pending =>
      (Normal tt,
       set_heap (<[p := {| settled := Pending;
                           alreadyResolved := alreadyResolved c;
                           reactions := reactions c ++ [r] |}]> (heap m)) m)
    | st => enqueue (reaction_job st r) m
    end
  | None => (Normal tt, m)
  end.

(** [p.then(onF, onR)] *)
Definition then_ (p : pid) (onF onR : option handler) : M pid :=
  d ← alloc new_cell;
  perform_then p {| onFulfilled := onF; onRejected := onR; derived := d |};;
  mret d.

(** [p.catch(onR)] *)
Definition catch_ (p : pid) (onR : handler) : M pid :=
  then_ p None (Some onR).

(** [Promise.resolve()] *)
Definition Promise_resolve (v : value) : M pid :=
  alloc {| settled := Fulfilled v; alreadyResolved := true; reactions := [] |}.

Fixpoint all_elements (all : pid) (promises : list pid) : M unit :=
  match promises with
  | [] => mret tt
  | p :: promises =>
    then_ p (Some (HAllResolveElement all)) (Some (HReject all));;
    all_elements all promises
  end.

(** [Promise.all(promises)] *)
Definition Promise_all (promises : list pid) : M pid :=
  all ← alloc new_cell;
  modify (fun m =>
    set_remainingElements
      ((all, (length promises, length promises)) :: remainingElements m) m);;
  all_elements all promises;;
  (if decide (length promises = 0) then settle all (Fulfilled (VUndefArray 0))
   else mret tt);;
  mret all.

Definition all_resolve_element (all : pid) : M unit := fun m =>
  match list_find (fun e => e.1 = all) (remainingElements m) with
  | Some (i, (_, (remaining, total))) =>
    let m := set_remainingElements
               (<[i := (all, (remaining - 1, total))]> (remainingElements m)) m in
    if decide (remaining - 1 = 0)
    then settle all (Fulfilled (VUndefArray total)) m
    else (Normal tt, m)
  | None => (Normal tt, m)
  end.

(** A call on the peripheral or on a characteristic, with its callback. *)
Definition device_call (req : request) (cb : callback) : M unit :=
  modify (fun m =>
    set_inflight (inflight m ++ [(req, cb)]) (set_calls (calls m ++ [req]) m)).

(** ** The methods of [GattConnection] *)

Section Connection.
Context `{Sodium}.

Definition get_this : M GattConnection := fun m => (Normal (this m), m).

(** A synchronous method, which only touches the fields of [this]. *)
Definition on_this {A} (f : GattConnection -> completion A * GattConnection)
  : M A :=
  fun m => let '(r, x) := f (this m) in (r, set_this x m).

(** [_queueOperation(op)] *)
Definition _queueOperation (op : operation) : M pid :=
  this_ ← get_this;
  p ← then_ (currentOperation this_) (Some (HOp op)) None;
  p ← catch_ p (HOp op);
  modify (fun m => set_this (set_currentOperation p (this m)) m);;
  mret p.

(** [connect()]: connect to the peripheral if necessary. *)
Definition connect : M pid :=
  this_ ← get_this;
  if decide (state this_ = CONNECTED) then Promise_resolve VUndefined
  else
    initial ←
      (if decide (state this_ ≠ DISCONNECTED)
       then p ← alloc new_cell;
            device_call ReqDisconnect (CbReconnect p);;
            mret p
       else Promise_resolve VUndefined);
    then_ initial (Some HConnect) None.

(** [disconnect()]: disconnect from the peripheral if necessary. *)
Definition disconnect : M pid :=
  p ← alloc new_cell;
  this_ ← get_this;
  (if decide (state this_ ≠ DISCONNECTED)
   then device_call ReqDisconnect (CbDisconnect p)
   else resolveFn p VUndefined);;
  mret p.

(** [_readCharacteristicInner(characteristic, pdus)].  The array [pdus]
    is reachable from this call and the reads it starts only (both callers
    pass a new [[]]), so [push] is the longer list handed on. *)
Definition _readCharacteristicInner (characteristic : Characteristic)
    (pdus : list Buffer) : M pid :=
  p ← alloc new_cell;
  device_call (ReqRead characteristic) (CbRead p characteristic pdus);;
  mret p.

(** The [for] loop of [writeCharacteristic]. *)
Fixpoint write_each (characteristic : Characteristic) (pdus : list Buffer)
  : M (list pid) :=
  match pdus with
  | [] => mret []
  | pdu :: pdus =>
    p ← alloc new_cell;
    device_call (ReqWrite characteristic pdu false) (CbWrite p);;
    promises ← write_each characteristic pdus;
    mret (p :: promises)
  end.

(** [op()] for each of the three closures given to [_queueOperation]. *)
Definition run_op (op : operation) : M value :=
  match op with
  | OpFindAndWrite serviceUuid characteristicUuid pdus =>
    p ← connect;
    q ← then_ p (Some (HDiscover serviceUuid characteristicUuid pdus)) None;
    mret (VPromise q)
  | OpWrite characteristic pdus =>
    this_ ← get_this;
    pdus ← match sessionKeys this_ with
           | Some _ => on_this (_encryptPdus pdus)
           | None => mret pdus
           end;
    promises ← write_each characteristic pdus;
    all ← Promise_all promises;
    r ← then_ all (Some (HDrain characteristic)) None;
    mret (VPromise r)
  | OpRead characteristic =>
    p ← _readCharacteristicInner characteristic [];
    mret (VPromise p)
  end.

(** [writeCharacteristic(characteristic, pdus)] *)
Definition writeCharacteristic (characteristic : Characteristic)
    (pdus : list Buffer) : M pid :=
  _queueOperation (OpWrite characteristic pdus).

(** [readCharacteristic(characteristic)] *)
Definition readCharacteristic (characteristic : Characteristic) : M pid :=
  _queueOperation (OpRead characteristic).

(** [findAndWriteCharacteristic(serviceUuid, characteristicUuid, pdus)] *)
Definition findAndWriteCharacteristic (serviceUuid characteristicUuid : string)
    (pdus : list Buffer) : M pid :=
  _queueOperation (OpFindAndWrite serviceUuid characteristicUuid pdus).

(** Calling a handler with the value its promise settled with. *)
Definition call_handler (h : handler) (arg : value) : M value :=
  match h with
  | HOp op =>
    modify (fun m => set_invoked (invoked m ++ [op]) m);;
    run_op op
  | HConnect =>
    p ← alloc new_cell;
    modify (fun m => set_this (set_state CONNECTING (this m)) m);;
    device_call ReqConnect (CbConnect p);;
    mret (VPromise p)
  | HDiscover serviceUuid characteristicUuid pdus =>
    p ← alloc new_cell;
    device_call (ReqDiscover [serviceUuid] [characteristicUuid])
      (CbDiscover p pdus);;
    mret (VPromise p)
  | HDrain characteristic =>
    p ← _readCharacteristicInner characteristic [];
    mret (VPromise p)
  | HResolve p => resolve_promise p arg;; mret VUndefined
  | HReject p => settle p (Rejected arg);; mret VUndefined
  | HAllResolveElement all => all_resolve_element all;; mret VUndefined
  end.

(** The last branch of the read callback: the empty read that ends the
    drain. *)
Definition finish_read (p : pid) (pdus : list Buffer) : M unit :=
  this_ ← get_this;
  pdus ← match sessionKeys this_ with
         | Some _ => on_this (_decryptPdus pdus)
         | None => mret pdus
         end;
  resolveFn p (VBuffers pdus).

(** The peripheral calling back. *)
Definition invoke_callback (cb : callback) (args : arguments) : M unit :=
  let err := arg_err args in
  match cb with
  | CbReconnect p | CbDisconnect p =>
    if truthy err then rejectFn p err
    else modify (fun m => set_this (set_state DISCONNECTED (this m)) m);;
         resolveFn p VUndefined
  | CbConnect p =>
    if truthy err then rejectFn p err
    else modify (fun m => set_this (set_state CONNECTED (this m)) m);;
         resolveFn p VUndefined
  | CbDiscover p pdus =>
    if truthy err then rejectFn p err
    else if bool_decide (length (arg_services args) = 0)
            || bool_decide (length (arg_characteristics args) = 0)
    then rejectFn p (VString "Characteristic not found")
    else match arg_characteristics args with
         | characteristic :: _ =>
           writeCharacteristic characteristic pdus;; mret tt
         | [] => mret tt
         end
  | CbWrite p =>
    if truthy err then rejectFn p err else resolveFn p VUndefined
  | CbRead p characteristic pdus =>
    if truthy err then rejectFn p err
    else match arg_data args with
         | Some data =>
           if bool_decide (0 < length data)
           then q ← _readCharacteristicInner characteristic (pdus ++ [data]);
                resolveFn p (VPromise q)
           else finish_read p pdus
         | None => finish_read p pdus
         end
  end.

(** ** The event loop *)

Definition run_job (j : job) : M unit :=
  match j with
  | JReaction None false v d => resolve_promise d v
  | JReaction None true e d => settle d (Rejected e)
  | JReaction (Some h) _ arg d =>
    fun m =>
      match call_handler h arg m with
      | (Normal v, m) => resolve_promise d v m
      | (Throw e, m) => settle d (Rejected e) m
      end
  | JThenable p thenable =>
    then_ thenable (Some (HResolve p)) (Some (HReject p));; mret tt
  end.

(** One turn: the oldest microtask if there is one, otherwise the
    peripheral answers the oldest call in flight.  [None] when there is
    nothing left to do. *)
Definition step (m : machine) : option machine :=
  match jobs m with
  | j :: js => Some (run_job j (set_jobs js m)).2
  | [] =>
    match inflight m with
    | (req, cb) :: rest =>
      match answer req (peripheral m) with
      | Some (args, per) =>
        match invoke_callback cb args
                (set_peripheral per (set_inflight rest m)) with
        | (Normal _, m) => Some m
        | (Throw e, m) => Some (set_uncaught (uncaught m ++ [e]) m)
        end
      | None => None
      end
    | [] => None
    end
  end.

Fixpoint run (n : nat) (m : machine) : machine :=
  match n with
  | 0 => m
  | S n => match step m with Some m => run n m | None => m end
  end.

(** Nothing is left to run: no microtask, and no call the peripheral
    will answer. *)
Definition quiescent (m : machine) : Prop := step m = None.

(** [new GattConnection(peripheral)] *)
Definition new_GattConnection (per : Peripheral) : machine :=
  {| this := {| state := DISCONNECTED; sessionKeys := None;
                a2cCounter := 0; c2aCounter := 0;
                currentOperation := 0 |};
     heap := [{| settled := Fulfilled VUndefined; alreadyResolved := true;
                 reactions := [] |}];
     remainingElements := []; jobs := []; inflight := [];
     peripheral := per; calls := []; invoked := []; uncaught := [] |}.

(** The state of promise [p]. *)
Definition promise_state (p : pid) (m : machine) : option pstate :=
  settled <$> heap m !! p.

End Connection.

(** ** Vocabulary for the statements *)

(** The number a little-endian byte string stands for. *)
Definition LE_value (b : Buffer) : N :=
  foldr (fun x acc => (Byte.to_N x + 256 * acc)%N) 0%N b.

(** The nonce for a counter value: what [Buffer.alloc(12)] holds after
    [writeUInt32LE(counter, 4)]. *)
Definition nonce_of (counter : N) : Buffer :=
  replicate 4 x00 ++ UInt32LE counter ++ replicate 4 x00.

(** The slices the [while] loop of [_encryptPdus] takes of a PDU, without
    the sealing: the first 496 bytes, then the same of what is left. *)
Equations? fragment (pdu : Buffer) : list Buffer by wf (length pdu) lt :=
  fragment pdu with decide (pdu = []) => {
    | left _ := []
    | right _ := take 496 pdu :: fragment (drop 496 pdu) }.
Proof. rewrite length_drop. destruct pdu; [done|]. simpl. lia. Qed.

Section Sealing.
Context `{Sodium}.

(** Sealing chunks under consecutive nonces. *)
Fixpoint seal_frames (key : Buffer) (counter : N) (chunks : list Buffer)
  : list Buffer :=
  match chunks with
  | [] => []
  | chunk :: chunks =>
    crypto_aead_chacha20poly1305_ietf_encrypt chunk (nonce_of counter) key
      :: seal_frames key (counter + 1) chunks
  end.

(** Opening frames under consecutive nonces, dropping those that fail. *)
Fixpoint open_frames (this : GattConnection) (counter : N) (frames : list Buffer)
  : list Buffer :=
  match frames with
  | [] => []
  | frame :: frames =>
    match decrypt_frame frame (nonce_of counter) this with
    | Some data => data :: open_frames this (counter + 1) frames
    | None => open_frames this (counter + 1) frames
    end
  end.

End Sealing.

#[global] Instance byte_eq_decision : EqDecision byte := Byte.byte_eq_dec.

(** A stand-in for libsodium in the examples: the 16-byte tag is cut from
    the nonce followed by the key, and a frame opens only under the nonce
    and key whose tag it carries. *)
Definition toy_tag (nonce key : Buffer) : Buffer :=
  take 16 (nonce ++ key ++ replicate 16 x00).

Definition toy_sodium : Sodium := {|
  crypto_aead_chacha20poly1305_ietf_encrypt m n k := m ++ toy_tag n k;
  crypto_aead_chacha20poly1305_ietf_decrypt c n k :=
    if decide (drop (length c - 16) c = toy_tag n k)
    then Some (take (length c - 16) c) else None;
|}.

(** Connections and peripherals of the examples. *)
Definition toy_keys : SessionKeys :=
  {| ControllerToAccessoryKey := replicate 32 x01;
     AccessoryToControllerKey := replicate 32 x01 |}.

Definition keyed (c2a a2c : N) : GattConnection :=
  {| state := CONNECTED; sessionKeys := Some toy_keys;
     a2cCounter := a2c; c2aCounter := c2a; currentOperation := 0 |}.

(** A peripheral given by its answers. *)
Definition answers (connects disconnects : list value)
    (discovers : list (value * list Service * list Characteristic))
    (writes : list value) (reads : list (value * option Buffer))
  : Peripheral :=
  {| connectResults := connects; disconnectResults := disconnects;
     discoverResults := discovers; writeResults := writes;
     readResults := reads |}.

(** The answers of reads that each return a frame. *)
Definition ok_reads (frames : list Buffer) : list (value * option Buffer) :=
  (fun d => (VUndefined, Some d)) <$> frames.

(** A promise that has not been resolved, one that was resolved with
    another promise, and one that has settled. *)
Definition waiting_cell (R : list reaction) : cell :=
  {| settled := Pending; alreadyResolved := false; reactions := R |}.

Definition locked_cell (R : list reaction) : cell :=
  {| settled := Pending; alreadyResolved := true; reactions := R |}.

Definition settled_cell (st : pstate) : cell :=
  {| settled := st; alreadyResolved := true; reactions := [] |}.

(** The reaction through which promise [p] follows the promise it was
    resolved with. *)
Definition adoption (p d : pid) : reaction :=
  {| onFulfilled := Some (HResolve p); onRejected := Some (HReject p);
     derived := d |}.

(** A state a promise takes by fulfilment with a plain value or by
    rejection. *)
Definition final_state (st : pstate) : Prop :=
  match st with
  | Pending => False
  | Fulfilled (VPromise _) => False
  | _ => True
  end.

(** The reaction [then(() => op())] leaves on the end of the chain and
    the reaction [catch(() => op())] leaves on the promise of that. *)
Definition then_op (op : operation) (d : pid) : reaction :=
  {| onFulfilled := Some (HOp op); onRejected := None; derived := d |}.

Definition catch_op (op : operation) (d : pid) : reaction :=
  {| onFulfilled := None; onRejected := Some (HOp op); derived := d |}.

(** The state a promise takes from the error argument of a callback. *)
Definition outcome (err : value) : pstate :=
  if truthy err then Rejected err else Fulfilled VUndefined.

Section Receipt.
Context `{Sodium}.

(** What the last branch of the read callback makes of the frames read:
    with session keys they are opened, and [a2cCounter] has moved on by
    one for each; without, they are as they came. *)
Definition received (this : GattConnection) (frames : list Buffer)
  : list Buffer :=
  match sessionKeys this with
  | Some _ => open_frames this (a2cCounter this) frames
  | None => frames
  end.

Definition after_receipt (this : GattConnection) (frames : list Buffer)
  : GattConnection :=
  match sessionKeys this with
  | Some _ => set_a2cCounter (a2cCounter this + N.of_nat (length frames)) this
  | None => this
  end.

End Receipt.

Section Sending.
Context `{Sodium}.

(** What a run of the write closure writes for [pdus], and the connection
    after: with session keys the sealed chunks, [c2aCounter] having moved
    on by one for each; without, the PDUs as they are. *)
Definition written (this : GattConnection) (pdus : list Buffer)
  : list Buffer :=
  match sessionKeys this with
  | Some keys =>
    seal_frames (ControllerToAccessoryKey keys) (c2aCounter this)
      (concat (fragment <$> pdus))
  | None => pdus
  end.

Definition after_sending (this : GattConnection) (pdus : list Buffer)
  : GattConnection :=
  match sessionKeys this with
  | Some _ =>
    set_c2aCounter
      (c2aCounter this + N.of_nat (length (concat (fragment <$> pdus)))) this
  | None => this
  end.

End Sending.

(** The reaction [Promise.all] leaves on each of its promises, and the
    one [then] of line 247 leaves on the promise of [Promise.all]. *)
Definition element (all d : pid) : reaction :=
  {| onFulfilled := Some (HAllResolveElement all);
     onRejected := Some (HReject all); derived := d |}.

Definition drain_reaction (characteristic : Characteristic) (d : pid)
  : reaction :=
  {| onFulfilled := Some (HDrain characteristic); onRejected := None;
     derived := d |}.

(** The writes in flight after the [for] loop of [writeCharacteristic],
    the promise of the first being [p]. *)
Definition write_calls (characteristic : Characteristic) (p : pid)
    (frames : list Buffer) : list (request * callback) :=
  imap (fun j frame => (ReqWrite characteristic frame false, CbWrite (p + j)))
    frames.

(** ** Vocabulary for connecting, discovery and the queue *)

(** The calls [connect()] makes on the peripheral from each state. *)
Definition connect_calls (s : State) : list request :=
  match s with
  | CONNECTED => []
  | DISCONNECTED => [ReqConnect]
  | CONNECTING => [ReqDisconnect; ReqConnect]
  end.

(** Whether the next answer of a kind comes without an error. *)
Definition next_ok (errs : list value) : bool :=
  match errs with
  | err :: _ => negb (truthy err)
  | [] => false
  end.

(** Whether the answers the peripheral has ready let [connect()] succeed
    from state [s]: none is needed when CONNECTED, and from CONNECTING the
    peripheral must first disconnect. *)
Definition connect_succeeds (s : State) (per : Peripheral) : bool :=
  match s with
  | CONNECTED => true
  | DISCONNECTED => next_ok (connectResults per)
  | CONNECTING =>
    next_ok (disconnectResults per) && next_ok (connectResults per)
  end.

(** The peripheral once it has given those answers. *)
Definition after_connect (s : State) (per : Peripheral) : Peripheral :=
  {| connectResults :=
       match s with
       | CONNECTED => connectResults per
       | _ => tail (connectResults per)
       end;
     disconnectResults :=
       match s with
       | CONNECTING => tail (disconnectResults per)
       | _ => disconnectResults per
       end;
     discoverResults := discoverResults per;
     writeResults := writeResults per;
     readResults := readResults per |}.

(** The peripheral once it has answered [k] discoveries. *)
Definition after_discovery (k : nat) (per : Peripheral) : Peripheral :=
  {| connectResults := connectResults per;
     disconnectResults := disconnectResults per;
     discoverResults := drop k (discoverResults per);
     writeResults := writeResults per;
     readResults := readResults per |}.

Section Runs.
Context `{Sodium}.

(** A run of the closure [op] that fails with [e].  Called by the job of
    a reaction of [_queueOperation], on the connection [th] at rest over
    the peripheral [per], the closure and what it started have run their
    course after some turns: the promise [d] of the reaction, whichever
    it is, is rejected with [e] and its own reactions are due; the
    connection is [th'], at rest over [per'], and the calls [made] were
    made on the peripheral. *)
Definition run_fails (op : operation) (th : GattConnection) (per : Peripheral)
    (e : value) (th' : GattConnection) (per' : Peripheral)
    (made : list request) : Prop :=
  forall rejected arg d b R h re cl inv unc,
    h !! d = Some {| settled := Pending; alreadyResolved := b;
                     reactions := R |} ->
    exists n extra re',
      run n {| this := th; heap := h; remainingElements := re;
               jobs := [JReaction (Some (HOp op)) rejected arg d];
               inflight := []; peripheral := per;
               calls := cl; invoked := inv; uncaught := unc |}
      = {| this := th';
           heap := <[d := {| settled := Rejected e; alreadyResolved := b;
                             reactions := [] |}]> h ++ extra;
           remainingElements := re';
           jobs := concat (map (reaction_job (Rejected e)) R);
           inflight := []; peripheral := per';
           calls := cl ++ made; invoked := inv ++ [op]; uncaught := unc |}.

(** Whether a second run of the closure [op] starts from what its first
    run started from.  The closure of [writeCharacteristic] assigns the
    sealed frames to its variable [pdus] (line 230), while [OpWrite] keeps
    the PDUs it was made with; so it does unless the first run, on the
    connection [th], got past the sealing. *)
Definition reruns_as_given (op : operation) (th : GattConnection) : Prop :=
  match op with
  | OpWrite _ pdus =>
    match sessionKeys th with
    | Some _ => exists e, (_encryptPdus pdus th).1 = Throw e
    | None => True
    end
  | _ => True
  end.

(** A caller that queues operations one after another and lets the event
    loop take some turns before each. *)
Fixpoint queue_each (later : list (nat * operation)) (m : machine)
  : list pid * machine :=
  match later with
  | [] => ([], m)
  | (n, op) :: later =>
    match _queueOperation op (run n m) with
    | (Normal p, m) =>
      let '(ps, m) := queue_each later m in (p :: ps, m)
    | (Throw _, m) => ([], m)
    end
  end.

End Runs.

(** * Properties of the frame codec *)

Lemma to_N_byte_of_N n : Byte.to_N (byte_of_N n) = (n mod 256)%N.
Proof.
  unfold byte_of_N.
  destruct (Byte.of_N (n mod 256)) as [b|] eqn:E.
  - simpl. by apply Byte.to_of_N.
  - apply Byte.of_N_None_iff in E.
    pose proof (N.mod_upper_bound n 256). lia.
Qed.

Lemma LE_value_UInt32LE k :
  (k <= 4294967295)%N -> LE_value (UInt32LE k) = k.
Proof.
  intros Hk. unfold LE_value, UInt32LE. cbn [foldr].
  rewrite !to_N_byte_of_N, !N.shiftr_div_pow2.
  change (2 ^ 8)%N with 256%N. change (2 ^ 16)%N with (256 * 256)%N.
  change (2 ^ 24)%N with (256 * 256 * 256)%N.
  rewrite <- !N.Div0.div_div.
  pose proof (N.div_mod k 256). 
  pose proof (N.div_mod (k / 256) 256).
  pose proof (N.div_mod (k / 256 / 256) 256).
  assert (k / 256 / 256 / 256 < 256)%N.
  { rewrite !N.Div0.div_div. apply N.Div0.div_lt_upper_bound. lia. }
  rewrite (N.mod_small (k / 256 / 256 / 256) 256) by done.
  lia.
Qed.

Lemma writeUInt32LE_nonce k :
  (k <= 4294967295)%N ->
  writeUInt32LE (Buffer_alloc 12) k 4 = Normal (nonce_of k).
Proof.
  intros Hk. unfold writeUInt32LE.
  apply N.leb_le in Hk. rewrite Hk. reflexivity.
Qed.

Lemma writeUInt32LE_range k :
  (4294967295 < k)%N ->
  writeUInt32LE (Buffer_alloc 12) k 4 = Throw (VError "ERR_OUT_OF_RANGE").
Proof.
  intros Hk. unfold writeUInt32LE.
  apply N.leb_gt in Hk. by rewrite Hk.
Qed.

Lemma nonce_of_inj a b :
  (a <= 4294967295)%N -> (b <= 4294967295)%N ->
  nonce_of a = nonce_of b -> a = b.
Proof.
  intros Ha Hb E. unfold nonce_of in E.
  apply app_inv_head in E. apply app_inv_tail in E.
  rewrite <- (LE_value_UInt32LE a), <- (LE_value_UInt32LE b) by done.
  by rewrite E.
Qed.

Lemma fragment_nil : fragment [] = [].
Proof. by simp fragment. Qed.

Lemma fragment_nonempty pdu :
  pdu <> [] -> fragment pdu = take 496 pdu :: fragment (drop 496 pdu).
Proof.
  intros Hne. rewrite fragment_equation_1.
  by destruct (decide (pdu = [])).
Qed.

Lemma concat_fragment pdu : concat (fragment pdu) = pdu.
Proof.
  funelim (fragment pdu); [done|].
  cbn [concat]. rewrite H. apply take_drop.
Qed.

Lemma Forall_fragment pdu :
  Forall (fun chunk => 0 < length chunk <= 496) (fragment pdu).
Proof.
  funelim (fragment pdu); [constructor|].
  constructor; [|done].
  assert (0 < length pdu) by (destruct pdu; [done|]; cbn [length]; lia).
  rewrite length_take. lia.
Qed.

Lemma fragment_small pdu :
  0 < length pdu <= 496 -> fragment pdu = [pdu].
Proof.
  intros Hlen. rewrite fragment_nonempty by (intros ->; simpl in Hlen; lia).
  rewrite take_ge, drop_ge by lia. by rewrite fragment_nil.
Qed.

Lemma fragment_large pdu :
  496 < length pdu ->
  fragment pdu = take 496 pdu :: fragment (drop 496 pdu).
Proof. intros Hlen. apply fragment_nonempty. intros ->. simpl in Hlen. lia. Qed.

Lemma take_min_length {A} (l : list A) n :
  take (length l `min` n) l = take n l.
Proof.
  destruct (decide (length l <= n)).
  - rewrite Nat.min_l by done. by rewrite !take_ge by lia.
  - by rewrite Nat.min_r by lia.
Qed.

Lemma omap_Some_id {A} (l : list A) : omap id (Some <$> l) = l.
Proof. induction l as [|x l IH]; [done|]. cbn. by rewrite IH. Qed.

Section CodecFacts.
Context `{Sodium}.

Lemma seal_app key counter l1 l2 :
  seal_frames key counter (l1 ++ l2) =
  seal_frames key counter l1 ++ seal_frames key (counter + N.of_nat (length l1)) l2.
Proof.
  revert counter. induction l1 as [|c l1 IH]; intros counter; simpl.
  - by rewrite N.add_0_r.
  - rewrite IH. do 3 f_equal. lia.
Qed.

Lemma length_seal key counter chunks :
  length (seal_frames key counter chunks) = length chunks.
Proof. revert counter. induction chunks; intros; simpl; auto. Qed.

Lemma lookup_seal key counter chunks i :
  seal_frames key counter chunks !! i =
  (fun chunk => crypto_aead_chacha20poly1305_ietf_encrypt chunk
                  (nonce_of (counter + N.of_nat i)) key) <$> chunks !! i.
Proof.
  revert counter i. induction chunks as [|c l IH]; intros counter [|i]; simpl;
    try done.
  - by rewrite N.add_0_r.
  - rewrite IH.
    by replace (counter + 1 + N.of_nat i)%N
         with (counter + N.of_nat (S i))%N by lia.
Qed.

Lemma set_c2aCounter_id this : set_c2aCounter (c2aCounter this) this = this.
Proof. by destruct this. Qed.

Lemma set_c2aCounter_twice a b this :
  set_c2aCounter a (set_c2aCounter b this) = set_c2aCounter a this.
Proof. done. Qed.

Lemma set_a2cCounter_twice a b this :
  set_a2cCounter a (set_a2cCounter b this) = set_a2cCounter a this.
Proof. done. Qed.

Lemma set_a2cCounter_id this : set_a2cCounter (a2cCounter this) this = this.
Proof. by destruct this. Qed.

Lemma encrypt_frame_sealed pdu position this keys :
  sessionKeys this = Some keys ->
  (c2aCounter this <= 4294967295)%N ->
  encrypt_frame pdu position this =
  (Normal (crypto_aead_chacha20poly1305_ietf_encrypt
             (take 496 (drop position pdu)) (nonce_of (c2aCounter this))
             (ControllerToAccessoryKey keys)),
   set_c2aCounter (c2aCounter this + 1) this).
Proof.
  intros Hk Hc. unfold encrypt_frame.
  rewrite writeUInt32LE_nonce by done. cbn [sessionKeys set_c2aCounter].
  rewrite Hk. do 3 f_equal. unfold slice.
  replace (position + (length pdu - position) `min` 496 - position)
    with ((length pdu - position) `min` 496) by lia.
  rewrite <- length_drop. apply take_min_length.
Qed.

Lemma fragment_step pdu position :
  position < length pdu ->
  fragment (drop position pdu) =
  take 496 (drop position pdu)
    :: fragment (drop (position + (length pdu - position) `min` 496) pdu).
Proof.
  intros Hlt. rewrite fragment_nonempty.
  - rewrite drop_drop. do 2 f_equal.
    destruct (decide (length pdu - position <= 496)).
    + rewrite Nat.min_l by done. by rewrite !drop_ge by lia.
    + by rewrite Nat.min_r by lia.
  - intros E. apply (f_equal length) in E.
    rewrite length_drop in E. simpl in E. lia.
Qed.

Lemma encrypt_while_seal pdu position encryptedPdus this keys :
  sessionKeys this = Some keys ->
  (c2aCounter this + N.of_nat (length (fragment (drop position pdu)))
     <= 4294967296)%N ->
  encrypt_while pdu position encryptedPdus this =
  (Normal (encryptedPdus ++
           seal_frames (ControllerToAccessoryKey keys) (c2aCounter this)
             (fragment (drop position pdu))),
   set_c2aCounter
     (c2aCounter this + N.of_nat (length (fragment (drop position pdu))))
     this).
Proof.
  funelim (encrypt_while pdu position encryptedPdus this); intros Hk Hc.
  - rewrite drop_ge by lia. rewrite fragment_nil. simpl.
    by rewrite app_nil_r, N.add_0_r, set_c2aCounter_id.
  - rename H0 into IH.
    rewrite (fragment_step pdu position) in Hc |- * by done.
    cbn [length seal_frames] in Hc |- *.
    rewrite (encrypt_frame_sealed _ _ _ keys) in Heq by (done || lia).
    injection Heq as <- <-.
    rewrite (IH keys) by (cbn [sessionKeys c2aCounter set_c2aCounter]; done || lia).
    rewrite set_c2aCounter_twice. cbn [c2aCounter set_c2aCounter].
    rewrite <- app_assoc. cbn [app]. do 2 f_equal. lia.
  - rewrite (fragment_step pdu position) in Hc by done.
    cbn [length] in Hc.
    rewrite (encrypt_frame_sealed _ _ _ keys) in Heq by (done || lia).
    discriminate.
Qed.

Lemma encrypt_for_seal pdus encryptedPdus this keys :
  sessionKeys this = Some keys ->
  (c2aCounter this + N.of_nat (length (concat (fragment <$> pdus)))
     <= 4294967296)%N ->
  encrypt_for pdus encryptedPdus this =
  (Normal (encryptedPdus ++
           seal_frames (ControllerToAccessoryKey keys) (c2aCounter this)
             (concat (fragment <$> pdus))),
   set_c2aCounter
     (c2aCounter this + N.of_nat (length (concat (fragment <$> pdus))))
     this).
Proof.
  revert encryptedPdus this.
  induction pdus as [|pdu pdus IH]; intros encryptedPdus this Hk Hc.
  - simpl. by rewrite app_nil_r, N.add_0_r, set_c2aCounter_id.
  - cbn [fmap list_fmap concat encrypt_for] in Hc |- *.
    rewrite length_app in Hc.
    pose proof (encrypt_while_seal pdu 0 encryptedPdus this keys Hk) as E.
    change (drop 0 pdu) with pdu in E. rewrite E by lia. clear E.
    rewrite IH by (cbn [sessionKeys c2aCounter set_c2aCounter]; done || lia).
    rewrite set_c2aCounter_twice, seal_app, length_app, <- app_assoc.
    cbn [c2aCounter set_c2aCounter]. do 2 f_equal. lia.
Qed.

Lemma _encryptPdus_seal pdus this keys :
  sessionKeys this = Some keys ->
  (c2aCounter this + N.of_nat (length (concat (fragment <$> pdus)))
     <= 4294967296)%N ->
  _encryptPdus pdus this =
  (Normal (seal_frames (ControllerToAccessoryKey keys) (c2aCounter this)
             (concat (fragment <$> pdus))),
   set_c2aCounter
     (c2aCounter this + N.of_nat (length (concat (fragment <$> pdus))))
     this).
Proof. intros. unfold _encryptPdus. by rewrite (encrypt_for_seal _ _ _ keys). Qed.

Lemma unseal_set_a2cCounter n this counter frames :
  open_frames (set_a2cCounter n this) counter frames = open_frames this counter frames.
Proof.
  revert counter. induction frames as [|f l IH]; intros counter; [done|].
  simpl. rewrite IH. done.
Qed.

Lemma unseal_app this counter l1 l2 :
  open_frames this counter (l1 ++ l2) =
  open_frames this counter l1 ++ open_frames this (counter + N.of_nat (length l1)) l2.
Proof.
  revert counter. induction l1 as [|f l1 IH]; intros counter.
  - simpl. by rewrite N.add_0_r.
  - cbn [app open_frames length]. rewrite IH.
    replace (counter + 1 + N.of_nat (length l1))%N
      with (counter + N.of_nat (S (length l1)))%N by lia.
    by destruct (decrypt_frame f (nonce_of counter) this).
Qed.

Lemma unseal_imap this counter frames :
  open_frames this counter frames =
  omap id (imap (fun i frame =>
                   decrypt_frame frame (nonce_of (counter + N.of_nat i)) this)
             frames).
Proof.
  revert counter. induction frames as [|f l IH]; intros counter; [done|].
  cbn [open_frames imap omap list_omap]. rewrite N.add_0_r. 
  rewrite IH.
  assert (imap (fun i frame =>
            decrypt_frame frame (nonce_of (counter + 1 + N.of_nat i)) this) l
          = imap ((fun i frame =>
            decrypt_frame frame (nonce_of (counter + N.of_nat i)) this) ∘ S) l)
    as ->.
  { apply imap_ext. intros i x _. simpl. do 2 f_equal. lia. }
  by destruct (decrypt_frame f (nonce_of counter) this).
Qed.

Lemma decrypt_for_unseal frames decryptedPdus this :
  (a2cCounter this + N.of_nat (length frames) <= 4294967296)%N ->
  decrypt_for frames decryptedPdus this =
  (Normal (decryptedPdus ++ open_frames this (a2cCounter this) frames),
   set_a2cCounter (a2cCounter this + N.of_nat (length frames)) this).
Proof.
  revert decryptedPdus this.
  induction frames as [|f l IH]; intros decryptedPdus this Hc.
  - simpl. by rewrite app_nil_r, N.add_0_r, set_a2cCounter_id.
  - cbn [decrypt_for length open_frames] in Hc |- *.
    rewrite writeUInt32LE_nonce by lia.
    change (decrypt_frame f (nonce_of (a2cCounter this))
              (set_a2cCounter (a2cCounter this + 1) this))
      with (decrypt_frame f (nonce_of (a2cCounter this)) this).
    destruct (decrypt_frame f (nonce_of (a2cCounter this)) this);
      rewrite IH by (cbn [a2cCounter set_a2cCounter]; lia);
      rewrite set_a2cCounter_twice, unseal_set_a2cCounter;
      cbn [a2cCounter set_a2cCounter]; rewrite <- ?app_assoc;
      do 2 f_equal; lia.
Qed.

Lemma _decryptPdus_unseal frames this :
  (a2cCounter this + N.of_nat (length frames) <= 4294967296)%N ->
  _decryptPdus frames this =
  (Normal (open_frames this (a2cCounter this) frames),
   set_a2cCounter (a2cCounter this + N.of_nat (length frames)) this).
Proof. intros. unfold _decryptPdus. by rewrite decrypt_for_unseal. Qed.

Lemma unseal_seal `{!SodiumCorrect} this keys counter chunks :
  sessionKeys this = Some keys ->
  open_frames this counter (seal_frames (AccessoryToControllerKey keys) counter chunks)
  = chunks.
Proof.
  intros Hk. revert counter.
  induction chunks as [|c l IH]; intros counter; [done|].
  cbn [seal_frames open_frames]. unfold decrypt_frame at 1. rewrite Hk.
  rewrite decrypt_encrypt. by rewrite IH.
Qed.

End CodecFacts.

(** * Properties of the event loop *)

(** Unfolding of the monad and of the field updates. *)
Ltac msimpl :=
  repeat progress
    (unfold mbind, M_bind, mret, M_ret, modify, alloc, enqueue, device_call;
     cbn [set_this set_heap set_remainingElements set_jobs set_inflight
          set_peripheral set_calls set_invoked set_uncaught
          this heap remainingElements jobs inflight peripheral calls invoked
          uncaught fst snd app]).

Ltac mnorm :=
  unfold set_this, set_heap, set_remainingElements, set_jobs, set_inflight,
    set_peripheral, set_calls, set_invoked, set_uncaught;
  cbn [this heap remainingElements jobs inflight peripheral calls invoked
       uncaught app].

Section Loop.
Context `{Sodium}.

Lemma run_add a b m : run (a + b) m = run b (run a m).
Proof.
  revert m. induction a as [|a IH]; intros m; [done|].
  cbn [Nat.add run]. destruct (step m) eqn:E; [apply IH|].
  destruct b; [done|]. cbn [run]. by rewrite E.
Qed.

Lemma run_quiescent n m : quiescent m -> run n m = m.
Proof. intros Hq. destruct n; [done|]. cbn [run]. by rewrite Hq. Qed.

(** Once at rest, the machine stays as it is. *)
Lemma run_rest k n m : quiescent (run k m) -> k <= n -> run n m = run k m.
Proof.
  intros Hq Hle. replace n with (k + (n - k)) by lia.
  rewrite run_add. by apply run_quiescent.
Qed.

Lemma truthy_cases e :
  truthy e = true ->
  (exists a s, e = VString (String a s)) \/ (exists name, e = VError name)
  \/ (exists pdus, e = VBuffers pdus) \/ (exists n, e = VUndefArray n)
  \/ (exists p, e = VPromise p).
Proof. destruct e as [|[|a s]| | | |]; try discriminate; naive_solver. Qed.

(** ** The drain loop *)

Lemma run_step n m m' : step m = Some m' -> run (S n) m = run n m'.
Proof. intros E. cbn [run]. by rewrite E. Qed.

Lemma insert_at_end {A} (l : list A) x y :
  <[length l := x]> (l ++ [y]) = l ++ [x].
Proof.
  rewrite insert_app_r_alt by done. by rewrite Nat.sub_diag.
Qed.

Lemma heap_after_frame {A} (h : list A) p lk wc nc sc ful X extra :
  p < length h ->
  <[S (length h) := ful]>
    (<[p := X]> (<[length h := sc]> (<[p := lk]> h ++ [wc; nc]) ++ extra))
  = <[p := X]> h ++ sc :: ful :: extra.
Proof.
  intros Hp.
  assert (length (<[p := lk]> h) = length h) as Hlen by apply length_insert.
  rewrite (insert_app_r_alt (<[p := lk]> h)) by lia.
  rewrite Hlen, Nat.sub_diag. cbn [insert list_insert].
  rewrite <- app_assoc. cbn [app].
  rewrite insert_app_l by lia. rewrite list_insert_insert_eq.
  rewrite insert_app_r_alt by (rewrite length_insert; lia).
  rewrite length_insert.
  replace (S (length h) - length h) with 1 by lia. done.
Qed.

(** A read that returns data: the callback starts the next read and its
    promise adopts the promise of that read. *)
Lemma step_frame c p acc d R th h re cl inv unc cr dr dcr wr rr :
  0 < length d ->
  h !! p = Some (waiting_cell R) ->
  step {| this := th; heap := h; remainingElements := re; jobs := [];
          inflight := [(ReqRead c, CbRead p c acc)];
          peripheral := answers cr dr dcr wr ((VUndefined, Some d) :: rr);
          calls := cl; invoked := inv; uncaught := unc |} =
  Some {| this := th;
          heap := <[p := locked_cell R]> h ++ [new_cell];
          remainingElements := re; jobs := [JThenable p (length h)];
          inflight := [(ReqRead c, CbRead (length h) c (acc ++ [d]))];
          peripheral := answers cr dr dcr wr rr;
          calls := cl ++ [ReqRead c]; invoked := inv; uncaught := unc |}.
Proof.
  intros Hd Hp.
  unfold step. cbn [jobs inflight peripheral answer answers readResults connectResults disconnectResults discoverResults writeResults].
  cbn [invoke_callback arg_err arg_data truthy].
  rewrite bool_decide_eq_true_2 by done.
  assert (p < length h) as Hlt by (by eapply lookup_lt_Some).
  unfold _readCharacteristicInner, resolveFn, lock, resolve_promise.
  msimpl.
  rewrite lookup_app_l, Hp by done. msimpl. cbn [waiting_cell alreadyResolved settled reactions].
  rewrite decide_False by lia. msimpl.
  rewrite insert_app_l by done.
  reflexivity.
Qed.

(** The adoption job: the adopted promise gets the reaction that will
    settle the adopting one. *)
Lemma step_thenable p q R js th h re infl per cl inv unc :
  h !! q = Some (waiting_cell R) ->
  step {| this := th; heap := h; remainingElements := re;
          jobs := JThenable p q :: js; inflight := infl; peripheral := per;
          calls := cl; invoked := inv; uncaught := unc |} =
  Some {| this := th;
          heap := <[q := waiting_cell (R ++ [adoption p (length h)])]> h
                  ++ [new_cell];
          remainingElements := re; jobs := js; inflight := infl;
          peripheral := per; calls := cl; invoked := inv; uncaught := unc |}.
Proof.
  intros Hq.
  assert (q < length h) as Hlt by (by eapply lookup_lt_Some).
  unfold step. cbn [jobs run_job]. unfold then_, perform_then. msimpl.
  rewrite lookup_app_l, Hq by done.
  cbn [waiting_cell alreadyResolved settled reactions]. msimpl.
  by rewrite insert_app_l by done.
Qed.

Lemma settle_normal p st m : settle p st m = (Normal tt, (settle p st m).2).
Proof.
  unfold settle. destruct (heap m !! p) as [c|]; [|done].
  by destruct (settled c).
Qed.

(** The job of that reaction: the adopting promise takes the state the
    adopted one settled in. *)
Lemma step_adopted st p d R b js th h re infl per cl inv unc :
  final_state st ->
  h !! p = Some {| settled := Pending; alreadyResolved := b; reactions := R |} ->
  h !! d = Some new_cell ->
  p <> d ->
  step {| this := th; heap := h; remainingElements := re;
          jobs := reaction_job st (adoption p d) ++ js;
          inflight := infl; peripheral := per;
          calls := cl; invoked := inv; uncaught := unc |} =
  Some {| this := th;
          heap := <[d := {| settled := Fulfilled VUndefined;
                            alreadyResolved := false; reactions := [] |}]>
                    (<[p := {| settled := st; alreadyResolved := b;
                               reactions := [] |}]> h);
          remainingElements := re;
          jobs := js ++ concat (map (reaction_job st) R);
          inflight := infl; peripheral := per;
          calls := cl; invoked := inv; uncaught := unc |}.
Proof.
  intros Hst Hp Hd Hne.
  assert (forall m v, (forall q, v <> VPromise q) ->
            resolve_promise p v m = settle p (Fulfilled v) m) as Hres.
  { intros m v Hv. destruct v; try done. by destruct (Hv p0). }
  assert (forall m,
            run_job (match st with
                     | Rejected e => JReaction (Some (HReject p)) true e d
                     | Fulfilled v => JReaction (Some (HResolve p)) false v d
                     | Pending => JThenable 0 0
                     end) m
            = settle d (Fulfilled VUndefined) (settle p st m).2) as E.
  { intros m.
    destruct st as [|v|e]; [done| |]; cbn [run_job call_handler]; msimpl.
    - rewrite Hres; [|by intros q ->].
      by rewrite (settle_normal p (Fulfilled v) m).
    - by rewrite (settle_normal p (Rejected e) m). }
  unfold step.
  replace (reaction_job st (adoption p d))
    with [match st with
          | Rejected e => JReaction (Some (HReject p)) true e d
          | Fulfilled v => JReaction (Some (HResolve p)) false v d
          | Pending => JThenable 0 0
          end] by (by destruct st).
  cbn [jobs app]. rewrite E. clear E.
  unfold settle. msimpl. rewrite Hp. cbn [settled alreadyResolved reactions].
  msimpl. rewrite list_lookup_insert_ne, Hd by done.
  cbn [new_cell settled alreadyResolved reactions map concat].
  msimpl. by rewrite app_nil_r.
Qed.


Section Drain.
Variable c : Characteristic.
Variable th : GattConnection.
Variable ending : value * option Buffer.
Variable st : list Buffer -> pstate.

Hypothesis st_final : forall acc, final_state (st acc).

(** What the callback does on the answer that ends the drain. *)
Hypothesis step_last : forall p acc R h re cl inv unc cr dr dcr wr rr,
  h !! p = Some (waiting_cell R) ->
  step {| this := th; heap := h; remainingElements := re; jobs := [];
          inflight := [(ReqRead c, CbRead p c acc)];
          peripheral := answers cr dr dcr wr (ending :: rr);
          calls := cl; invoked := inv; uncaught := unc |} =
  Some {| this := th; heap := <[p := settled_cell (st acc)]> h;
          remainingElements := re;
          jobs := concat (map (reaction_job (st acc)) R);
          inflight := []; peripheral := answers cr dr dcr wr rr;
          calls := cl; invoked := inv; uncaught := unc |}.

Lemma drain_loop frames :
  forall p acc R h re cl inv unc cr dr dcr wr rr,
  Forall (fun d => 0 < length d) frames ->
  h !! p = Some (waiting_cell R) ->
  exists n extra,
    run n {| this := th; heap := h; remainingElements := re; jobs := [];
             inflight := [(ReqRead c, CbRead p c acc)];
             peripheral := answers cr dr dcr wr (ok_reads frames ++ ending :: rr);
             calls := cl; invoked := inv; uncaught := unc |} =
    {| this := th;
       heap := <[p := settled_cell (st (acc ++ frames))]> h ++ extra;
       remainingElements := re;
       jobs := concat (map (reaction_job (st (acc ++ frames))) R);
       inflight := []; peripheral := answers cr dr dcr wr rr;
       calls := cl ++ replicate (length frames) (ReqRead c);
       invoked := inv; uncaught := unc |}.
Proof using st_final step_last.
  induction frames as [|d fs IH];
    intros p acc R h re cl inv unc cr dr dcr wr rr Hne Hp.
  - exists 1, []. cbn [ok_reads fmap list_fmap app].
    erewrite run_step by (by apply step_last).
    cbn [run length replicate]. by rewrite !app_nil_r.
  - apply Forall_cons in Hne as [Hd Hfs].
    assert (p < length h) as Hlt by (by eapply lookup_lt_Some).
    set (h1 := <[p := locked_cell R]> h).
    assert (length h1 = length h) as Hlen by apply length_insert.
    assert (h1 !! p = Some (locked_cell R)) as Hp1
      by (by apply list_lookup_insert_eq).
    set (q := length h).
    set (h2 := h1 ++ [waiting_cell [adoption p (S q)]; new_cell]).
    destruct (IH q (acc ++ [d]) [adoption p (S q)] h2 re
                (cl ++ [ReqRead c]) inv unc cr dr dcr wr rr Hfs)
      as (n & extra & Hrun).
    { subst h2. rewrite lookup_app_r by lia. by rewrite Hlen, Nat.sub_diag. }
    exists (2 + (n + 1)), (settled_cell (st (acc ++ d :: fs))
                            :: {| settled := Fulfilled VUndefined;
                                  alreadyResolved := false; reactions := [] |}
                            :: extra).
    cbn [ok_reads fmap list_fmap app Nat.add].
    erewrite run_step by (by apply step_frame).
    erewrite run_step.
    2:{ apply step_thenable. fold h1. rewrite lookup_app_r by lia.
        by rewrite Hlen, Nat.sub_diag. }
    fold h1 q. rewrite length_app, Hlen. cbn [length]. 
    replace (length h + 1) with (S q) by (subst q; lia).
    replace (<[q := waiting_cell ([] ++ [adoption p (S q)])]> (h1 ++ [new_cell])
               ++ [new_cell]) with h2.
    2:{ subst h2 q. rewrite <- Hlen, insert_at_end, <- app_assoc. done. }
    rewrite run_add. fold (ok_reads fs). rewrite Hrun. clear Hrun.
    rewrite <- (app_assoc acc [d] fs). cbn [app].
    cbn [map concat]. rewrite app_nil_r.
    rewrite <- (app_nil_r (reaction_job _ _)).
    erewrite run_step.
    2:{ apply (step_adopted _ p (S q) R true); [apply st_final| |  |lia].
        - subst h2. rewrite lookup_app_l by (rewrite length_insert, length_app; lia).
          rewrite list_lookup_insert_ne by lia.
          by rewrite lookup_app_l by lia.
        - subst h2. rewrite lookup_app_l by (rewrite length_insert, length_app; cbn [length]; lia).
          rewrite list_lookup_insert_ne by lia.
          rewrite lookup_app_r by lia. by rewrite Hlen, Nat.sub_succ_l, Nat.sub_diag by lia. }
    cbn [run app]. f_equal.
    + subst h2 h1 q. by apply heap_after_frame.
    + by rewrite <- app_assoc.
Qed.
End Drain.


Lemma step_last_error c th err data p acc R h re cl inv unc cr dr dcr wr rr :
  truthy err = true ->
  h !! p = Some (waiting_cell R) ->
  step {| this := th; heap := h; remainingElements := re; jobs := [];
          inflight := [(ReqRead c, CbRead p c acc)];
          peripheral := answers cr dr dcr wr ((err, data) :: rr);
          calls := cl; invoked := inv; uncaught := unc |} =
  Some {| this := th; heap := <[p := settled_cell (Rejected err)]> h;
          remainingElements := re;
          jobs := concat (map (reaction_job (Rejected err)) R);
          inflight := []; peripheral := answers cr dr dcr wr rr;
          calls := cl; invoked := inv; uncaught := unc |}.
Proof.
  intros He Hp.
  assert (p < length h) as Hlt by (by eapply lookup_lt_Some).
  unfold step. cbn [jobs inflight peripheral answer answers readResults
                    connectResults disconnectResults discoverResults
                    writeResults].
  cbn [invoke_callback arg_err arg_data]. rewrite He.
  unfold rejectFn, lock, settle. msimpl. rewrite Hp.
  cbn [waiting_cell alreadyResolved settled reactions]. msimpl.
  rewrite list_lookup_insert_eq by done.
  cbn [alreadyResolved settled reactions]. msimpl.
  by rewrite list_insert_insert_eq.
Qed.

Lemma step_last_empty c th data p acc R h re cl inv unc cr dr dcr wr rr :
  sessionKeys th = None ->
  match data with Some d => length d = 0 | None => True end ->
  h !! p = Some (waiting_cell R) ->
  step {| this := th; heap := h; remainingElements := re; jobs := [];
          inflight := [(ReqRead c, CbRead p c acc)];
          peripheral := answers cr dr dcr wr ((VUndefined, data) :: rr);
          calls := cl; invoked := inv; uncaught := unc |} =
  Some {| this := th;
          heap := <[p := settled_cell (Fulfilled (VBuffers acc))]> h;
          remainingElements := re;
          jobs := concat (map (reaction_job (Fulfilled (VBuffers acc))) R);
          inflight := []; peripheral := answers cr dr dcr wr rr;
          calls := cl; invoked := inv; uncaught := unc |}.
Proof.
  intros Hk Hdata Hp.
  assert (p < length h) as Hlt by (by eapply lookup_lt_Some).
  unfold step. cbn [jobs inflight peripheral answer answers readResults
                    connectResults disconnectResults discoverResults
                    writeResults].
  cbn [invoke_callback arg_err arg_data truthy].
  assert (forall m, this m = th -> heap m = h ->
            finish_read p acc m =
            (Normal tt,
             set_jobs (jobs m ++ concat (map (reaction_job
                                                (Fulfilled (VBuffers acc))) R))
               (set_heap (<[p := settled_cell (Fulfilled (VBuffers acc))]> h)
                  m))) as E.
  { intros m Hth Hh. unfold finish_read, get_this. msimpl.
    rewrite Hth, Hk. msimpl.
    unfold resolveFn, lock, resolve_promise, settle. msimpl.
    rewrite Hh, Hp. cbn [waiting_cell alreadyResolved settled reactions].
    msimpl. rewrite list_lookup_insert_eq by done.
    cbn [alreadyResolved settled reactions]. msimpl.
    by rewrite list_insert_insert_eq. }
  destruct data as [d|].
  - rewrite bool_decide_eq_false_2 by lia. by rewrite E.
  - by rewrite E.
Qed.


(** ** The calls a write makes *)

Lemma perform_then_calls p r m :
  exists m', perform_then p r m = (Normal tt, m') /\ calls m' = calls m.
Proof.
  unfold perform_then. destruct (heap m !! p) as [cl|]; [|by eexists].
  destruct (settled cl); by eexists.
Qed.

Lemma then_calls p onF onR m :
  exists d m', then_ p onF onR m = (Normal d, m') /\ calls m' = calls m.
Proof.
  unfold then_. msimpl.
  destruct (perform_then_calls p
              {| onFulfilled := onF; onRejected := onR;
                 derived := length (heap m) |}
              (set_heap (heap m ++ [new_cell]) m)) as (m' & -> & Hc).
  by eexists _, _.
Qed.

Lemma settle_calls p st m : calls (settle p st m).2 = calls m.
Proof.
  unfold settle. destruct (heap m !! p) as [cl|]; [|done].
  by destruct (settled cl).
Qed.

Lemma all_elements_calls all promises m :
  exists m', all_elements all promises m = (Normal tt, m')
             /\ calls m' = calls m.
Proof.
  revert m. induction promises as [|p ps IH]; intros m; [by eexists|].
  cbn [all_elements]. msimpl.
  destruct (then_calls p (Some (HAllResolveElement all)) (Some (HReject all)) m)
    as (d & m1 & -> & Hc1).
  destruct (IH m1) as (m2 & -> & Hc2). exists m2. split; [done|congruence].
Qed.

Lemma Promise_all_calls promises m :
  exists all m', Promise_all promises m = (Normal all, m')
                 /\ calls m' = calls m.
Proof.
  unfold Promise_all. msimpl.
  destruct (all_elements_calls (length (heap m)) promises
              (set_remainingElements
                 ((length (heap m), (length promises, length promises))
                    :: remainingElements m)
                 (set_heap (heap m ++ [new_cell]) m))) as (m1 & -> & Hc1).
  destruct (decide (length promises = 0)).
  - rewrite settle_normal. eexists _, _. split; [done|].
    cbn [snd]. rewrite settle_calls. exact Hc1.
  - by eexists _, _.
Qed.

Lemma write_each_calls c pdus m :
  exists promises m',
    write_each c pdus m = (Normal promises, m')
    /\ calls m' = calls m ++ ((fun pdu => ReqWrite c pdu false) <$> pdus)
    /\ this m' = this m.
Proof.
  revert m. induction pdus as [|pdu pdus IH]; intros m.
  - eexists _, _. split; [done|]. by rewrite app_nil_r.
  - cbn [write_each]. msimpl.
    destruct (IH (set_inflight
                    (inflight m ++ [(ReqWrite c pdu false,
                                     CbWrite (length (heap m)))])
                    (set_calls (calls m ++ [ReqWrite c pdu false])
                       (set_heap (heap m ++ [new_cell]) m))))
      as (ps & m' & -> & Hc & Ht).
    eexists _, _. split; [done|]. rewrite Hc. cbn [calls set_inflight set_calls].
    by rewrite <- app_assoc.
Qed.

(** Without session keys an invocation of the write closure makes one
    write per PDU, of the whole PDU. *)
Lemma write_op_calls c pdus m :
  sessionKeys (this m) = None ->
  exists r m',
    run_op (OpWrite c pdus) m = (Normal r, m')
    /\ calls m' = calls m ++ ((fun pdu => ReqWrite c pdu false) <$> pdus).
Proof.
  intros Hk. cbn [run_op]. unfold get_this. msimpl. rewrite Hk. msimpl.
  destruct (write_each_calls c pdus m) as (ps & m1 & -> & Hc1 & _).
  destruct (Promise_all_calls ps m1) as (all & m2 & -> & Hc2).
  destruct (then_calls all (Some (HDrain c)) None m2) as (d & m3 & -> & Hc3).
  eexists _, _. split; [done|]. congruence.
Qed.


(** ** What [_queueOperation] leaves on the chain *)

Lemma then_waiting p onF onR m c :
  heap m !! p = Some c -> settled c = Pending ->
  then_ p onF onR m =
  (Normal (length (heap m)),
   set_heap (<[p := {| settled := Pending;
                       alreadyResolved := alreadyResolved c;
                       reactions := reactions c ++
                         [{| onFulfilled := onF; onRejected := onR;
                             derived := length (heap m) |}] |}]> (heap m)
             ++ [new_cell]) m).
Proof.
  intros Hp Hs.
  assert (p < length (heap m)) as Hlt by (by eapply lookup_lt_Some).
  unfold then_, perform_then. msimpl.
  rewrite lookup_app_l, Hp, Hs by done. msimpl.
  by rewrite insert_app_l by done.
Qed.

Lemma then_settled p onF onR m c :
  heap m !! p = Some c -> settled c <> Pending ->
  then_ p onF onR m =
  (Normal (length (heap m)),
   set_jobs (jobs m ++ reaction_job (settled c)
                         {| onFulfilled := onF; onRejected := onR;
                            derived := length (heap m) |})
     (set_heap (heap m ++ [new_cell]) m)).
Proof.
  intros Hp Hs.
  assert (p < length (heap m)) as Hlt by (by eapply lookup_lt_Some).
  unfold then_, perform_then. msimpl.
  rewrite lookup_app_l, Hp by done.
  by destruct (settled c).
Qed.

Lemma _queueOperation_reactions (op : operation) (m : machine) (cur : cell) :
  heap m !! currentOperation (this m) = Some cur ->
  let p1 := length (heap m) in
  let p2 := S (length (heap m)) in
  exists m',
    _queueOperation op m = (Normal p2, m')
    /\ currentOperation (this m') = p2
    /\ heap m' !! p1 = Some (waiting_cell [catch_op op p2])
    /\ heap m' !! p2 = Some new_cell
    /\ invoked m' = invoked m
    /\ match settled cur with
       | Pending =>
         jobs m' = jobs m
         /\ heap m' !! currentOperation (this m)
            = Some {| settled := Pending;
                      alreadyResolved := alreadyResolved cur;
                      reactions := reactions cur ++ [then_op op p1] |}
       | Fulfilled v =>
         jobs m' = jobs m ++ [JReaction (Some (HOp op)) false v p1]
       | Rejected e =>
         jobs m' = jobs m ++ [JReaction None true e p1]
       end.
Proof.
  intros Hcur p1 p2.
  assert (currentOperation (this m) < length (heap m)) as Hlt
    by (by eapply lookup_lt_Some).
  assert (length (heap m) + 1 = p2) as Hp2 by (subst p2; lia).
  assert (p2 - length (heap m) = 1) as Hp2' by (subst p2; lia).
  unfold _queueOperation, catch_, get_this. msimpl.
  destruct (settled cur) as [|v|e] eqn:Hs.
  - rewrite (then_waiting _ _ _ _ cur) by done.
    erewrite then_waiting; [|cbn [heap set_heap]; apply list_lookup_middle;
                             by rewrite length_insert|done].
    mnorm. cbn [this currentOperation set_currentOperation].
    rewrite length_app, length_insert. cbn [length]. rewrite Hp2.
    eexists. split; [reflexivity|].
    cbn [this heap jobs invoked currentOperation].
    set (cur' := {| settled := Pending;
                    alreadyResolved := alreadyResolved cur;
                    reactions := reactions cur ++ _ |}).
    assert (length (<[currentOperation (this m) := cur']> (heap m))
            = length (heap m)) as Hlen by apply length_insert.
    rewrite insert_app_r_alt by lia. rewrite Hlen, Nat.sub_diag.
    cbn [insert list_insert]. rewrite <- app_assoc. cbn [app].
    split; [done|]. split.
    { rewrite lookup_app_r by lia. by rewrite Hlen, Nat.sub_diag. }
    split.
    { rewrite lookup_app_r by lia. by rewrite Hlen, Hp2'. }
    split; [done|]. split; [done|].
    rewrite lookup_app_l by lia. by apply list_lookup_insert_eq.
  - rewrite (then_settled _ _ _ _ cur) by (by rewrite ?Hs).
    erewrite then_waiting; [|cbn [heap set_heap set_jobs];
                             by apply list_lookup_middle|done].
    rewrite Hs. mnorm.
    cbn [this currentOperation set_currentOperation reaction_job
         onFulfilled derived].
    rewrite length_app. cbn [length]. rewrite Hp2.
    eexists. split; [reflexivity|].
    cbn [this heap jobs invoked currentOperation].
    rewrite insert_app_r_alt by lia. rewrite Nat.sub_diag.
    cbn [insert list_insert]. rewrite <- app_assoc. cbn [app].
    split; [done|]. split.
    { rewrite lookup_app_r by lia. by rewrite Nat.sub_diag. }
    split; [|done].
    rewrite lookup_app_r by lia. by rewrite Hp2'.
  - rewrite (then_settled _ _ _ _ cur) by (by rewrite ?Hs).
    erewrite then_waiting; [|cbn [heap set_heap set_jobs];
                             by apply list_lookup_middle|done].
    rewrite Hs. mnorm.
    cbn [this currentOperation set_currentOperation reaction_job
         onRejected derived].
    rewrite length_app. cbn [length]. rewrite Hp2.
    eexists. split; [reflexivity|].
    cbn [this heap jobs invoked currentOperation].
    rewrite insert_app_r_alt by lia. rewrite Nat.sub_diag.
    cbn [insert list_insert]. rewrite <- app_assoc. cbn [app].
    split; [done|]. split.
    { rewrite lookup_app_r by lia. by rewrite Nat.sub_diag. }
    split; [|done].
    rewrite lookup_app_r by lia. by rewrite Hp2'.
Qed.

End Loop.

(** Cases on an error value known to be truthy. *)
Ltac truthy_cases H :=
  apply truthy_cases in H;
  destruct H as [(? & ? & ->)|[(? & ->)|[(? & ->)|[(? & ->)|(? & ->)]]]].

Section ReadSteps.
Context `{Sodium}.

(** A rejection passing through a promise that has no handler for it. *)
Lemma step_pass_rejection p e b R js th h re infl per cl inv unc :
  h !! p = Some {| settled := Pending; alreadyResolved := b; reactions := R |} ->
  step {| this := th; heap := h; remainingElements := re;
          jobs := JReaction None true e p :: js;
          inflight := infl; peripheral := per;
          calls := cl; invoked := inv; uncaught := unc |} =
  Some {| this := th;
          heap := <[p := {| settled := Rejected e; alreadyResolved := b;
                            reactions := [] |}]> h;
          remainingElements := re;
          jobs := js ++ concat (map (reaction_job (Rejected e)) R);
          inflight := infl; peripheral := per;
          calls := cl; invoked := inv; uncaught := unc |}.
Proof.
  intros Hp. unfold step. cbn [jobs run_job]. unfold settle. msimpl.
  rewrite Hp. by cbn [settled alreadyResolved reactions].
Qed.

(** A run of the read closure: the read is started and the promise of the
    job is resolved with the promise of the read. *)
Lemma step_invoke_read c rejected arg d js th h re infl per cl inv unc :
  d < length h ->
  step {| this := th; heap := h; remainingElements := re;
          jobs := JReaction (Some (HOp (OpRead c))) rejected arg d :: js;
          inflight := infl; peripheral := per;
          calls := cl; invoked := inv; uncaught := unc |} =
  Some {| this := th; heap := h ++ [new_cell];
          remainingElements := re;
          jobs := js ++ [JThenable d (length h)];
          inflight := infl ++ [(ReqRead c, CbRead (length h) c [])];
          peripheral := per;
          calls := cl ++ [ReqRead c]; invoked := inv ++ [OpRead c];
          uncaught := unc |}.
Proof.
  intros Hd. unfold step. cbn [jobs run_job call_handler run_op].
  unfold _readCharacteristicInner, resolve_promise. msimpl.
  rewrite decide_False by lia. by msimpl.
Qed.


Lemma lookup_app_plus {A} (l k : list A) i : (l ++ k) !! (length l + i) = k !! i.
Proof. rewrite lookup_app_r by lia. f_equal. lia. Qed.

End ReadSteps.

Ltac hnorm :=
  repeat first
    [ rewrite length_app
    | rewrite <- app_assoc
    | rewrite insert_app_r
    | rewrite lookup_app_plus
    | rewrite <- Nat.add_assoc
    | progress cbn [length app insert list_insert lookup list_lookup
                    Nat.add] ].

Section ReadAtRest.
Context `{Sodium}.

(** A read queued at rest behind a chain that was rejected: the closure
    is run once, and when its read fails the rejection is the caller's. *)
Lemma read_behind_failure c e0 e d rest m :
  jobs m = [] -> inflight m = [] ->
  promise_state (currentOperation (this m)) m = Some (Rejected e0) ->
  truthy e = true ->
  readResults (peripheral m) = (e, d) :: rest ->
  let start := readCharacteristic c m in
  exists p,
    start.1 = Normal p
    /\ forall n, 5 <= n ->
       let m' := run n start.2 in
       quiescent m'
       /\ jobs m' = [] /\ inflight m' = []
       /\ currentOperation (this m') = p
       /\ promise_state p m' = Some (Rejected e)
       /\ invoked m' = invoked m ++ [OpRead c]
       /\ calls m' = calls m ++ [ReqRead c]
       /\ readResults (peripheral m') = rest.
Proof.
  intros Hj Hi Hcur He Hr start. subst start.
  destruct m as [th h re js infl [cr dr dcr wr rr] cl inv unc].
  unfold promise_state in Hcur.
  cbn [jobs inflight heap this peripheral readResults calls invoked]
    in Hj, Hi, Hcur, Hr |- *.
  subst js infl rr.
  destruct (h !! currentOperation th) as [cur|] eqn:Hcell; [|done].
  injection Hcur as Hs.
  assert (currentOperation th < length h) as Hlt by (by eapply lookup_lt_Some).
  unfold readCharacteristic, _queueOperation, catch_, get_this. msimpl.
  replace h with (h ++ []) by apply app_nil_r.
  rewrite (then_settled _ _ _ _ cur);
    [|cbn [heap]; by rewrite lookup_app_l by done|by rewrite Hs].
  rewrite Hs. cbn [reaction_job onRejected derived]. mnorm.
  erewrite then_waiting; [|cbn [heap]; hnorm; reflexivity|done].
  mnorm. hnorm. cbn [alreadyResolved reactions new_cell fst snd].
  eexists. split; [reflexivity|]. intros n Hn.
  match goal with |- context [run n ?s] => assert (run 5 s
          = {| this := set_currentOperation (length h + 1) th;
               heap := h ++ [{| settled := Rejected e0;
                                alreadyResolved := false; reactions := [] |};
                             {| settled := Rejected e;
                                alreadyResolved := false; reactions := [] |};
                             settled_cell (Rejected e);
                             {| settled := Fulfilled VUndefined;
                                alreadyResolved := false; reactions := [] |}];
               remainingElements := re; jobs := []; inflight := [];
               peripheral := answers cr dr dcr wr rest;
               calls := cl ++ [ReqRead c]; invoked := inv ++ [OpRead c];
               uncaught := unc |}) as E end.
  { erewrite run_step by (apply step_pass_rejection; hnorm; reflexivity).
    hnorm. cbn [map concat reaction_job onRejected derived].
    erewrite run_step by (apply step_invoke_read; hnorm; lia).
    hnorm.
    erewrite run_step by (apply step_thenable; hnorm; reflexivity).
    hnorm.
    erewrite run_step by (by apply step_last_error; [|hnorm; reflexivity]).
    hnorm. cbn [map concat].
    erewrite run_step.
    2:{ apply (step_adopted _ _ _ []);
          [done|hnorm; reflexivity|hnorm; reflexivity|lia]. }
    hnorm. by cbn [map concat run]. }
  rewrite (run_rest 5); [|by rewrite E|exact Hn].
  rewrite E. unfold promise_state.
  cbn [jobs inflight heap this peripheral readResults calls invoked
       currentOperation set_currentOperation answers].
  hnorm. by repeat split.
Qed.

(** A read queued at rest behind a chain that was fulfilled: when the
    read fails the closure is run a second time, and the second failure
    is the caller's. *)
Lemma read_behind_success c v0 e1 d1 e2 d2 rest m :
  jobs m = [] -> inflight m = [] ->
  promise_state (currentOperation (this m)) m = Some (Fulfilled v0) ->
  truthy e1 = true -> truthy e2 = true ->
  readResults (peripheral m) = (e1, d1) :: (e2, d2) :: rest ->
  let start := readCharacteristic c m in
  exists p,
    start.1 = Normal p
    /\ forall n, 8 <= n ->
       let m' := run n start.2 in
       quiescent m'
       /\ jobs m' = [] /\ inflight m' = []
       /\ currentOperation (this m') = p
       /\ promise_state p m' = Some (Rejected e2)
       /\ invoked m' = invoked m ++ [OpRead c; OpRead c]
       /\ calls m' = calls m ++ [ReqRead c; ReqRead c]
       /\ readResults (peripheral m') = rest.
Proof.
  intros Hj Hi Hcur He1 He2 Hr start. subst start.
  destruct m as [th h re js infl [cr dr dcr wr rr] cl inv unc].
  unfold promise_state in Hcur.
  cbn [jobs inflight heap this peripheral readResults calls invoked]
    in Hj, Hi, Hcur, Hr |- *.
  subst js infl rr.
  destruct (h !! currentOperation th) as [cur|] eqn:Hcell; [|done].
  injection Hcur as Hs.
  assert (currentOperation th < length h) as Hlt by (by eapply lookup_lt_Some).
  unfold readCharacteristic, _queueOperation, catch_, get_this. msimpl.
  replace h with (h ++ []) by apply app_nil_r.
  rewrite (then_settled _ _ _ _ cur);
    [|cbn [heap]; by rewrite lookup_app_l by done|by rewrite Hs].
  rewrite Hs. cbn [reaction_job onFulfilled derived]. mnorm.
  erewrite then_waiting; [|cbn [heap]; hnorm; reflexivity|done].
  mnorm. hnorm. cbn [alreadyResolved reactions new_cell fst snd].
  eexists. split; [reflexivity|]. intros n Hn.
  match goal with |- context [run n ?s] => assert (run 8 s
          = {| this := set_currentOperation (length h + 1) th;
               heap := h ++ [{| settled := Rejected e1;
                                alreadyResolved := false; reactions := [] |};
                             {| settled := Rejected e2;
                                alreadyResolved := false; reactions := [] |};
                             settled_cell (Rejected e1);
                             {| settled := Fulfilled VUndefined;
                                alreadyResolved := false; reactions := [] |};
                             settled_cell (Rejected e2);
                             {| settled := Fulfilled VUndefined;
                                alreadyResolved := false; reactions := [] |}];
               remainingElements := re; jobs := []; inflight := [];
               peripheral := answers cr dr dcr wr rest;
               calls := cl ++ [ReqRead c; ReqRead c];
               invoked := inv ++ [OpRead c; OpRead c];
               uncaught := unc |}) as E end.
  { erewrite run_step by (apply step_invoke_read; hnorm; lia).
    hnorm.
    erewrite run_step by (apply step_thenable; hnorm; reflexivity).
    hnorm.
    erewrite run_step by (by apply step_last_error; [|hnorm; reflexivity]).
    hnorm. cbn [map concat app].
    erewrite run_step.
    2:{ apply step_adopted;
          [done|hnorm; reflexivity|hnorm; reflexivity|lia]. }
    hnorm. cbn [map concat reaction_job onRejected derived].
    erewrite run_step by (apply step_invoke_read; hnorm; lia).
    hnorm.
    erewrite run_step by (apply step_thenable; hnorm; reflexivity).
    hnorm.
    erewrite run_step by (by apply step_last_error; [|hnorm; reflexivity]).
    hnorm. cbn [map concat app].
    erewrite run_step.
    2:{ apply step_adopted;
          [done|hnorm; reflexivity|hnorm; reflexivity|lia]. }
    hnorm. by cbn [map concat run]. }
  rewrite (run_rest 8); [|by rewrite E|exact Hn].
  rewrite E. unfold promise_state.
  cbn [jobs inflight heap this peripheral readResults calls invoked
       currentOperation set_currentOperation answers].
  hnorm. by repeat split.
Qed.
End ReadAtRest.


Lemma toy_sodium_correct : @SodiumCorrect toy_sodium.
Proof.
  intros m n k. cbn.
  assert (length (toy_tag n k) = 16) as Htag.
  { unfold toy_tag. rewrite length_take, !length_app, length_replicate. lia. }
  rewrite length_app, Htag.
  replace (length m + 16 - 16) with (length m) by lia.
  rewrite drop_app_length, take_app_length.
  by destruct (decide (toy_tag n k = toy_tag n k)).
Qed.

Section CodecClaims.
Context `{Sodium}.

(** C6 — Fragmentation in [_encryptPdus]: the frames written for a PDU are
    its chunks sealed in order; no chunk is longer than 496 bytes and the
    chunks, joined, are the PDU; a PDU of 496 bytes gives one frame and a
    PDU of 497 bytes gives two, of 496 bytes and of 1 byte. *)
Theorem encrypt_fragmentation (pdu : Buffer) (this : GattConnection)
    (keys : SessionKeys) :
  let key := ControllerToAccessoryKey keys in
  let k := c2aCounter this in
  sessionKeys this = Some keys ->
  (k + N.of_nat (length (fragment pdu)) <= 4294967296)%N ->
  (exists chunks,
      _encryptPdus [pdu] this =
        (Normal (seal_frames key k chunks),
         set_c2aCounter (k + N.of_nat (length chunks)) this)
      /\ Forall (fun chunk => length chunk <= 496) chunks
      /\ concat chunks = pdu)
  /\ (length pdu = 496 ->
      (_encryptPdus [pdu] this).1 =
        Normal [crypto_aead_chacha20poly1305_ietf_encrypt pdu (nonce_of k) key])
  /\ (length pdu = 497 ->
      (_encryptPdus [pdu] this).1 =
        Normal [crypto_aead_chacha20poly1305_ietf_encrypt
                  (take 496 pdu) (nonce_of k) key;
                crypto_aead_chacha20poly1305_ietf_encrypt
                  (drop 496 pdu) (nonce_of (k + 1)) key]
      /\ length (take 496 pdu) = 496 /\ length (drop 496 pdu) = 1).
Proof.
  intros key k Hk Hc.
  assert (_encryptPdus [pdu] this =
          (Normal (seal_frames key k (fragment pdu)),
           set_c2aCounter (k + N.of_nat (length (fragment pdu))) this)) as E.
  { rewrite (_encryptPdus_seal _ _ keys Hk); cbn [fmap list_fmap concat];
      rewrite app_nil_r; [done|lia]. }
  split; [|split].
  - exists (fragment pdu). split; [done|]. split; [|apply concat_fragment].
    eapply Forall_impl; [apply Forall_fragment|]. simpl. lia.
  - intros Hlen. rewrite E. by rewrite fragment_small by lia.
  - intros Hlen. rewrite E. rewrite fragment_large by lia.
    rewrite (fragment_small (drop 496 pdu)) by (rewrite length_drop; lia).
    rewrite length_take, length_drop. split; [done|lia].
Qed.

(** C4 — A frame that fails to decrypt is dropped without an error.  The
    result holds, in the order received, the plaintext of each frame
    before it and of each frame after it that decrypts under the nonce of
    its own counter value, and nothing else: when all of them decrypt, the
    result is their plaintexts, and the chunks the peer sealed come back
    whole around a foreign frame.  [a2cCounter] moves on by one for the
    failed frame as for any frame. *)
Theorem decrypt_failure_dropped (before after : list Buffer) (bad : Buffer)
    (this : GattConnection) :
  let k := a2cCounter this in
  let n := N.of_nat (length before) in
  let decrypted (j : N) (frames : list Buffer) : list (option Buffer) :=
    imap (fun i frame =>
            decrypt_frame frame (nonce_of (j + N.of_nat i)) this) frames in
  (k + N.of_nat (length (before ++ bad :: after)) <= 4294967296)%N ->
  decrypt_frame bad (nonce_of (k + n)) this = None ->
  _decryptPdus (before ++ bad :: after) this =
    (Normal (omap id (decrypted k before)
               ++ omap id (decrypted (k + n + 1)%N after)),
     set_a2cCounter (k + n + 1 + N.of_nat (length after)) this)
  /\ (forall plain1 plain2,
        decrypted k before = Some <$> plain1 ->
        decrypted (k + n + 1)%N after = Some <$> plain2 ->
        (_decryptPdus (before ++ bad :: after) this).1
        = Normal (plain1 ++ plain2))
  /\ (SodiumCorrect ->
      forall keys chunks1 chunks2,
        sessionKeys this = Some keys ->
        before = seal_frames (AccessoryToControllerKey keys) k chunks1 ->
        after = seal_frames (AccessoryToControllerKey keys) (k + n + 1)%N
                  chunks2 ->
        (_decryptPdus (before ++ bad :: after) this).1
        = Normal (chunks1 ++ chunks2))
  /\ _decryptPdus before this =
       (Normal (omap id (decrypted k before)), set_a2cCounter (k + n) this)
  /\ _decryptPdus after (set_a2cCounter (k + n + 1) this) =
       (Normal (omap id (decrypted (k + n + 1)%N after)),
        set_a2cCounter (k + n + 1 + N.of_nat (length after)) this)
  /\ forall frame,
       (_decryptPdus (before ++ [frame]) this).2 =
       set_a2cCounter (k + n + 1) this.
Proof.
  intros k n decrypted Hc Hbad. rewrite length_app in Hc. cbn [length] in Hc.
  assert (forall j frames, omap id (decrypted j frames)
                           = open_frames this j frames) as Hopen.
  { intros j frames. subst decrypted. cbn beta. by rewrite unseal_imap. }
  assert (_decryptPdus (before ++ bad :: after) this =
          (Normal (open_frames this k before
                     ++ open_frames this (k + n + 1) after),
           set_a2cCounter (k + n + 1 + N.of_nat (length after)) this)) as E.
  { rewrite _decryptPdus_unseal by (rewrite length_app; cbn [length]; lia).
    rewrite unseal_app. cbn [open_frames]. fold k n. rewrite Hbad.
    rewrite length_app. cbn [length]. do 2 f_equal. lia. }
  split; [by rewrite !Hopen|].
  split.
  { intros plain1 plain2 H1 H2. rewrite E. cbn [fst].
    rewrite <- !Hopen, H1, H2. by rewrite !omap_Some_id. }
  split.
  { intros Hlaw keys chunks1 chunks2 Hk -> ->. rewrite E. cbn [fst].
    by rewrite !(unseal_seal _ keys). }
  split; [by rewrite Hopen, _decryptPdus_unseal by lia|].
  split.
  { rewrite Hopen.
    rewrite _decryptPdus_unseal by (cbn [a2cCounter set_a2cCounter]; lia).
    by rewrite unseal_set_a2cCounter, set_a2cCounter_twice. }
  intros frame.
  rewrite _decryptPdus_unseal by (rewrite length_app; cbn [length]; lia).
  rewrite length_app. cbn [length snd]. f_equal. lia.
Qed.

(** C5 — Nonces: a nonce is 12 bytes, zero but for the counter written
    little-endian in bytes 4 to 7; the frames of one direction use the
    counter values k, k+1, ..., k+N-1, each once; and a direction's
    counter is neither read nor written by the other direction. *)
Theorem nonce_counters (pdus inbound : list Buffer) (this : GattConnection)
    (keys : SessionKeys) :
  let chunks := concat (fragment <$> pdus) in
  let k := c2aCounter this in
  let j := a2cCounter this in
  sessionKeys this = Some keys ->
  (k + N.of_nat (length chunks) <= 4294967296)%N ->
  (j + N.of_nat (length inbound) <= 4294967296)%N ->
  (forall c, (c <= 4294967295)%N ->
     writeUInt32LE (Buffer_alloc 12) c 4 = Normal (nonce_of c)
     /\ length (nonce_of c) = 12
     /\ exists b0 b1 b2 b3,
          nonce_of c = [x00; x00; x00; x00; b0; b1; b2; b3;
                        x00; x00; x00; x00]
          /\ LE_value [b0; b1; b2; b3] = c)
  /\ (exists frames,
        _encryptPdus pdus this =
          (Normal frames,
           set_c2aCounter (k + N.of_nat (length chunks)) this)
        /\ length frames = length chunks
        /\ forall i chunk, chunks !! i = Some chunk ->
             frames !! i =
             Some (crypto_aead_chacha20poly1305_ietf_encrypt chunk
                     (nonce_of (k + N.of_nat i))
                     (ControllerToAccessoryKey keys)))
  /\ _decryptPdus inbound this =
       (Normal (omap id
                  (imap (fun i frame =>
                           crypto_aead_chacha20poly1305_ietf_decrypt frame
                             (nonce_of (j + N.of_nat i))
                             (AccessoryToControllerKey keys)) inbound)),
        set_a2cCounter (j + N.of_nat (length inbound)) this)
  /\ (forall a b, a < length chunks -> b < length chunks ->
        nonce_of (k + N.of_nat a) = nonce_of (k + N.of_nat b) -> a = b)
  /\ (forall a b, a < length inbound -> b < length inbound ->
        nonce_of (j + N.of_nat a) = nonce_of (j + N.of_nat b) -> a = b)
  /\ (forall x, (_encryptPdus pdus (set_a2cCounter x this)).1 =
                (_encryptPdus pdus this).1)
  /\ (forall x, (_decryptPdus inbound (set_c2aCounter x this)).1 =
                (_decryptPdus inbound this).1).
Proof.
  intros chunks k j Hk Hc Hj.
  split; [|split; [|split; [|split; [|split; [|split]]]]].
  - intros c Hr. split; [by apply writeUInt32LE_nonce|]. split; [done|].
    exists (byte_of_N c), (byte_of_N (N.shiftr c 8)),
      (byte_of_N (N.shiftr c 16)), (byte_of_N (N.shiftr c 24)).
    split; [done|]. by apply LE_value_UInt32LE.
  - eexists. split; [by apply (_encryptPdus_seal _ _ keys)|].
    split; [apply length_seal|].
    intros i chunk Hi. rewrite lookup_seal. fold chunks. by rewrite Hi.
  - rewrite _decryptPdus_unseal by done. rewrite unseal_imap.
    unfold decrypt_frame. by rewrite Hk.
  - intros a b Ha Hb E. apply nonce_of_inj in E; lia.
  - intros a b Ha Hb E. apply nonce_of_inj in E; lia.
  - intros x. by rewrite !(_encryptPdus_seal _ _ keys).
  - intros x. rewrite !_decryptPdus_unseal by done. cbn [fst].
    f_equal. rewrite !unseal_imap. done.
Qed.

(** C7 — Round trip: the frames [_encryptPdus] makes of a PDU, given to
    [_decryptPdus] under the same key and with the inbound counter where
    the outbound counter was, come back as the chunks of the PDU, which
    joined are the PDU. *)
Theorem encrypt_decrypt_roundtrip `{!SodiumCorrect} (P : Buffer)
    (sender receiver : GattConnection) (ks kr : SessionKeys) :
  sessionKeys sender = Some ks ->
  sessionKeys receiver = Some kr ->
  ControllerToAccessoryKey ks = AccessoryToControllerKey kr ->
  c2aCounter sender = a2cCounter receiver ->
  (c2aCounter sender + N.of_nat (length (fragment P)) <= 4294967296)%N ->
  exists frames sender' receiver',
    _encryptPdus [P] sender = (Normal frames, sender')
    /\ length frames = length (fragment P)
    /\ _decryptPdus frames receiver = (Normal (fragment P), receiver')
    /\ concat (fragment P) = P
    /\ c2aCounter sender' = a2cCounter receiver'.
Proof.
  intros Hs Hr Hkey Hctr Hc.
  eexists _, _, _. split.
  { rewrite (_encryptPdus_seal _ _ ks Hs); cbn [fmap list_fmap concat];
      rewrite app_nil_r; [done|lia]. }
  split; [apply length_seal|].
  split; [|split; [apply concat_fragment|]].
  - rewrite _decryptPdus_unseal by (rewrite length_seal; lia).
    rewrite Hkey, Hctr, (unseal_seal _ kr) by done.
    by rewrite length_seal.
  - cbn [c2aCounter a2cCounter set_c2aCounter set_a2cCounter].
    rewrite ?length_seal. lia.
Qed.

End CodecClaims.

Lemma encrypt_fragmentation_witness :
  sessionKeys (keyed 0 0) = Some toy_keys
  /\ (0 + N.of_nat (length (fragment (replicate 497 x07))) <= 4294967296)%N
  /\ map length
       (match (@_encryptPdus toy_sodium [replicate 497 x07] (keyed 0 0)).1 with
        | Normal frames => frames
        | Throw _ => []
        end) = [496 + 16; 1 + 16].
Proof.
  split; [reflexivity|]. split; [by vm_compute|].
  destruct (@encrypt_fragmentation toy_sodium (replicate 497 x07)
              (keyed 0 0) toy_keys eq_refl) as (_ & _ & E).
  - by vm_compute.
  - destruct (E eq_refl) as (-> & _). by vm_compute.
Defined.

Lemma decrypt_failure_dropped_witness :
  let good1 := [x01] ++ toy_tag (nonce_of 5) (replicate 32 x01) in
  let bad := [x02] ++ toy_tag (nonce_of 0) (replicate 32 x01) in
  let good2 := [x03] ++ toy_tag (nonce_of 7) (replicate 32 x01) in
  @_decryptPdus toy_sodium [good1; bad; good2] (keyed 0 5) =
  (Normal [[x01]; [x03]], keyed 0 8).
Proof.
  intros good1 bad good2.
  destruct (@decrypt_failure_dropped toy_sodium [good1] [good2] bad
              (keyed 0 5)) as (E & _).
  - by vm_compute.
  - by vm_compute.
  - cbn [app] in E. rewrite E. by vm_compute.
Defined.

Lemma nonce_counters_witness :
  nonce_of 258 = [x00; x00; x00; x00; x02; x01; x00; x00;
                  x00; x00; x00; x00]
  /\ c2aCounter
       (@_encryptPdus toy_sodium [replicate 10 x00; replicate 20 x00]
          (keyed 0 0)).2 = 2%N.
Proof.
  destruct (@nonce_counters toy_sodium [replicate 10 x00; replicate 20 x00]
              [] (keyed 0 0) toy_keys eq_refl)
    as (_ & (frames & E & _) & _).
  - by vm_compute.
  - by vm_compute.
  - split; [reflexivity|]. rewrite E. reflexivity.
Defined.

Lemma encrypt_decrypt_roundtrip_witness :
  exists frames sender' receiver',
    @_encryptPdus toy_sodium [replicate 600 x09] (keyed 3 0)
      = (Normal frames, sender')
    /\ length frames = length (fragment (replicate 600 x09))
    /\ @_decryptPdus toy_sodium frames (keyed 0 3)
       = (Normal (fragment (replicate 600 x09)), receiver')
    /\ concat (fragment (replicate 600 x09)) = replicate 600 x09
    /\ c2aCounter sender' = a2cCounter receiver'.
Proof.
  apply (@encrypt_decrypt_roundtrip toy_sodium toy_sodium_correct
           (replicate 600 x09) (keyed 3 0) (keyed 0 3) toy_keys toy_keys);
    try reflexivity.
  by vm_compute.
Defined.

(** * The connection state machine, the sequencer and the transactions *)

Section Claims.
Context `{Sodium}.

(** C9 — [connect()] on a CONNECTED connection returns a promise that is
    already fulfilled and does nothing else: no call on the peripheral,
    no job, no change of state; so does a second [connect()] after it. *)
Theorem connect_when_connected (m : machine) :
  state (this m) = CONNECTED ->
  let first := connect m in
  let second := connect first.2 in
  exists p1 p2,
    first.1 = Normal p1 /\ second.1 = Normal p2
    /\ promise_state p1 first.2 = Some (Fulfilled VUndefined)
    /\ promise_state p2 second.2 = Some (Fulfilled VUndefined)
    /\ calls first.2 = calls m /\ calls second.2 = calls m
    /\ inflight first.2 = inflight m /\ inflight second.2 = inflight m
    /\ jobs first.2 = jobs m /\ jobs second.2 = jobs m
    /\ this first.2 = this m /\ this second.2 = this m
    /\ peripheral second.2 = peripheral m.
Proof.
  intros Hs first second.
  assert (forall m', state (this m') = CONNECTED ->
            connect m' =
            (Normal (length (heap m')),
             set_heap (heap m' ++ [{| settled := Fulfilled VUndefined;
                                      alreadyResolved := true;
                                      reactions := [] |}]) m')) as E.
  { intros m' Hm'. unfold connect, mbind, M_bind, get_this.
    by rewrite Hm'. }
  subst second first. rewrite (E m Hs). cbn [fst snd].
  rewrite E by done. cbn [fst snd].
  eexists _, _. split; [done|]. split; [done|].
  unfold promise_state. cbn [heap set_heap].
  split; [by rewrite list_lookup_middle|].
  split; [by rewrite list_lookup_middle|]. done.
Qed.

(** C1 — [findAndWriteCharacteristic] when the peripheral connects and
    discovery finds a service and a characteristic: the machine comes to
    rest with the returned promise still pending and with no write made on
    the characteristic.  The promise of line 125 is never resolved, and the
    [writeCharacteristic] of line 140 waits in the queue behind the very
    operation that made it. *)
Theorem findAndWrite_never_settles (serviceUuid characteristicUuid : string)
    (pdus : list Buffer) (service : Service) (services : list Service)
    (characteristic : Characteristic) (characteristics : list Characteristic)
    (connects disconnects : list value)
    (discovers : list (value * list Service * list Characteristic))
    (writes : list value) (reads : list (value * option Buffer)) :
  let per :=
    answers (VUndefined :: connects) disconnects
      ((VUndefined, service :: services, characteristic :: characteristics)
         :: discovers)
      writes reads in
  let start :=
    findAndWriteCharacteristic serviceUuid characteristicUuid pdus
      (new_GattConnection per) in
  exists p,
    start.1 = Normal p
    /\ forall n, 9 <= n ->
       let m := run n start.2 in
       quiescent m
       /\ promise_state p m = Some Pending
       /\ state (this m) = CONNECTED
       /\ calls m = [ReqConnect; ReqDiscover [serviceUuid] [characteristicUuid]]
       /\ invoked m = [OpFindAndWrite serviceUuid characteristicUuid pdus]
       /\ writeResults (peripheral m) = writes
       /\ readResults (peripheral m) = reads.
Proof.
  intros per start. exists 2. split; [reflexivity|].
  intros n Hn m. subst m.
  rewrite (run_rest 9); [|vm_compute; reflexivity|exact Hn].
  vm_compute. repeat split.
Qed.

(** C3, as the code has it — Without session keys nothing is fragmented:
    a run of the write closure makes one write per PDU, of the whole PDU.
    On a new connection, [writeCharacteristic] of one PDU makes a single
    write, of that PDU, then reads until an empty read and fulfils its
    promise with the frames read, as they came. *)
Theorem plaintext_write_whole (c : Characteristic) (pdu : Buffer)
    (frames : list Buffer) (ending : option Buffer)
    (connects disconnects : list value)
    (discovers : list (value * list Service * list Characteristic))
    (writes : list value) (reads : list (value * option Buffer)) :
  Forall (fun d => 0 < length d) frames ->
  match ending with Some d => length d = 0 | None => True end ->
  let per :=
    answers connects disconnects discovers (VUndefined :: writes)
      (ok_reads frames ++ (VUndefined, ending) :: reads) in
  let start := writeCharacteristic c [pdu] (new_GattConnection per) in
  (forall pdus m,
     sessionKeys (this m) = None ->
     exists r m',
       run_op (OpWrite c pdus) m = (Normal r, m')
       /\ calls m' = calls m ++ ((fun pdu => ReqWrite c pdu false) <$> pdus))
  /\ exists p k,
    start.1 = Normal p
    /\ forall n, k <= n ->
       let m := run n start.2 in
       quiescent m
       /\ promise_state p m = Some (Fulfilled (VBuffers frames))
       /\ calls m = ReqWrite c pdu false
                      :: replicate (S (length frames)) (ReqRead c)
       /\ invoked m = [OpWrite c [pdu]]
       /\ writeResults (peripheral m) = writes
       /\ readResults (peripheral m) = reads.
Proof.
  intros Hne Hend per start.
  split; [intros pdus m Hk; by apply write_op_calls|].
  pose (m1 := run 6 (writeCharacteristic c [pdu]
                       (new_GattConnection
                          (answers connects disconnects discovers
                             (VUndefined :: writes) []))).2).
  vm_compute in m1.
  let b := eval cbv delta [m1] in m1 in
  lazymatch b with
  | {| this := ?th0; heap := ?h0; remainingElements := ?re0; jobs := _;
       inflight := [(_, CbRead ?p0 _ ?acc0)]; peripheral := _;
       calls := ?cl0; invoked := ?inv0; uncaught := ?unc0 |} =>
    let r := eval vm_compute in (reactions <$> h0 !! p0) in
    lazymatch r with
    | Some ?R0 =>
    destruct (drain_loop c th0 (VUndefined, ending)
                 (fun acc => Fulfilled (VBuffers acc)) (fun _ => I)
                 (fun p acc R h re cl inv unc cr dr dcr wr rr =>
                    step_last_empty c th0 ending p acc R h re cl inv unc
                      cr dr dcr wr rr eq_refl Hend)
                 frames p0 acc0 R0 h0 re0 cl0 inv0 unc0
                 connects disconnects discovers writes reads Hne)
      as (k & extra & Hrun); [reflexivity|]
    end
  end.
  clear m1.
  match type of Hrun with
  | run _ ?M = _ => assert (run 6 start.2 = M) as E1
  end.
  { subst start per.
    generalize (ok_reads frames ++ (VUndefined, ending) :: reads). intros rs.
    vm_compute. reflexivity. }
  exists 2, (6 + (k + 3)). split; [reflexivity|].
  intros n Hn m. subst m.
  assert (forall j, run (6 + (k + j)) start.2 = run j (run k (run 6 start.2)))
    as E by (intros j; by rewrite !run_add).
  rewrite E1, Hrun in E. clear E1 Hrun.
  rewrite (run_rest (6 + (k + 3))); [|rewrite E; vm_compute; reflexivity|exact Hn].
  rewrite E. clear E. vm_compute. repeat split.
Qed.

(** C10 — A read error in the drain: whatever frames were read before it,
    the promise of [_readCharacteristicInner] is rejected with the error;
    the fields of the connection, [a2cCounter] among them, are as they
    were (nothing was decrypted), and nothing was thrown. *)
Theorem drain_error_rejects (c : Characteristic) (frames : list Buffer)
    (err : value) (data : option Buffer)
    (rest : list (value * option Buffer)) (m : machine) :
  jobs m = [] -> inflight m = [] ->
  Forall (fun d => 0 < length d) frames ->
  truthy err = true ->
  readResults (peripheral m) = ok_reads frames ++ (err, data) :: rest ->
  let start := _readCharacteristicInner c [] m in
  exists p k,
    start.1 = Normal p
    /\ forall n, k <= n ->
       let m' := run n start.2 in
       quiescent m'
       /\ promise_state p m' = Some (Rejected err)
       /\ this m' = this m
       /\ uncaught m' = uncaught m
       /\ calls m' = calls m ++ replicate (S (length frames)) (ReqRead c)
       /\ readResults (peripheral m') = rest.
Proof.
  intros Hj Hi Hne He Hr start.
  destruct m as [th h re js infl [cr dr dcr wr rr] cl inv unc].
  cbn [jobs inflight peripheral readResults] in Hj, Hi, Hr. subst js infl rr.
  subst start. unfold _readCharacteristicInner. msimpl. mnorm.
  destruct (drain_loop c th (err, data) (fun _ => Rejected err)
              (fun _ => I)
              (fun p acc R h re cl inv unc cr dr dcr wr rr =>
                 step_last_error c th err data p acc R h re cl inv unc
                   cr dr dcr wr rr He)
              frames (length h) [] [] (h ++ [new_cell]) re
              (cl ++ [ReqRead c]) inv unc cr dr dcr wr rest Hne)
    as (k & extra & Hrun).
  { by rewrite list_lookup_middle. }
  exists (length h), k. split; [done|]. intros n Hn.
  change (answers cr dr dcr wr (ok_reads frames ++ (err, data) :: rest))
    with {| connectResults := cr; disconnectResults := dr;
            discoverResults := dcr; writeResults := wr;
            readResults := ok_reads frames ++ (err, data) :: rest |} in Hrun.
  rewrite (run_rest k); [|rewrite Hrun; reflexivity|exact Hn].
  rewrite Hrun. cbn [map concat]. 
  split; [done|]. unfold promise_state. msimpl.
  split. { rewrite lookup_app_l by (rewrite length_insert, length_app; cbn [length]; lia).
           rewrite list_lookup_insert_eq by (rewrite length_app; cbn [length]; lia). done. }
  split; [done|]. split; [done|].
  split; [|done]. rewrite <- app_assoc. done.
Qed.

End Claims.

Lemma connect_when_connected_witness :
  let m := @run toy_sodium 10
             (connect (new_GattConnection
                         (answers [VUndefined] [] [] [] []))).2 in
  state (this m) = CONNECTED
  /\ calls (connect (connect m).2).2 = [ReqConnect].
Proof.
  intros m. split; [reflexivity|].
  destruct (connect_when_connected m eq_refl)
    as (p1 & p2 & _ & _ & _ & _ & _ & -> & _).
  reflexivity.
Defined.

(** C3 — Without session keys a PDU of 600 bytes goes out in one write of
    600 bytes, not in two of 496 and 104: of the two acknowledgements the
    peripheral had ready, one is left over. *)
Lemma plaintext_600_single_write :
  let per :=
    answers [] [] [] [VUndefined; VUndefined]
      [(VUndefined, Some [x2a]); (VUndefined, None)] in
  let start :=
    writeCharacteristic 9 [replicate 600 x00] (new_GattConnection per) in
  let m := @run toy_sodium 13 start.2 in
  calls m = [ReqWrite 9 (replicate 600 x00) false; ReqRead 9; ReqRead 9]
  /\ writeResults (peripheral m) = [VUndefined]
  /\ promise_state 2 m = Some (Fulfilled (VBuffers [[x2a]]))
  /\ @step toy_sodium m = None.
Proof. vm_compute. repeat split. Qed.

Lemma plaintext_write_whole_witness :
  let per :=
    answers [] [] [] [VUndefined]
      (ok_reads [[x2a]] ++ [(VUndefined, None)]) in
  let start :=
    writeCharacteristic 9 [replicate 600 x00] (new_GattConnection per) in
  exists p k,
    start.1 = Normal p
    /\ forall n, k <= n ->
       let m := @run toy_sodium n start.2 in
       @quiescent toy_sodium m
       /\ promise_state p m = Some (Fulfilled (VBuffers [[x2a]]))
       /\ calls m = ReqWrite 9 (replicate 600 x00) false
                      :: replicate 2 (ReqRead 9)
       /\ invoked m = [OpWrite 9 [replicate 600 x00]]
       /\ writeResults (peripheral m) = []
       /\ readResults (peripheral m) = [].
Proof.
  intros per start.
  assert (Forall (fun d : Buffer => 0 < length d) [[x2a]]) as Hne
    by (repeat constructor).
  exact (proj2 (@plaintext_write_whole toy_sodium 9 (replicate 600 x00)
                  [[x2a]] None [] [] [] [] [] Hne I)).
Defined.

Lemma drain_error_rejects_witness :
  let per :=
    answers [] [] [] []
      (ok_reads [[x01]; [x02]] ++ [(VError "EIO", None)]) in
  let m0 := new_GattConnection per in
  let m := set_this (setSessionKeys toy_keys (this m0)) m0 in
  let start := _readCharacteristicInner 9 [] m in
  exists p k,
    start.1 = Normal p
    /\ forall n, k <= n ->
       let m' := @run toy_sodium n start.2 in
       @quiescent toy_sodium m'
       /\ promise_state p m' = Some (Rejected (VError "EIO"))
       /\ this m' = this m
       /\ uncaught m' = []
       /\ calls m' = replicate 3 (ReqRead 9)
       /\ readResults (peripheral m') = [].
Proof.
  intros per m0 m start.
  assert (Forall (fun d : Buffer => 0 < length d) [[x01]; [x02]]) as Hne
    by (repeat constructor).
  exact (@drain_error_rejects toy_sodium 9 [[x01]; [x02]] (VError "EIO")
           None [] m eq_refl eq_refl Hne eq_refl eq_refl).
Defined.

(** The machine on a whole transaction with session keys: two PDUs of 10
    and 20 bytes go out as two frames of 26 and 36 bytes, [c2aCounter]
    goes from 0 to 2, and the one frame read back is decrypted. *)
Example keyed_write_two_pdus :
  let reply := [x07; x08] ++ toy_tag (nonce_of 0) (replicate 32 x01) in
  let m0 :=
    new_GattConnection
      (answers [] [] [] [VUndefined; VUndefined]
         [(VUndefined, Some reply); (VUndefined, Some [])]) in
  let start :=
    writeCharacteristic 9 [replicate 10 x00; replicate 20 x00]
      (set_this (setSessionKeys toy_keys (this m0)) m0) in
  let m := @run toy_sodium 40 start.2 in
  promise_state 2 m = Some (Fulfilled (VBuffers [[x07; x08]]))
  /\ omap (fun r => match r with
                    | ReqWrite _ data _ => Some (length data)
                    | _ => None
                    end) (calls m) = [26; 36]
  /\ c2aCounter (this m) = 2%N /\ a2cCounter (this m) = 1%N
  /\ @step toy_sodium m = None.
Proof. vm_compute. repeat split. Qed.

(** * Further properties of the frame codec *)

Lemma length_fragment pdu : length (fragment pdu) = (length pdu + 495) / 496.
Proof.
  funelim (fragment pdu).
  - subst. reflexivity.
  - cbn [length]. rewrite H. rewrite length_drop.
    assert (0 < length pdu) by (destruct pdu; [done|]; cbn [length]; lia).
    destruct (decide (length pdu <= 496)) as [Hs|Hl].
    + replace (length pdu - 496) with 0 by lia.
      rewrite (Nat.div_small (0 + 495) 496) by lia.
      apply (Nat.div_unique _ _ _ (length pdu - 1)); lia.
    + replace (length pdu + 495)
        with ((length pdu - 496 + 495) + 1 * 496) by lia.
      rewrite Nat.div_add by lia. lia.
Qed.

Lemma fragment_empty pdu : length pdu = 0 -> fragment pdu = [].
Proof. destruct pdu; [intros _; apply fragment_nil|done]. Qed.

Section CodecEdges.
Context `{Sodium}.

Lemma encrypt_while_done pdu position encryptedPdus this :
  length pdu <= position ->
  encrypt_while pdu position encryptedPdus this = (Normal encryptedPdus, this).
Proof.
  intros Hle. rewrite encrypt_while_equation_1.
  destruct (decide (position < length pdu)); [lia|done].
Qed.

Lemma encrypt_while_step pdu position encryptedPdus this :
  position < length pdu ->
  encrypt_while pdu position encryptedPdus this =
  match encrypt_frame pdu position this with
  | (Throw e, this') => (Throw e, this')
  | (Normal frame, this') =>
    encrypt_while pdu (position + Nat.min (length pdu - position) 496)
      (encryptedPdus ++ [frame]) this'
  end.
Proof.
  intros Hlt. rewrite encrypt_while_equation_1.
  destruct (decide (position < length pdu)); [|lia].
  cbn. by destruct (encrypt_frame pdu position this) as [[frame|e] this'].
Qed.

Lemma encrypt_for_empty pdus encryptedPdus this :
  Forall (fun pdu => length pdu = 0) pdus ->
  encrypt_for pdus encryptedPdus this = (Normal encryptedPdus, this).
Proof.
  induction 1 as [|pdu pdus Hpdu _ IH]; [done|].
  cbn [encrypt_for]. rewrite encrypt_while_done by lia. exact IH.
Qed.

Lemma encrypt_frame_range pdu position this :
  (4294967295 < c2aCounter this)%N ->
  encrypt_frame pdu position this =
  (Throw (VError "ERR_OUT_OF_RANGE"),
   set_c2aCounter (c2aCounter this + 1) this).
Proof.
  intros Hc. unfold encrypt_frame. by rewrite writeUInt32LE_range.
Qed.

Lemma encrypt_while_exhausted pdu position encryptedPdus this keys :
  sessionKeys this = Some keys ->
  0 < length (fragment (drop position pdu)) ->
  (4294967296 < c2aCounter this
                + N.of_nat (length (fragment (drop position pdu))))%N ->
  encrypt_while pdu position encryptedPdus this =
  (Throw (VError "ERR_OUT_OF_RANGE"),
   set_c2aCounter (N.max (c2aCounter this) 4294967296 + 1) this).
Proof.
  remember (length pdu - position) as k eqn:Hk. revert position Hk
    encryptedPdus this.
  induction k as [k IH] using lt_wf_ind.
  intros position Hk encryptedPdus this Hkeys Hpos Hc.
  destruct (decide (position < length pdu)) as [Hlt|Hge].
  2:{ rewrite drop_ge, fragment_nil in Hpos by lia. cbn [length] in Hpos. lia. }
  rewrite encrypt_while_step by done.
  rewrite (fragment_step pdu position) in Hc, Hpos by done.
  cbn [length] in Hc, Hpos.
  destruct (decide (c2aCounter this <= 4294967295)%N) as [Hs|Hl].
  - rewrite (encrypt_frame_sealed _ _ _ keys) by done.
    rewrite (IH (length pdu
                 - (position + Nat.min (length pdu - position) 496)));
      cbn [sessionKeys c2aCounter set_c2aCounter]; [|lia|done|done|lia|lia].
    rewrite set_c2aCounter_twice. f_equal. f_equal. lia.
  - rewrite encrypt_frame_range by lia. f_equal. f_equal. lia.
Qed.

Lemma encrypt_for_exhausted pdus encryptedPdus this keys :
  sessionKeys this = Some keys ->
  0 < length (concat (fragment <$> pdus)) ->
  (4294967296 < c2aCounter this
                + N.of_nat (length (concat (fragment <$> pdus))))%N ->
  encrypt_for pdus encryptedPdus this =
  (Throw (VError "ERR_OUT_OF_RANGE"),
   set_c2aCounter (N.max (c2aCounter this) 4294967296 + 1) this).
Proof.
  revert encryptedPdus this.
  induction pdus as [|pdu pdus IH]; intros encryptedPdus this Hk Hpos Hc.
  - cbn in Hpos. lia.
  - cbn [fmap list_fmap concat encrypt_for] in Hc, Hpos |- *.
    rewrite length_app in Hc, Hpos.
    destruct (decide (0 < length (fragment pdu)
                      /\ (4294967296 < c2aCounter this
                                       + N.of_nat (length (fragment pdu)))%N))
      as [[Hp1 Hc1]|Hno].
    + pose proof (encrypt_while_exhausted pdu 0 encryptedPdus this keys Hk)
        as E.
      change (drop 0 pdu) with pdu in E. by rewrite E.
    + destruct (decide (length (fragment pdu) = 0)) as [Hz|Hnz].
      * assert (pdu = []) as ->.
        { destruct pdu as [|b pdu]; [done|].
          rewrite fragment_nonempty in Hz by done. done. }
        rewrite encrypt_while_done by (cbn [length]; lia).
        rewrite fragment_nil in Hc, Hpos. cbn [length] in Hc, Hpos.
        apply (IH _ _ Hk); [lia|lia].
      * assert (c2aCounter this + N.of_nat (length (fragment pdu))
                <= 4294967296)%N as Hfit by lia.
        pose proof (encrypt_while_seal pdu 0 encryptedPdus this keys Hk) as E.
        change (drop 0 pdu) with pdu in E. rewrite E by done. clear E.
        rewrite IH; cbn [sessionKeys c2aCounter set_c2aCounter];
          [|done|lia|lia].
        rewrite set_c2aCounter_twice. f_equal. f_equal. lia.
Qed.

Lemma decrypt_for_exhausted frames decryptedPdus this :
  0 < length frames ->
  (4294967296 < a2cCounter this + N.of_nat (length frames))%N ->
  decrypt_for frames decryptedPdus this =
  (Throw (VError "ERR_OUT_OF_RANGE"),
   set_a2cCounter (N.max (a2cCounter this) 4294967296 + 1) this).
Proof.
  revert decryptedPdus this.
  induction frames as [|f l IH]; intros decryptedPdus this Hpos Hc.
  - cbn in Hpos. lia.
  - cbn [decrypt_for length] in Hc |- *.
    destruct (decide (a2cCounter this <= 4294967295)%N) as [Hs|Hl].
    + rewrite writeUInt32LE_nonce by done.
      assert (0 < length l) as Hl by lia.
      destruct (decrypt_frame f (nonce_of (a2cCounter this))
                  (set_a2cCounter (a2cCounter this + 1) this));
        rewrite IH by (cbn [a2cCounter set_a2cCounter]; lia);
        rewrite set_a2cCounter_twice; cbn [a2cCounter set_a2cCounter];
        f_equal; f_equal; lia.
    + rewrite writeUInt32LE_range by lia. f_equal. f_equal. lia.
Qed.

Lemma open_frames_no_keys this counter frames :
  sessionKeys this = None -> open_frames this counter frames = [].
Proof.
  intros Hk. revert counter.
  induction frames as [|f l IH]; intros counter; [done|].
  cbn [open_frames]. unfold decrypt_frame at 1. rewrite Hk. apply IH.
Qed.

Lemma encrypt_for_no_keys pdus encryptedPdus this :
  sessionKeys this = None ->
  (c2aCounter this <= 4294967295)%N ->
  Exists (fun pdu => 0 < length pdu) pdus ->
  encrypt_for pdus encryptedPdus this =
  (Throw (VError "TypeError"), set_c2aCounter (c2aCounter this + 1) this).
Proof.
  intros Hk Hc Hex. revert encryptedPdus.
  induction pdus as [|pdu pdus IH]; intros encryptedPdus.
  - by apply Exists_nil in Hex.
  - cbn [encrypt_for].
    destruct (decide (0 < length pdu)) as [Hpos|Hz].
    + rewrite encrypt_while_step by done. unfold encrypt_frame.
      rewrite writeUInt32LE_nonce by done.
      cbn [sessionKeys set_c2aCounter]. by rewrite Hk.
    + rewrite encrypt_while_done by lia. apply IH.
      apply Exists_cons in Hex as [?|?]; [lia|done].
Qed.

Lemma concat_concat_fragment pdus :
  concat (concat (fragment <$> pdus)) = concat pdus.
Proof.
  induction pdus as [|pdu pdus IH]; [done|].
  cbn [fmap list_fmap concat]. rewrite concat_app, IH.
  by rewrite concat_fragment.
Qed.

Lemma length_concat_fragment pdus :
  length (concat (fragment <$> pdus))
  = sum_list ((fun pdu => (length pdu + 495) / 496) <$> pdus).
Proof.
  induction pdus as [|pdu pdus IH]; [done|].
  cbn [fmap list_fmap concat sum_list]. rewrite length_app, IH.
  by rewrite length_fragment.
Qed.

End CodecEdges.

Section CodecExtras.
Context `{Sodium}.

(** X1 — PDUs of length zero give no frame: [_encryptPdus] returns the
    empty list and leaves the connection as it was; no counter value is
    used and the session keys are not read (they may be null). *)
Theorem encrypt_empty_pdus (pdus : list Buffer) (this : GattConnection) :
  Forall (fun pdu => length pdu = 0) pdus ->
  _encryptPdus pdus this = (Normal [], this).
Proof. intros Hall. unfold _encryptPdus. by apply encrypt_for_empty. Qed.

(** X2 — The number of frames: a PDU of [n] bytes gives [ceil(n / 496)]
    frames, and [_encryptPdus] returns as many frames, and moves
    [c2aCounter] on by as much, as these numbers add up to over the
    PDUs. *)
Theorem encrypt_frame_count (pdus : list Buffer) (this : GattConnection)
    (keys : SessionKeys) :
  let n := sum_list ((fun pdu => (length pdu + 495) / 496) <$> pdus) in
  sessionKeys this = Some keys ->
  (c2aCounter this + N.of_nat n <= 4294967296)%N ->
  exists frames,
    _encryptPdus pdus this =
      (Normal frames, set_c2aCounter (c2aCounter this + N.of_nat n) this)
    /\ length frames = n.
Proof.
  intros n Hk Hc. subst n. rewrite <- length_concat_fragment in Hc |- *.
  eexists. split; [by apply (_encryptPdus_seal _ _ keys)|].
  apply length_seal.
Qed.

(** X3 — The outbound counter running out: when the frames to make need
    a counter value above 2^32 - 1, [writeUInt32LE] throws and
    [_encryptPdus] throws its RangeError.  The frames sealed before are
    lost with it, and [c2aCounter] stays past the values they used and the
    one that was refused.  (The counter is a JavaScript number, exact
    below 2^53.) *)
Theorem encrypt_counter_exhausted (pdus : list Buffer) (this : GattConnection)
    (keys : SessionKeys) :
  let k := length (concat (fragment <$> pdus)) in
  sessionKeys this = Some keys ->
  0 < k ->
  (4294967296 < c2aCounter this + N.of_nat k)%N ->
  (c2aCounter this < 9007199254740991)%N ->
  _encryptPdus pdus this =
  (Throw (VError "ERR_OUT_OF_RANGE"),
   set_c2aCounter (N.max (c2aCounter this) 4294967296 + 1) this).
Proof.
  intros k Hk Hpos Hc _. unfold _encryptPdus.
  by apply (encrypt_for_exhausted _ _ _ keys).
Qed.

(** X4 — The inbound counter running out: the nonce is written outside
    the [try] block, so the RangeError of [writeUInt32LE] is not swallowed
    as a failed decryption is: [_decryptPdus] throws it, the frames
    decrypted before are lost, and [a2cCounter] stays past the value that
    was refused.  Session keys play no part. *)
Theorem decrypt_counter_exhausted (frames : list Buffer)
    (this : GattConnection) :
  0 < length frames ->
  (4294967296 < a2cCounter this + N.of_nat (length frames))%N ->
  (a2cCounter this < 9007199254740991)%N ->
  _decryptPdus frames this =
  (Throw (VError "ERR_OUT_OF_RANGE"),
   set_a2cCounter (N.max (a2cCounter this) 4294967296 + 1) this).
Proof.
  intros Hpos Hc _. unfold _decryptPdus. by apply decrypt_for_exhausted.
Qed.

(** X5 — [_decryptPdus] with no session keys: reading the key off [null]
    throws inside the [try] block, so every frame is dropped in silence;
    the result is the empty list and [a2cCounter] has moved on by one for
    each frame. *)
Theorem decrypt_without_keys (frames : list Buffer) (this : GattConnection) :
  sessionKeys this = None ->
  (a2cCounter this + N.of_nat (length frames) <= 4294967296)%N ->
  _decryptPdus frames this =
  (Normal [],
   set_a2cCounter (a2cCounter this + N.of_nat (length frames)) this).
Proof.
  intros Hk Hc. rewrite _decryptPdus_unseal by done.
  by rewrite open_frames_no_keys.
Qed.

(** X6 — [_encryptPdus] with no session keys: nothing catches the read
    of the key off [null], so the first PDU that is not empty makes it
    throw a TypeError, after [c2aCounter] was incremented for the frame
    that was not made. *)
Theorem encrypt_without_keys (pdus : list Buffer) (this : GattConnection) :
  sessionKeys this = None ->
  (c2aCounter this <= 4294967295)%N ->
  Exists (fun pdu => 0 < length pdu) pdus ->
  _encryptPdus pdus this =
  (Throw (VError "TypeError"), set_c2aCounter (c2aCounter this + 1) this).
Proof. intros Hk Hc Hex. unfold _encryptPdus. by apply encrypt_for_no_keys. Qed.

(** X7 — [setSessionKeys] replaces the keys and nothing else: both
    counters keep their values, so the frames made next are sealed under
    the new key with nonces that go on from where the old session stopped,
    and the frames received next are opened likewise. *)
Theorem setSessionKeys_keeps_counters (keys : SessionKeys)
    (pdus inbound : list Buffer) (this : GattConnection) :
  let this' := setSessionKeys keys this in
  let chunks := concat (fragment <$> pdus) in
  (c2aCounter this + N.of_nat (length chunks) <= 4294967296)%N ->
  (a2cCounter this + N.of_nat (length inbound) <= 4294967296)%N ->
  sessionKeys this' = Some keys
  /\ c2aCounter this' = c2aCounter this
  /\ a2cCounter this' = a2cCounter this
  /\ state this' = state this
  /\ currentOperation this' = currentOperation this
  /\ _encryptPdus pdus this' =
       (Normal (seal_frames (ControllerToAccessoryKey keys)
                  (c2aCounter this) chunks),
        set_c2aCounter (c2aCounter this + N.of_nat (length chunks)) this')
  /\ _decryptPdus inbound this' =
       (Normal (omap id
                  (imap (fun i frame =>
                           crypto_aead_chacha20poly1305_ietf_decrypt frame
                             (nonce_of (a2cCounter this + N.of_nat i))
                             (AccessoryToControllerKey keys)) inbound)),
        set_a2cCounter (a2cCounter this + N.of_nat (length inbound)) this').
Proof.
  intros this' chunks Hc Hj. do 5 (split; [done|]). split.
  - by rewrite (_encryptPdus_seal _ _ keys).
  - rewrite _decryptPdus_unseal by done. by rewrite unseal_imap.
Qed.

(** X8 — Round trip of several PDUs: what [_decryptPdus] gives for the
    frames [_encryptPdus] made of a list of PDUs is the list of their
    chunks of at most 496 bytes.  The bytes come back in order, but not
    the PDUs: where one PDU ends and the next begins is not transmitted,
    and a PDU of length zero leaves no trace. *)
Theorem roundtrip_chunks `{!SodiumCorrect} (pdus : list Buffer)
    (sender receiver : GattConnection) (ks kr : SessionKeys) :
  let chunks := concat (fragment <$> pdus) in
  sessionKeys sender = Some ks ->
  sessionKeys receiver = Some kr ->
  ControllerToAccessoryKey ks = AccessoryToControllerKey kr ->
  c2aCounter sender = a2cCounter receiver ->
  (c2aCounter sender + N.of_nat (length chunks) <= 4294967296)%N ->
  exists frames sender' receiver',
    _encryptPdus pdus sender = (Normal frames, sender')
    /\ _decryptPdus frames receiver = (Normal chunks, receiver')
    /\ concat chunks = concat pdus
    /\ Forall (fun chunk => 0 < length chunk <= 496) chunks
    /\ c2aCounter sender' = a2cCounter receiver'.
Proof.
  intros chunks Hs Hr Hkey Hctr Hc. subst chunks.
  eexists _, _, _. split; [by apply (_encryptPdus_seal _ _ ks)|].
  split; [|split; [apply concat_concat_fragment|split]].
  - rewrite _decryptPdus_unseal by (rewrite length_seal, <- Hctr; lia).
    by rewrite Hkey, Hctr, (unseal_seal _ kr).
  - clear. induction pdus as [|pdu pdus IH]; [constructor|].
    cbn [fmap list_fmap concat]. apply Forall_app. split; [|done].
    apply Forall_fragment.
  - cbn [c2aCounter a2cCounter set_c2aCounter set_a2cCounter].
    rewrite length_seal. lia.
Qed.

End CodecExtras.

Lemma encrypt_empty_pdus_witness :
  @_encryptPdus toy_sodium [[]; []] (keyed 7 0) = (Normal [], keyed 7 0).
Proof.
  apply (@encrypt_empty_pdus toy_sodium [[]; []] (keyed 7 0)).
  by repeat constructor.
Defined.

Lemma encrypt_frame_count_witness :
  exists frames,
    @_encryptPdus toy_sodium [replicate 497 x00; []; replicate 3 x00]
      (keyed 0 0) = (Normal frames, keyed 3 0)
    /\ length frames = 3.
Proof.
  apply (@encrypt_frame_count toy_sodium
           [replicate 497 x00; []; replicate 3 x00] (keyed 0 0) toy_keys
           eq_refl).
  by vm_compute.
Defined.

Lemma encrypt_counter_exhausted_witness :
  @_encryptPdus toy_sodium [replicate 497 x00] (keyed 4294967295 0)
  = (Throw (VError "ERR_OUT_OF_RANGE"), keyed 4294967297 0).
Proof.
  apply (@encrypt_counter_exhausted toy_sodium [replicate 497 x00]
           (keyed 4294967295 0) toy_keys eq_refl);
    vm_compute; first [done|lia].
Defined.

Lemma decrypt_counter_exhausted_witness :
  @_decryptPdus toy_sodium [[x01]; [x02]] (keyed 0 4294967295)
  = (Throw (VError "ERR_OUT_OF_RANGE"), keyed 0 4294967297).
Proof.
  apply (@decrypt_counter_exhausted toy_sodium [[x01]; [x02]]
           (keyed 0 4294967295)); vm_compute; first [done|lia].
Defined.

Lemma decrypt_without_keys_witness :
  let this := this (new_GattConnection (answers [] [] [] [] [])) in
  @_decryptPdus toy_sodium [[x01]; [x02]] this
  = (Normal [], set_a2cCounter 2 this).
Proof.
  intros this.
  apply (@decrypt_without_keys toy_sodium [[x01]; [x02]] this eq_refl).
  by vm_compute.
Defined.

Lemma encrypt_without_keys_witness :
  let this := this (new_GattConnection (answers [] [] [] [] [])) in
  @_encryptPdus toy_sodium [[]; [x01]] this
  = (Throw (VError "TypeError"), set_c2aCounter 1 this).
Proof.
  intros this.
  apply (@encrypt_without_keys toy_sodium [[]; [x01]] this eq_refl).
  - by vm_compute.
  - apply Exists_cons_tl, Exists_cons_hd. simpl. lia.
Defined.

Lemma setSessionKeys_keeps_counters_witness :
  c2aCounter (setSessionKeys toy_keys (keyed 5 9)) = 5%N
  /\ a2cCounter (setSessionKeys toy_keys (keyed 5 9)) = 9%N.
Proof.
  destruct (@setSessionKeys_keeps_counters toy_sodium toy_keys [[x01]] []
              (keyed 5 9)) as (_ & E1 & E2 & _); [by vm_compute..|].
  by split.
Defined.

Lemma roundtrip_chunks_witness :
  exists frames sender' receiver',
    @_encryptPdus toy_sodium [replicate 500 x09; []; [x01]] (keyed 3 0)
      = (Normal frames, sender')
    /\ @_decryptPdus toy_sodium frames (keyed 0 3)
       = (Normal [replicate 496 x09; replicate 4 x09; [x01]], receiver')
    /\ c2aCounter sender' = a2cCounter receiver'.
Proof.
  destruct (@roundtrip_chunks toy_sodium toy_sodium_correct
              [replicate 500 x09; []; [x01]] (keyed 3 0) (keyed 0 3)
              toy_keys toy_keys eq_refl eq_refl eq_refl eq_refl)
    as (frames & s' & r' & E1 & E2 & _ & _ & E3); [by vm_compute|].
  exists frames, s', r'. split; [done|]. split; [|done].
  rewrite E2. by vm_compute.
Defined.

(** * Further properties of the event loop *)

Lemma lookup_app_length {A} (l k : list A) x : (l ++ x :: k) !! length l = Some x.
Proof. by apply list_lookup_middle. Qed.

Lemma insert_app_length {A} (l k : list A) x y :
  <[length l := y]> (l ++ x :: k) = l ++ y :: k.
Proof.
  rewrite insert_app_r_alt by done. by rewrite Nat.sub_diag.
Qed.

(** Normal form of a store written as [h ++ cells]. *)
Ltac hnorm0 :=
  repeat first
    [ rewrite insert_app_length
    | rewrite lookup_app_length
    | progress hnorm ].

(** Rewriting with a run proved from a state written otherwise. *)
Ltac rewrite_run H :=
  match type of H with
  | run ?k ?s = _ =>
    match goal with
    | |- context [run ?k' ?s'] => change (run k' s') with (run k s)
    end
  end;
  rewrite H.

Ltac mstep lem :=
  erewrite run_step by (apply lem; hnorm0; first [reflexivity|lia|done]).

Section MoreSteps.
Context `{Sodium}.

Lemma final_state_outcome err : final_state (outcome err).
Proof. unfold outcome. by destruct (truthy err). Qed.

(** A fulfilment passing through a promise that has no handler for it. *)
Lemma step_pass_value p v b R js th h re infl per cl inv unc :
  (forall q, v <> VPromise q) ->
  h !! p = Some {| settled := Pending; alreadyResolved := b; reactions := R |} ->
  step {| this := th; heap := h; remainingElements := re;
          jobs := JReaction None false v p :: js;
          inflight := infl; peripheral := per;
          calls := cl; invoked := inv; uncaught := unc |} =
  Some {| this := th;
          heap := <[p := {| settled := Fulfilled v; alreadyResolved := b;
                            reactions := [] |}]> h;
          remainingElements := re;
          jobs := js ++ concat (map (reaction_job (Fulfilled v)) R);
          inflight := infl; peripheral := per;
          calls := cl; invoked := inv; uncaught := unc |}.
Proof.
  intros Hv Hp. unfold step. cbn [jobs run_job].
  assert (resolve_promise p v = settle p (Fulfilled v)) as ->.
  { destruct v as [| | | | |q]; try done. by destruct (Hv q). }
  unfold settle. msimpl. rewrite Hp. by cbn [settled alreadyResolved reactions].
Qed.

(** The callback of a call that only reports an error: the promise takes
    the outcome and, on success, the connection the state [s]. *)
Lemma callback_settles p err s R m :
  heap m !! p = Some (waiting_cell R) ->
  (if truthy err then rejectFn p err
   else modify (fun m => set_this (set_state s (this m)) m);;
        resolveFn p VUndefined) m =
  (Normal tt,
   set_jobs (jobs m ++ concat (map (reaction_job (outcome err)) R))
     (set_heap (<[p := settled_cell (outcome err)]> (heap m))
        (set_this (if truthy err then this m else set_state s (this m)) m))).
Proof.
  intros Hp.
  assert (p < length (heap m)) as Hlt by (by eapply lookup_lt_Some).
  unfold outcome. destruct (truthy err).
  - unfold rejectFn, lock, settle. msimpl. rewrite Hp.
    cbn [waiting_cell alreadyResolved settled reactions]. msimpl.
    rewrite list_lookup_insert_eq by done.
    cbn [alreadyResolved settled reactions]. msimpl.
    rewrite list_insert_insert_eq. by destruct m.
  - unfold resolveFn, lock, resolve_promise, settle. msimpl. rewrite Hp.
    cbn [waiting_cell alreadyResolved settled reactions]. msimpl.
    rewrite list_lookup_insert_eq by done.
    cbn [alreadyResolved settled reactions]. msimpl.
    by rewrite list_insert_insert_eq.
Qed.

Lemma step_answer_connect p err R infl th h re cl inv unc cr dr dcr wr rr :
  h !! p = Some (waiting_cell R) ->
  step {| this := th; heap := h; remainingElements := re; jobs := [];
          inflight := (ReqConnect, CbConnect p) :: infl;
          peripheral := answers (err :: cr) dr dcr wr rr;
          calls := cl; invoked := inv; uncaught := unc |} =
  Some {| this := if truthy err then th else set_state CONNECTED th;
          heap := <[p := settled_cell (outcome err)]> h;
          remainingElements := re;
          jobs := concat (map (reaction_job (outcome err)) R);
          inflight := infl; peripheral := answers cr dr dcr wr rr;
          calls := cl; invoked := inv; uncaught := unc |}.
Proof.
  intros Hp. unfold step.
  cbn [jobs inflight peripheral answer answers connectResults
       disconnectResults discoverResults writeResults readResults].
  cbn [invoke_callback err_only arg_err].
  by rewrite (callback_settles p err CONNECTED R).
Qed.

Lemma step_answer_reconnect p err R infl th h re cl inv unc cr dr dcr wr rr :
  h !! p = Some (waiting_cell R) ->
  step {| this := th; heap := h; remainingElements := re; jobs := [];
          inflight := (ReqDisconnect, CbReconnect p) :: infl;
          peripheral := answers cr (err :: dr) dcr wr rr;
          calls := cl; invoked := inv; uncaught := unc |} =
  Some {| this := if truthy err then th else set_state DISCONNECTED th;
          heap := <[p := settled_cell (outcome err)]> h;
          remainingElements := re;
          jobs := concat (map (reaction_job (outcome err)) R);
          inflight := infl; peripheral := answers cr dr dcr wr rr;
          calls := cl; invoked := inv; uncaught := unc |}.
Proof.
  intros Hp. unfold step.
  cbn [jobs inflight peripheral answer answers connectResults
       disconnectResults discoverResults writeResults readResults].
  cbn [invoke_callback err_only arg_err].
  by rewrite (callback_settles p err DISCONNECTED R).
Qed.

Lemma step_answer_disconnect p err R infl th h re cl inv unc cr dr dcr wr rr :
  h !! p = Some (waiting_cell R) ->
  step {| this := th; heap := h; remainingElements := re; jobs := [];
          inflight := (ReqDisconnect, CbDisconnect p) :: infl;
          peripheral := answers cr (err :: dr) dcr wr rr;
          calls := cl; invoked := inv; uncaught := unc |} =
  Some {| this := if truthy err then th else set_state DISCONNECTED th;
          heap := <[p := settled_cell (outcome err)]> h;
          remainingElements := re;
          jobs := concat (map (reaction_job (outcome err)) R);
          inflight := infl; peripheral := answers cr dr dcr wr rr;
          calls := cl; invoked := inv; uncaught := unc |}.
Proof.
  intros Hp. unfold step.
  cbn [jobs inflight peripheral answer answers connectResults
       disconnectResults discoverResults writeResults readResults].
  cbn [invoke_callback err_only arg_err].
  by rewrite (callback_settles p err DISCONNECTED R).
Qed.

(** The handler of line 75: the state becomes CONNECTING and the
    peripheral is asked to connect. *)
Lemma step_invoke_connect rejected arg d js th h re infl per cl inv unc :
  d < length h ->
  step {| this := th; heap := h; remainingElements := re;
          jobs := JReaction (Some HConnect) rejected arg d :: js;
          inflight := infl; peripheral := per;
          calls := cl; invoked := inv; uncaught := unc |} =
  Some {| this := set_state CONNECTING th; heap := h ++ [new_cell];
          remainingElements := re;
          jobs := js ++ [JThenable d (length h)];
          inflight := infl ++ [(ReqConnect, CbConnect (length h))];
          peripheral := per;
          calls := cl ++ [ReqConnect]; invoked := inv; uncaught := unc |}.
Proof.
  intros Hd. unfold step. cbn [jobs run_job call_handler].
  unfold resolve_promise. msimpl.
  rewrite decide_False by lia. by msimpl.
Qed.

End MoreSteps.

Section ConnectionExtras.
Context `{Sodium}.

(** X9 — [disconnect()] on a DISCONNECTED connection: the promise it
    returns is fulfilled before it is returned, the peripheral is not
    called, and the connection, the microtask queue and the calls in
    flight are as they were. *)
Theorem disconnect_when_disconnected (m : machine) :
  state (this m) = DISCONNECTED ->
  let start := disconnect m in
  exists p,
    start.1 = Normal p
    /\ promise_state p start.2 = Some (Fulfilled VUndefined)
    /\ this start.2 = this m
    /\ calls start.2 = calls m
    /\ inflight start.2 = inflight m
    /\ jobs start.2 = jobs m
    /\ peripheral start.2 = peripheral m.
Proof.
  intros Hs start. subst start.
  destruct m as [th h re js infl per cl inv unc]. cbn [this] in Hs.
  unfold disconnect, get_this. msimpl. rewrite Hs.
  destruct (decide (DISCONNECTED <> DISCONNECTED)) as [Hne|_]; [done|].
  unfold resolveFn, lock, resolve_promise, settle. msimpl.
  rewrite list_lookup_middle by done.
  cbn [new_cell alreadyResolved settled reactions]. msimpl.
  rewrite list_lookup_insert_eq by (rewrite length_app; cbn [length]; lia).
  cbn [settled reactions alreadyResolved map concat]. msimpl.
  exists (length h). split; [done|]. unfold promise_state. mnorm.
  rewrite !insert_at_end, list_lookup_middle by done.
  by rewrite app_nil_r.
Qed.

(** X10 — [disconnect()] on a connection that is not DISCONNECTED: the
    peripheral is told to disconnect at once, without going through the
    queue of operations.  When it answers without an error the state
    becomes DISCONNECTED and the promise is fulfilled; when it answers with
    an error the promise is rejected with it and the state stays as it
    was.  Session keys and counters are kept either way. *)
Theorem disconnect_when_connected (m : machine) (err : value)
    (rest : list value) :
  state (this m) <> DISCONNECTED ->
  jobs m = [] -> inflight m = [] ->
  disconnectResults (peripheral m) = err :: rest ->
  let start := disconnect m in
  exists p,
    start.1 = Normal p
    /\ calls start.2 = calls m ++ [ReqDisconnect]
    /\ this start.2 = this m
    /\ forall n, 1 <= n ->
       let m' := run n start.2 in
       quiescent m'
       /\ promise_state p m' = Some (outcome err)
       /\ this m' = (if truthy err then this m
                     else set_state DISCONNECTED (this m))
       /\ calls m' = calls m ++ [ReqDisconnect]
       /\ disconnectResults (peripheral m') = rest.
Proof.
  intros Hs Hj Hi Hr start. subst start.
  destruct m as [th h re js infl [cr dr dcr wr rr] cl inv unc].
  cbn [this jobs inflight peripheral disconnectResults] in Hs, Hj, Hi, Hr.
  subst js infl dr.
  unfold disconnect, get_this. msimpl.
  rewrite decide_True by done. msimpl. mnorm.
  exists (length h). do 3 (split; [done|]). intros n Hn.
  match goal with |- context [run n ?s] => assert (run 1 s
     = {| this := if truthy err then th else set_state DISCONNECTED th;
          heap := h ++ [settled_cell (outcome err)];
          remainingElements := re; jobs := []; inflight := [];
          peripheral := answers cr rest dcr wr rr;
          calls := cl ++ [ReqDisconnect]; invoked := inv;
          uncaught := unc |}) as E end.
  { erewrite run_step.
    2:{ apply (step_answer_disconnect _ _ []). by apply list_lookup_middle. }
    by rewrite insert_at_end. }
  rewrite (run_rest 1); [|by rewrite E|exact Hn].
  rewrite E. unfold promise_state. mnorm.
  rewrite list_lookup_middle by done. by repeat split.
Qed.

(** X11 — [connect()] on a DISCONNECTED connection at rest: the state
    becomes CONNECTING and the peripheral is asked to connect.  When it
    answers without an error the state becomes CONNECTED and the promise
    is fulfilled; when it answers with an error the promise is rejected
    with it and the state is left CONNECTING, not reset to
    DISCONNECTED. *)
Theorem connect_when_disconnected (m : machine) (err : value)
    (rest : list value) :
  state (this m) = DISCONNECTED ->
  jobs m = [] -> inflight m = [] ->
  connectResults (peripheral m) = err :: rest ->
  let start := connect m in
  exists p,
    start.1 = Normal p
    /\ forall n, 4 <= n ->
       let m' := run n start.2 in
       quiescent m'
       /\ jobs m' = [] /\ inflight m' = []
       /\ promise_state p m' = Some (outcome err)
       /\ this m' = set_state (if truthy err then CONNECTING else CONNECTED)
                      (this m)
       /\ calls m' = calls m ++ [ReqConnect]
       /\ connectResults (peripheral m') = rest
       /\ disconnectResults (peripheral m')
          = disconnectResults (peripheral m).
Proof.
  intros Hs Hj Hi Hr start. subst start.
  destruct m as [th h re js infl [cr dr dcr wr rr] cl inv unc].
  cbn [this jobs inflight peripheral connectResults disconnectResults]
    in Hs, Hj, Hi, Hr |- *.
  subst js infl cr.
  unfold connect, get_this, Promise_resolve. msimpl. rewrite Hs.
  rewrite decide_False by done. rewrite decide_False by (by intros []).
  msimpl.
  erewrite then_settled; [|cbn [heap]; by apply list_lookup_middle|done].
  mnorm. hnorm. cbn [settled reaction_job onFulfilled derived fst snd].
  eexists. split; [reflexivity|]. intros n Hn.
  match goal with |- context [run n ?s] => assert (run 4 s
     = {| this := set_state (if truthy err then CONNECTING else CONNECTED) th;
          heap := h ++ [settled_cell (Fulfilled VUndefined);
                        {| settled := outcome err; alreadyResolved := false;
                           reactions := [] |};
                        settled_cell (outcome err);
                        {| settled := Fulfilled VUndefined;
                           alreadyResolved := false; reactions := [] |}];
          remainingElements := re; jobs := []; inflight := [];
          peripheral := answers rest dr dcr wr rr;
          calls := cl ++ [ReqConnect]; invoked := inv;
          uncaught := unc |}) as E end.
  { mstep step_invoke_connect. hnorm.
    mstep step_thenable. hnorm.
    erewrite run_step.
    2:{ apply (step_answer_connect _ _ [adoption (length h + 1) (length h + 3)]).
        hnorm. reflexivity. }
    hnorm. cbn [map concat]. rewrite app_nil_r.
    rewrite <- (app_nil_r (reaction_job _ _)).
    erewrite run_step.
    2:{ apply step_adopted;
          [apply final_state_outcome|hnorm; reflexivity|hnorm; reflexivity
          |lia]. }
    hnorm. cbn [map concat run]. by destruct (truthy err). }
  rewrite (run_rest 4); [|by rewrite E|exact Hn].
  rewrite E. unfold promise_state. mnorm. hnorm. by repeat split.
Qed.

(** X12 — [connect()] on a connection left CONNECTING (a connect that
    failed, or one still under way): the peripheral is first told to
    disconnect.  When that fails, the promise is rejected with the error of
    the disconnect, the peripheral is never asked to connect, and the state
    stays CONNECTING. *)
Theorem connect_when_connecting_fails (m : machine) (err : value)
    (rest : list value) :
  state (this m) = CONNECTING ->
  jobs m = [] -> inflight m = [] ->
  disconnectResults (peripheral m) = err :: rest ->
  truthy err = true ->
  let start := connect m in
  exists p,
    start.1 = Normal p
    /\ forall n, 2 <= n ->
       let m' := run n start.2 in
       quiescent m'
       /\ jobs m' = [] /\ inflight m' = []
       /\ promise_state p m' = Some (Rejected err)
       /\ this m' = this m
       /\ calls m' = calls m ++ [ReqDisconnect]
       /\ disconnectResults (peripheral m') = rest
       /\ connectResults (peripheral m') = connectResults (peripheral m).
Proof.
  intros Hs Hj Hi Hr He start. subst start.
  destruct m as [th h re js infl [cr dr dcr wr rr] cl inv unc].
  cbn [this jobs inflight peripheral connectResults disconnectResults]
    in Hs, Hj, Hi, Hr |- *.
  subst js infl dr.
  unfold connect, get_this. msimpl. rewrite Hs.
  rewrite decide_False by done. rewrite decide_True by done.
  msimpl.
  erewrite then_waiting; [|cbn [heap]; by apply list_lookup_middle|done].
  mnorm. rewrite insert_at_end. hnorm.
  cbn [alreadyResolved reactions new_cell fst snd].
  eexists. split; [reflexivity|]. intros n Hn.
  match goal with |- context [run n ?s] => assert (run 2 s
     = {| this := th;
          heap := h ++ [settled_cell (Rejected err);
                        {| settled := Rejected err; alreadyResolved := false;
                           reactions := [] |}];
          remainingElements := re; jobs := []; inflight := [];
          peripheral := answers cr rest dcr wr rr;
          calls := cl ++ [ReqDisconnect]; invoked := inv;
          uncaught := unc |}) as E end.
  { erewrite run_step.
    2:{ eapply step_answer_reconnect. hnorm0. reflexivity. }
    unfold outcome. rewrite He. hnorm0.
    cbn [map concat reaction_job onRejected derived].
    mstep step_pass_rejection. hnorm. by cbn [map concat run]. }
  rewrite (run_rest 2); [|by rewrite E|exact Hn].
  rewrite E. unfold promise_state. mnorm. hnorm. by repeat split.
Qed.

(** X13 — [connect()] on a connection left CONNECTING, when the
    disconnect succeeds: the peripheral is told to disconnect and then
    asked to connect, in this order, and the promise and the state follow
    the answer to the connect as on a DISCONNECTED connection. *)
Theorem connect_when_connecting (m : machine) (derr err : value)
    (drest rest : list value) :
  state (this m) = CONNECTING ->
  jobs m = [] -> inflight m = [] ->
  disconnectResults (peripheral m) = derr :: drest ->
  truthy derr = false ->
  connectResults (peripheral m) = err :: rest ->
  let start := connect m in
  exists p,
    start.1 = Normal p
    /\ forall n, 5 <= n ->
       let m' := run n start.2 in
       quiescent m'
       /\ jobs m' = [] /\ inflight m' = []
       /\ promise_state p m' = Some (outcome err)
       /\ this m' = set_state (if truthy err then CONNECTING else CONNECTED)
                      (this m)
       /\ calls m' = calls m ++ [ReqDisconnect; ReqConnect]
       /\ disconnectResults (peripheral m') = drest
       /\ connectResults (peripheral m') = rest.
Proof.
  intros Hs Hj Hi Hd He Hr start. subst start.
  destruct m as [th h re js infl [cr dr dcr wr rr] cl inv unc].
  cbn [this jobs inflight peripheral connectResults disconnectResults]
    in Hs, Hj, Hi, Hd, Hr |- *.
  subst js infl dr cr.
  unfold connect, get_this. msimpl. rewrite Hs.
  rewrite decide_False by done. rewrite decide_True by done.
  msimpl.
  erewrite then_waiting; [|cbn [heap]; by apply list_lookup_middle|done].
  mnorm. rewrite insert_at_end. hnorm.
  cbn [alreadyResolved reactions new_cell fst snd].
  eexists. split; [reflexivity|]. intros n Hn.
  match goal with |- context [run n ?s] => assert (run 5 s
     = {| this := set_state (if truthy err then CONNECTING else CONNECTED) th;
          heap := h ++ [settled_cell (Fulfilled VUndefined);
                        {| settled := outcome err; alreadyResolved := false;
                           reactions := [] |};
                        settled_cell (outcome err);
                        {| settled := Fulfilled VUndefined;
                           alreadyResolved := false; reactions := [] |}];
          remainingElements := re; jobs := []; inflight := [];
          peripheral := answers rest drest dcr wr rr;
          calls := cl ++ [ReqDisconnect; ReqConnect]; invoked := inv;
          uncaught := unc |}) as E end.
  { erewrite run_step.
    2:{ eapply step_answer_reconnect. hnorm0. reflexivity. }
    unfold outcome at 1 2. rewrite He. hnorm0.
    cbn [map concat reaction_job onFulfilled derived].
    mstep step_invoke_connect. hnorm.
    mstep step_thenable. hnorm.
    erewrite run_step.
    2:{ apply (step_answer_connect _ _ [adoption (length h + 1) (length h + 3)]).
        hnorm. reflexivity. }
    hnorm. cbn [map concat]. rewrite app_nil_r.
    rewrite <- (app_nil_r (reaction_job _ _)).
    erewrite run_step.
    2:{ apply step_adopted;
          [apply final_state_outcome|hnorm; reflexivity|hnorm; reflexivity
          |lia]. }
    hnorm. cbn [map concat run]. by destruct (truthy err). }
  rewrite (run_rest 5); [|by rewrite E|exact Hn].
  rewrite E. unfold promise_state. mnorm. hnorm. by repeat split.
Qed.

End ConnectionExtras.

Section ReadTransactions.
Context `{Sodium}.

Lemma open_frames_fields this this' counter frames :
  sessionKeys this' = sessionKeys this ->
  open_frames this' counter frames = open_frames this counter frames.
Proof.
  intros Hk. revert counter.
  induction frames as [|f l IH]; intros counter; [done|].
  cbn [open_frames]. unfold decrypt_frame. rewrite Hk, !IH. done.
Qed.

Lemma received_fields this this' frames :
  sessionKeys this' = sessionKeys this ->
  a2cCounter this' = a2cCounter this ->
  received this' frames = received this frames.
Proof.
  intros Hk Hc. unfold received. rewrite Hk, Hc.
  destruct (sessionKeys this) eqn:E; [|done].
  apply open_frames_fields. congruence.
Qed.

(** The answer that ends the drain: the frames are opened if there are
    session keys, and the promise of the last read is fulfilled with
    them. *)
Lemma step_last_finish c th data p acc R h re cl inv unc cr dr dcr wr rr :
  (sessionKeys th <> None ->
   (a2cCounter th + N.of_nat (length acc) <= 4294967296)%N) ->
  match data with Some d => length d = 0 | None => True end ->
  h !! p = Some (waiting_cell R) ->
  step {| this := th; heap := h; remainingElements := re; jobs := [];
          inflight := [(ReqRead c, CbRead p c acc)];
          peripheral := answers cr dr dcr wr ((VUndefined, data) :: rr);
          calls := cl; invoked := inv; uncaught := unc |} =
  Some {| this := after_receipt th acc;
          heap := <[p := settled_cell
                           (Fulfilled (VBuffers (received th acc)))]> h;
          remainingElements := re;
          jobs := concat (map (reaction_job
                                 (Fulfilled (VBuffers (received th acc)))) R);
          inflight := []; peripheral := answers cr dr dcr wr rr;
          calls := cl; invoked := inv; uncaught := unc |}.
Proof.
  intros Hc Hdata Hp.
  assert (p < length h) as Hlt by (by eapply lookup_lt_Some).
  unfold step. cbn [jobs inflight peripheral answer answers readResults
                    connectResults disconnectResults discoverResults
                    writeResults].
  cbn [invoke_callback arg_err arg_data truthy].
  assert (forall m, this m = th -> heap m = h -> jobs m = [] ->
            finish_read p acc m =
            (Normal tt,
             set_jobs (concat (map (reaction_job
                                      (Fulfilled (VBuffers (received th acc))))
                                 R))
               (set_heap (<[p := settled_cell
                                   (Fulfilled (VBuffers (received th acc)))]> h)
                  (set_this (after_receipt th acc) m)))) as E.
  { intros m Hth Hh Hj. unfold finish_read, get_this, received, after_receipt.
    msimpl. rewrite Hth.
    destruct (sessionKeys th) as [keys|] eqn:Hk.
    - unfold on_this. rewrite Hth, _decryptPdus_unseal by (by apply Hc).
      msimpl. unfold resolveFn, lock, resolve_promise, settle. msimpl.
      rewrite Hh, Hp. cbn [waiting_cell alreadyResolved settled reactions].
      msimpl. rewrite list_lookup_insert_eq by done.
      cbn [alreadyResolved settled reactions]. msimpl.
      by rewrite list_insert_insert_eq, Hj.
    - msimpl. unfold resolveFn, lock, resolve_promise, settle. msimpl.
      rewrite Hh, Hp. cbn [waiting_cell alreadyResolved settled reactions].
      msimpl. rewrite list_lookup_insert_eq by done.
      cbn [alreadyResolved settled reactions]. msimpl.
      rewrite list_insert_insert_eq, Hj. by destruct m; subst. }
  destruct data as [d|].
  - rewrite bool_decide_eq_false_2 by lia. by rewrite E.
  - by rewrite E.
Qed.

Section DrainTo.
Variable c : Characteristic.
Variables th th' : GattConnection.
Variable ending : value * option Buffer.
Variable total : list Buffer.
Variable st : pstate.

Hypothesis st_final : final_state st.

(** What the callback does on the answer that ends the drain, all the
    frames in [total] having been read. *)
Hypothesis step_last : forall p R h re cl inv unc cr dr dcr wr rr,
  h !! p = Some (waiting_cell R) ->
  step {| this := th; heap := h; remainingElements := re; jobs := [];
          inflight := [(ReqRead c, CbRead p c total)];
          peripheral := answers cr dr dcr wr (ending :: rr);
          calls := cl; invoked := inv; uncaught := unc |} =
  Some {| this := th'; heap := <[p := settled_cell st]> h;
          remainingElements := re;
          jobs := concat (map (reaction_job st) R);
          inflight := []; peripheral := answers cr dr dcr wr rr;
          calls := cl; invoked := inv; uncaught := unc |}.

Lemma drain_to frames :
  forall p acc R h re cl inv unc cr dr dcr wr rr,
  acc ++ frames = total ->
  Forall (fun d => 0 < length d) frames ->
  h !! p = Some (waiting_cell R) ->
  exists n extra,
    run n {| this := th; heap := h; remainingElements := re; jobs := [];
             inflight := [(ReqRead c, CbRead p c acc)];
             peripheral := answers cr dr dcr wr (ok_reads frames ++ ending :: rr);
             calls := cl; invoked := inv; uncaught := unc |} =
    {| this := th';
       heap := <[p := settled_cell st]> h ++ extra;
       remainingElements := re;
       jobs := concat (map (reaction_job st) R);
       inflight := []; peripheral := answers cr dr dcr wr rr;
       calls := cl ++ replicate (length frames) (ReqRead c);
       invoked := inv; uncaught := unc |}.
Proof using st_final step_last.
  induction frames as [|d fs IH];
    intros p acc R h re cl inv unc cr dr dcr wr rr Htot Hne Hp.
  - exists 1, []. cbn [ok_reads fmap list_fmap app].
    rewrite app_nil_r in Htot. subst acc.
    erewrite run_step by (by apply step_last).
    cbn [run length replicate]. by rewrite !app_nil_r.
  - apply Forall_cons in Hne as [Hd Hfs].
    assert (p < length h) as Hlt by (by eapply lookup_lt_Some).
    set (h1 := <[p := locked_cell R]> h).
    assert (length h1 = length h) as Hlen by apply length_insert.
    set (q := length h).
    set (h2 := h1 ++ [waiting_cell [adoption p (S q)]; new_cell]).
    destruct (IH q (acc ++ [d]) [adoption p (S q)] h2 re
                (cl ++ [ReqRead c]) inv unc cr dr dcr wr rr)
      as (n & extra & Hrun); [by rewrite <- app_assoc|done| |].
    { subst h2. rewrite lookup_app_r by lia. by rewrite Hlen, Nat.sub_diag. }
    exists (2 + (n + 1)), (settled_cell st
                            :: {| settled := Fulfilled VUndefined;
                                  alreadyResolved := false; reactions := [] |}
                            :: extra).
    cbn [ok_reads fmap list_fmap app Nat.add].
    erewrite run_step by (by apply step_frame).
    erewrite run_step.
    2:{ apply step_thenable. fold h1. rewrite lookup_app_r by lia.
        by rewrite Hlen, Nat.sub_diag. }
    fold h1 q. rewrite length_app, Hlen. cbn [length].
    replace (length h + 1) with (S q) by (subst q; lia).
    replace (<[q := waiting_cell ([] ++ [adoption p (S q)])]> (h1 ++ [new_cell])
               ++ [new_cell]) with h2.
    2:{ subst h2 q. rewrite <- Hlen, insert_at_end, <- app_assoc. done. }
    rewrite run_add. fold (ok_reads fs). rewrite Hrun. clear Hrun.
    cbn [map concat]. rewrite app_nil_r.
    rewrite <- (app_nil_r (reaction_job _ _)).
    erewrite run_step.
    2:{ apply (step_adopted _ p (S q) R true); [apply st_final| |  |lia].
        - subst h2. rewrite lookup_app_l by (rewrite length_insert, length_app; lia).
          rewrite list_lookup_insert_ne by lia.
          rewrite lookup_app_l by lia. by apply list_lookup_insert_eq.
        - subst h2. rewrite lookup_app_l by (rewrite length_insert, length_app; cbn [length]; lia).
          rewrite list_lookup_insert_ne by lia.
          rewrite lookup_app_r by lia. by rewrite Hlen, Nat.sub_succ_l, Nat.sub_diag by lia. }
    cbn [run app]. f_equal.
    + subst h2 h1 q. by apply heap_after_frame.
    + by rewrite <- app_assoc.
Qed.

(** A run of the read closure from the job that calls it to the
    settlement of that job's promise. *)
Lemma run_read_closure frames rejected arg d b R h re cl inv unc cr dr dcr wr rr :
  frames = total ->
  Forall (fun d => 0 < length d) frames ->
  h !! d = Some {| settled := Pending; alreadyResolved := b; reactions := R |} ->
  exists n extra,
    run n {| this := th; heap := h; remainingElements := re;
             jobs := [JReaction (Some (HOp (OpRead c))) rejected arg d];
             inflight := [];
             peripheral := answers cr dr dcr wr (ok_reads frames ++ ending :: rr);
             calls := cl; invoked := inv; uncaught := unc |} =
    {| this := th';
       heap := <[d := {| settled := st; alreadyResolved := b;
                         reactions := [] |}]> h ++ extra;
       remainingElements := re;
       jobs := concat (map (reaction_job st) R);
       inflight := []; peripheral := answers cr dr dcr wr rr;
       calls := cl ++ replicate (S (length frames)) (ReqRead c);
       invoked := inv ++ [OpRead c]; uncaught := unc |}.
Proof using st_final step_last.
  intros Htot Hne Hd.
  assert (d < length h) as Hlt by (by eapply lookup_lt_Some).
  destruct (drain_to frames (length h) [] [adoption d (length h + 1)]
              (h ++ [waiting_cell [adoption d (length h + 1)]; new_cell])
              re (cl ++ [ReqRead c]) (inv ++ [OpRead c]) unc cr dr dcr wr rr)
    as (n & extra & Hrun); [done|done|by rewrite lookup_app_length|].
  exists (2 + (n + 1)),
    (settled_cell st
       :: {| settled := Fulfilled VUndefined; alreadyResolved := false;
             reactions := [] |} :: extra).
  cbn [Nat.add].
  erewrite run_step by (by apply step_invoke_read).
  cbn [app].
  erewrite run_step.
  2:{ apply (step_thenable _ _ []). by rewrite lookup_app_length. }
  rewrite insert_app_length, length_app. cbn [length app].
  rewrite <- app_assoc. cbn [app].
  rewrite run_add, Hrun. clear Hrun.
  rewrite insert_app_length, <- app_assoc. cbn [app map concat].
  rewrite app_nil_r. rewrite <- (app_nil_r (reaction_job _ _)).
  erewrite run_step.
  2:{ apply (step_adopted _ d (length h + 1) R b); [apply st_final| | |lia].
      - by rewrite lookup_app_l by done.
      - by rewrite lookup_app_plus. }
  cbn [run app]. f_equal.
  - rewrite insert_app_l by done.
    rewrite insert_app_r_alt by (rewrite length_insert; lia).
    rewrite length_insert.
    replace (length h + 1 - length h) with 1 by lia. done.
  - by rewrite <- app_assoc.
Qed.

(** The drain when the promise of its first read is followed by [r] and
    [r] by [d]: once the drain has ended, both take its outcome. *)
Lemma drain_settle frames q r a2 d a1 br b R h re cl inv unc cr dr dcr wr rr :
  frames = total ->
  Forall (fun d => 0 < length d) frames ->
  h !! q = Some (waiting_cell [adoption r a2]) ->
  h !! r = Some {| settled := Pending; alreadyResolved := br;
                   reactions := [adoption d a1] |} ->
  h !! d = Some {| settled := Pending; alreadyResolved := b; reactions := R |} ->
  h !! a1 = Some new_cell -> h !! a2 = Some new_cell ->
  q <> r -> q <> a2 -> q <> d -> q <> a1 -> r <> a2 -> r <> d -> r <> a1 ->
  a2 <> d -> a2 <> a1 -> d <> a1 ->
  exists n extra,
    run n {| this := th; heap := h; remainingElements := re; jobs := [];
             inflight := [(ReqRead c, CbRead q c [])];
             peripheral := answers cr dr dcr wr (ok_reads frames ++ ending :: rr);
             calls := cl; invoked := inv; uncaught := unc |} =
    {| this := th';
       heap := <[a1 := {| settled := Fulfilled VUndefined;
                          alreadyResolved := false; reactions := [] |}]>
                 (<[d := {| settled := st; alreadyResolved := b;
                            reactions := [] |}]>
                    (<[a2 := {| settled := Fulfilled VUndefined;
                                alreadyResolved := false; reactions := [] |}]>
                       (<[r := {| settled := st; alreadyResolved := br;
                                  reactions := [] |}]>
                          (<[q := settled_cell st]> h)))) ++ extra;
       remainingElements := re;
       jobs := concat (map (reaction_job st) R);
       inflight := []; peripheral := answers cr dr dcr wr rr;
       calls := cl ++ replicate (length frames) (ReqRead c);
       invoked := inv; uncaught := unc |}.
Proof using st_final step_last.
  intros Htot Hne Hq Hr Hd Ha1 Ha2 ? ? ? ? ? ? ? ? ? ?.
  assert (q < length h) as Hlq by (by eapply lookup_lt_Some).
  assert (r < length h) as Hlr by (by eapply lookup_lt_Some).
  assert (d < length h) as Hld by (by eapply lookup_lt_Some).
  assert (a1 < length h) as Hl1 by (by eapply lookup_lt_Some).
  assert (a2 < length h) as Hl2 by (by eapply lookup_lt_Some).
  destruct (drain_to frames q [] [adoption r a2] h re cl inv unc
              cr dr dcr wr rr) as (n & extra & Hrun); [done..|].
  exists (n + 2), extra. rewrite run_add, Hrun. clear Hrun.
  cbn [map concat]. rewrite app_nil_r.
  rewrite <- (app_nil_r (reaction_job _ _)).
  erewrite run_step.
  2:{ apply (step_adopted _ r a2 [adoption d a1] br); [apply st_final| | |done].
      - rewrite lookup_app_l by (by rewrite length_insert).
        by rewrite list_lookup_insert_ne.
      - rewrite lookup_app_l by (by rewrite length_insert).
        by rewrite list_lookup_insert_ne. }
  cbn [map concat app]. rewrite app_nil_r.
  rewrite <- (app_nil_r (reaction_job _ _)).
  erewrite run_step.
  2:{ apply (step_adopted _ d a1 R b); [apply st_final| | |done].
      - rewrite !list_lookup_insert_ne by done.
        rewrite lookup_app_l by (by rewrite length_insert).
        by rewrite list_lookup_insert_ne.
      - rewrite !list_lookup_insert_ne by done.
        rewrite lookup_app_l by (by rewrite length_insert).
        by rewrite list_lookup_insert_ne. }
  cbn [run app]. f_equal.
  by rewrite !insert_app_l by (by rewrite !length_insert).
Qed.

End DrainTo.

End ReadTransactions.

Section ReadExtras.
Context `{Sodium}.

Lemma sessionKeys_after_receipt this frames :
  sessionKeys (after_receipt this frames) = sessionKeys this.
Proof. unfold after_receipt. by destruct (sessionKeys this) eqn:E. Qed.

Lemma a2cCounter_after_receipt this frames :
  a2cCounter (after_receipt this frames) =
  match sessionKeys this with
  | Some _ => (a2cCounter this + N.of_nat (length frames))%N
  | None => a2cCounter this
  end.
Proof. unfold after_receipt. by destruct (sessionKeys this). Qed.

Lemma after_receipt_currentOperation p this frames :
  after_receipt (set_currentOperation p this) frames
  = set_currentOperation p (after_receipt this frames).
Proof. unfold after_receipt. cbn. by destruct (sessionKeys this). Qed.

Lemma received_currentOperation p this frames :
  received (set_currentOperation p this) frames = received this frames.
Proof. by apply received_fields. Qed.

(** A run of the read closure that reads [frames] and then nothing. *)
Lemma run_read_ok c th frames ending rejected arg d b R h re cl inv unc
    cr dr dcr wr rr :
  Forall (fun d => 0 < length d) frames ->
  match ending with Some d => length d = 0 | None => True end ->
  (sessionKeys th <> None ->
   (a2cCounter th + N.of_nat (length frames) <= 4294967296)%N) ->
  h !! d = Some {| settled := Pending; alreadyResolved := b; reactions := R |} ->
  let res := Fulfilled (VBuffers (received th frames)) in
  exists n extra,
    run n {| this := th; heap := h; remainingElements := re;
             jobs := [JReaction (Some (HOp (OpRead c))) rejected arg d];
             inflight := [];
             peripheral := answers cr dr dcr wr
                             (ok_reads frames ++ (VUndefined, ending) :: rr);
             calls := cl; invoked := inv; uncaught := unc |} =
    {| this := after_receipt th frames;
       heap := <[d := {| settled := res; alreadyResolved := b;
                         reactions := [] |}]> h ++ extra;
       remainingElements := re;
       jobs := concat (map (reaction_job res) R);
       inflight := []; peripheral := answers cr dr dcr wr rr;
       calls := cl ++ replicate (S (length frames)) (ReqRead c);
       invoked := inv ++ [OpRead c]; uncaught := unc |}.
Proof.
  intros Hne Hend Hc Hd res.
  apply (run_read_closure c th (after_receipt th frames)
           (VUndefined, ending) frames res I); [|done|done|done].
  intros p R0 h1 re1 cl1 inv1 unc1 cr1 dr1 dcr1 wr1 rr1 Hp.
  by apply step_last_finish.
Qed.

(** X14 — [readCharacteristic] on a connection at rest, whether the
    operation before it succeeded or failed: the read closure is run
    exactly once; it reads until a read returns nothing, which makes one
    read more than there are frames, and the promise is fulfilled with the
    frames read, opened if there are session keys, [a2cCounter] moving on
    by one for each.  The connection is at rest again and the chain ends
    in the promise returned. *)
Theorem read_transaction (c : Characteristic) (frames : list Buffer)
    (ending : option Buffer) (st0 : pstate)
    (rest : list (value * option Buffer)) (m : machine) :
  jobs m = [] -> inflight m = [] ->
  promise_state (currentOperation (this m)) m = Some st0 ->
  st0 <> Pending ->
  Forall (fun d => 0 < length d) frames ->
  match ending with Some d => length d = 0 | None => True end ->
  (sessionKeys (this m) <> None ->
   (a2cCounter (this m) + N.of_nat (length frames) <= 4294967296)%N) ->
  readResults (peripheral m) = ok_reads frames ++ (VUndefined, ending) :: rest ->
  let start := readCharacteristic c m in
  exists p k,
    start.1 = Normal p
    /\ forall n, k <= n ->
       let m' := run n start.2 in
       quiescent m'
       /\ jobs m' = [] /\ inflight m' = []
       /\ promise_state p m'
          = Some (Fulfilled (VBuffers (received (this m) frames)))
       /\ this m' = set_currentOperation p (after_receipt (this m) frames)
       /\ invoked m' = invoked m ++ [OpRead c]
       /\ calls m' = calls m ++ replicate (S (length frames)) (ReqRead c)
       /\ readResults (peripheral m') = rest.
Proof.
  intros Hj Hi Hcur Hst Hne Hend Hc Hr start. subst start.
  destruct m as [th h re js infl [cr dr dcr wr rr] cl inv unc].
  unfold promise_state in Hcur.
  cbn [jobs inflight heap this peripheral readResults calls invoked]
    in Hj, Hi, Hcur, Hr, Hc |- *.
  subst js infl rr.
  destruct (h !! currentOperation th) as [cur|] eqn:Hcell; [|done].
  injection Hcur as Hs.
  assert (currentOperation th < length h) as Hlt by (by eapply lookup_lt_Some).
  unfold readCharacteristic, _queueOperation, catch_, get_this. msimpl.
  replace h with (h ++ []) by apply app_nil_r.
  rewrite (then_settled _ _ _ _ cur);
    [|cbn [heap]; by rewrite lookup_app_l by done|by rewrite Hs].
  rewrite Hs. mnorm.
  erewrite then_waiting; [|cbn [heap]; hnorm; reflexivity|done].
  mnorm. hnorm. cbn [alreadyResolved reactions new_cell fst snd].
  destruct st0 as [|v0|e0]; [done| |];
    cbn [reaction_job onFulfilled onRejected derived].
  - destruct (run_read_ok c (set_currentOperation (length h + 1) th)
                frames ending false v0 (length h + 0) false
                [{| onFulfilled := None; onRejected := Some (HOp (OpRead c));
                    derived := length h + 1 |}]
                (h ++ [{| settled := Pending; alreadyResolved := false;
                          reactions := [{| onFulfilled := None;
                                           onRejected := Some (HOp (OpRead c));
                                           derived := length h + 1 |}] |};
                       {| settled := Pending; alreadyResolved := false;
                          reactions := [] |}])
                re cl inv unc cr dr dcr wr rest Hne Hend Hc)
      as (n1 & extra & Hrun); [hnorm; reflexivity|].
    rewrite received_currentOperation in Hrun.
    eexists _, (n1 + 1). split; [reflexivity|]. intros n Hn.
    match goal with |- context [run n ?s] => assert (run (n1 + 1) s
       = {| this := after_receipt (set_currentOperation (length h + 1) th)
                      frames;
            heap := h ++ {| settled := Fulfilled
                                         (VBuffers (received th frames));
                            alreadyResolved := false; reactions := [] |}
                      :: {| settled := Fulfilled
                                         (VBuffers (received th frames));
                            alreadyResolved := false; reactions := [] |}
                      :: extra;
            remainingElements := re; jobs := []; inflight := [];
            peripheral := answers cr dr dcr wr rest;
            calls := cl ++ replicate (S (length frames)) (ReqRead c);
            invoked := inv ++ [OpRead c]; uncaught := unc |}) as E end.
    { rewrite run_add. rewrite_run Hrun. hnorm0.
      cbn [map concat reaction_job onFulfilled derived].
      erewrite run_step.
      2:{ apply step_pass_value; [by intros q|hnorm0; reflexivity]. }
      hnorm0. by cbn [map concat run]. }
    rewrite (run_rest (n1 + 1)); [|by rewrite E|exact Hn].
    rewrite E. unfold promise_state. mnorm. hnorm0.
    rewrite after_receipt_currentOperation. by repeat split.
  - destruct (run_read_ok c (set_currentOperation (length h + 1) th)
                frames ending true e0 (length h + 1) false []
                (h ++ [{| settled := Rejected e0; alreadyResolved := false;
                          reactions := [] |};
                       {| settled := Pending; alreadyResolved := false;
                          reactions := [] |}])
                re cl inv unc cr dr dcr wr rest Hne Hend Hc)
      as (n1 & extra & Hrun); [hnorm; reflexivity|].
    rewrite received_currentOperation in Hrun.
    eexists _, (S n1). split; [reflexivity|]. intros n Hn.
    match goal with |- context [run n ?s] => assert (run (S n1) s
       = {| this := after_receipt (set_currentOperation (length h + 1) th)
                      frames;
            heap := h ++ {| settled := Rejected e0; alreadyResolved := false;
                            reactions := [] |}
                      :: {| settled := Fulfilled
                                         (VBuffers (received th frames));
                            alreadyResolved := false; reactions := [] |}
                      :: extra;
            remainingElements := re; jobs := []; inflight := [];
            peripheral := answers cr dr dcr wr rest;
            calls := cl ++ replicate (S (length frames)) (ReqRead c);
            invoked := inv ++ [OpRead c]; uncaught := unc |}) as E end.
    { erewrite run_step by (apply step_pass_rejection; hnorm; reflexivity).
      hnorm. cbn [map concat reaction_job onRejected derived].
      rewrite_run Hrun. hnorm0. by cbn [map concat]. }
    rewrite (run_rest (S n1)); [|by rewrite E|exact Hn].
    rewrite E. unfold promise_state. mnorm. hnorm0.
    rewrite after_receipt_currentOperation. by repeat split.
Qed.

(** X15 — Two reads queued one after the other do not overlap: every
    read of the first operation is made before the first read of the
    second; each promise is fulfilled with the frames of its own
    operation, and with session keys the frames of the second are opened
    with the counter values that follow those of the first. *)
Theorem reads_in_order (c1 c2 : Characteristic)
    (frames1 frames2 : list Buffer) (ending1 ending2 : option Buffer)
    (v0 : value) (rest : list (value * option Buffer)) (m : machine) :
  jobs m = [] -> inflight m = [] ->
  promise_state (currentOperation (this m)) m = Some (Fulfilled v0) ->
  Forall (fun d => 0 < length d) frames1 ->
  Forall (fun d => 0 < length d) frames2 ->
  match ending1 with Some d => length d = 0 | None => True end ->
  match ending2 with Some d => length d = 0 | None => True end ->
  (sessionKeys (this m) <> None ->
   (a2cCounter (this m) + N.of_nat (length frames1 + length frames2)
    <= 4294967296)%N) ->
  readResults (peripheral m)
  = ok_reads frames1 ++ (VUndefined, ending1)
      :: ok_reads frames2 ++ (VUndefined, ending2) :: rest ->
  let first := readCharacteristic c1 m in
  let second := readCharacteristic c2 first.2 in
  exists p1 p2 k,
    first.1 = Normal p1 /\ second.1 = Normal p2
    /\ forall n, k <= n ->
       let m' := run n second.2 in
       quiescent m'
       /\ jobs m' = [] /\ inflight m' = []
       /\ promise_state p1 m'
          = Some (Fulfilled (VBuffers (received (this m) frames1)))
       /\ promise_state p2 m'
          = Some (Fulfilled
                    (VBuffers (received (after_receipt (this m) frames1)
                                 frames2)))
       /\ this m' = set_currentOperation p2
                      (after_receipt (after_receipt (this m) frames1) frames2)
       /\ invoked m' = invoked m ++ [OpRead c1; OpRead c2]
       /\ calls m' = calls m ++ replicate (S (length frames1)) (ReqRead c1)
                       ++ replicate (S (length frames2)) (ReqRead c2)
       /\ readResults (peripheral m') = rest.
Proof.
  intros Hj Hi Hcur Hne1 Hne2 Hend1 Hend2 Hc Hr first second.
  subst second first.
  destruct m as [th h re js infl [cr dr dcr wr rr] cl inv unc].
  unfold promise_state in Hcur.
  cbn [jobs inflight heap this peripheral readResults calls invoked]
    in Hj, Hi, Hcur, Hr, Hc |- *.
  subst js infl rr.
  destruct (h !! currentOperation th) as [cur|] eqn:Hcell; [|done].
  injection Hcur as Hs.
  assert (currentOperation th < length h) as Hlt by (by eapply lookup_lt_Some).
  unfold readCharacteristic, _queueOperation, catch_, get_this. msimpl.
  replace h with (h ++ []) by apply app_nil_r.
  rewrite (then_settled _ _ _ _ cur);
    [|cbn [heap]; by rewrite lookup_app_l by done|by rewrite Hs].
  rewrite Hs. mnorm.
  erewrite then_waiting; [|cbn [heap]; hnorm; reflexivity|done].
  mnorm. hnorm. cbn [alreadyResolved reactions new_cell fst snd].
  cbn [this currentOperation set_currentOperation].
  erewrite then_waiting; [|cbn [heap]; hnorm; reflexivity|done].
  mnorm. hnorm. cbn [alreadyResolved reactions new_cell fst snd].
  erewrite then_waiting; [|cbn [heap]; hnorm; reflexivity|done].
  mnorm. hnorm. cbn [alreadyResolved reactions new_cell fst snd].
  cbn [reaction_job onFulfilled onRejected derived app].
  change (set_currentOperation (length h + 3)
            (set_currentOperation (length h + 1) th))
    with (set_currentOperation (length h + 3) th).
  set (th1 := set_currentOperation (length h + 3) th).
  set (res1 := Fulfilled (VBuffers (received th1 frames1))).
  set (res2 := Fulfilled (VBuffers (received (after_receipt th1 frames1)
                                      frames2))).
  assert (sessionKeys th1 <> None ->
          (a2cCounter th1 + N.of_nat (length frames1) <= 4294967296)%N)
    as Hc1 by (intros Hk; specialize (Hc Hk); cbn; lia).
  assert (sessionKeys (after_receipt th1 frames1) <> None ->
          (a2cCounter (after_receipt th1 frames1)
           + N.of_nat (length frames2) <= 4294967296)%N) as Hc2.
  { rewrite sessionKeys_after_receipt, a2cCounter_after_receipt.
    intros Hk. specialize (Hc Hk). cbn in Hk |- *.
    destruct (sessionKeys th); [lia|done]. }
  destruct (run_read_ok c1 th1 frames1 ending1 false v0 (length h + 0) false
              [{| onFulfilled := None; onRejected := Some (HOp (OpRead c1));
                  derived := length h + 1 |}]
              (h ++ [{| settled := Pending; alreadyResolved := false;
                        reactions := [{| onFulfilled := None;
                                         onRejected := Some (HOp (OpRead c1));
                                         derived := length h + 1 |}] |};
                     {| settled := Pending; alreadyResolved := false;
                        reactions := [{| onFulfilled := Some (HOp (OpRead c2));
                                         onRejected := None;
                                         derived := length h + 2 |}] |};
                     {| settled := Pending; alreadyResolved := false;
                        reactions := [{| onFulfilled := None;
                                         onRejected := Some (HOp (OpRead c2));
                                         derived := length h + 3 |}] |};
                     new_cell])
              re cl inv unc cr dr dcr wr
              (ok_reads frames2 ++ (VUndefined, ending2) :: rest)
              Hne1 Hend1 Hc1)
    as (n1 & extra1 & Hrun1); [hnorm; reflexivity|].
  fold res1 in Hrun1.
  destruct (run_read_ok c2 (after_receipt th1 frames1) frames2 ending2
              false (VBuffers (received th1 frames1)) (length h + 2) false
              [{| onFulfilled := None; onRejected := Some (HOp (OpRead c2));
                  derived := length h + 3 |}]
              (h ++ {| settled := res1; alreadyResolved := false;
                       reactions := [] |}
                 :: {| settled := res1; alreadyResolved := false;
                       reactions := [] |}
                 :: {| settled := Pending; alreadyResolved := false;
                       reactions := [{| onFulfilled := None;
                                        onRejected := Some (HOp (OpRead c2));
                                        derived := length h + 3 |}] |}
                 :: new_cell :: extra1)
              re (cl ++ replicate (S (length frames1)) (ReqRead c1))
              (inv ++ [OpRead c1]) unc cr dr dcr wr rest Hne2 Hend2 Hc2)
    as (n2 & extra2 & Hrun2); [hnorm; reflexivity|].
  fold res2 in Hrun2.
  eexists _, _, (n1 + S (n2 + 1)). do 2 (split; [reflexivity|]).
  intros n Hn.
  match goal with |- context [run n ?s] => assert (run (n1 + S (n2 + 1)) s
     = {| this := after_receipt (after_receipt th1 frames1) frames2;
          heap := h ++ {| settled := res1; alreadyResolved := false;
                          reactions := [] |}
                    :: {| settled := res1; alreadyResolved := false;
                          reactions := [] |}
                    :: {| settled := res2; alreadyResolved := false;
                          reactions := [] |}
                    :: {| settled := res2; alreadyResolved := false;
                          reactions := [] |}
                    :: extra1 ++ extra2;
          remainingElements := re; jobs := []; inflight := [];
          peripheral := answers cr dr dcr wr rest;
          calls := (cl ++ replicate (S (length frames1)) (ReqRead c1))
                     ++ replicate (S (length frames2)) (ReqRead c2);
          invoked := (inv ++ [OpRead c1]) ++ [OpRead c2];
          uncaught := unc |}) as E end.
  { rewrite run_add. rewrite_run Hrun1. hnorm0.
    subst res1. cbn [map concat reaction_job onFulfilled derived].
    erewrite run_step.
    2:{ apply step_pass_value; [by intros q|hnorm0; reflexivity]. }
    hnorm0. cbn [map concat reaction_job onFulfilled derived].
    rewrite run_add. rewrite_run Hrun2. hnorm0.
    subst res2. cbn [map concat reaction_job onFulfilled derived].
    erewrite run_step.
    2:{ apply step_pass_value; [by intros q|hnorm0; reflexivity]. }
    hnorm0. by cbn [map concat run]. }
  rewrite (run_rest (n1 + S (n2 + 1))); [|by rewrite E|exact Hn].
  rewrite E. unfold promise_state. mnorm. hnorm0.
  subst res1 res2 th1.
  rewrite !after_receipt_currentOperation, !received_currentOperation.
  by repeat split.
Qed.

(** A run of the read closure that reads [frames] and then fails. *)
Lemma run_read_fails c th frames err data rejected arg d b R h re cl inv unc
    cr dr dcr wr rr :
  Forall (fun d => 0 < length d) frames ->
  truthy err = true ->
  h !! d = Some {| settled := Pending; alreadyResolved := b; reactions := R |} ->
  exists n extra,
    run n {| this := th; heap := h; remainingElements := re;
             jobs := [JReaction (Some (HOp (OpRead c))) rejected arg d];
             inflight := [];
             peripheral := answers cr dr dcr wr
                             (ok_reads frames ++ (err, data) :: rr);
             calls := cl; invoked := inv; uncaught := unc |} =
    {| this := th;
       heap := <[d := {| settled := Rejected err; alreadyResolved := b;
                         reactions := [] |}]> h ++ extra;
       remainingElements := re;
       jobs := concat (map (reaction_job (Rejected err)) R);
       inflight := []; peripheral := answers cr dr dcr wr rr;
       calls := cl ++ replicate (S (length frames)) (ReqRead c);
       invoked := inv ++ [OpRead c]; uncaught := unc |}.
Proof.
  intros Hne He Hd.
  apply (run_read_closure c th th (err, data) frames (Rejected err) I);
    [|done|done|done].
  intros p R0 h1 re1 cl1 inv1 unc1 cr1 dr1 dcr1 wr1 rr1 Hp.
  by apply step_last_error.
Qed.

(** X23 — A read that fails after some frames, on a connection at rest
    behind a success: the closure is run a second time and starts a new
    drain from nothing.  The frames read before the error are not in the
    result and, with session keys, were never opened: the second drain is
    opened with the counter values the first would have used. *)
Theorem read_retry_discards (c : Characteristic)
    (frames1 frames2 : list Buffer) (err : value) (data ending : option Buffer)
    (v0 : value) (rest : list (value * option Buffer)) (m : machine) :
  jobs m = [] -> inflight m = [] ->
  promise_state (currentOperation (this m)) m = Some (Fulfilled v0) ->
  Forall (fun d => 0 < length d) frames1 ->
  Forall (fun d => 0 < length d) frames2 ->
  truthy err = true ->
  match ending with Some d => length d = 0 | None => True end ->
  (sessionKeys (this m) <> None ->
   (a2cCounter (this m) + N.of_nat (length frames2) <= 4294967296)%N) ->
  readResults (peripheral m)
  = ok_reads frames1 ++ (err, data)
      :: ok_reads frames2 ++ (VUndefined, ending) :: rest ->
  let start := readCharacteristic c m in
  exists p k,
    start.1 = Normal p
    /\ forall n, k <= n ->
       let m' := run n start.2 in
       quiescent m'
       /\ jobs m' = [] /\ inflight m' = []
       /\ promise_state p m'
          = Some (Fulfilled (VBuffers (received (this m) frames2)))
       /\ this m' = set_currentOperation p (after_receipt (this m) frames2)
       /\ invoked m' = invoked m ++ [OpRead c; OpRead c]
       /\ calls m' = calls m ++ replicate (S (length frames1)) (ReqRead c)
                       ++ replicate (S (length frames2)) (ReqRead c)
       /\ readResults (peripheral m') = rest.
Proof.
  intros Hj Hi Hcur Hne1 Hne2 He Hend Hc Hr start. subst start.
  destruct m as [th h re js infl [cr dr dcr wr rr] cl inv unc].
  unfold promise_state in Hcur.
  cbn [jobs inflight heap this peripheral readResults calls invoked]
    in Hj, Hi, Hcur, Hr, Hc |- *.
  subst js infl rr.
  destruct (h !! currentOperation th) as [cur|] eqn:Hcell; [|done].
  injection Hcur as Hs.
  assert (currentOperation th < length h) as Hlt by (by eapply lookup_lt_Some).
  unfold readCharacteristic, _queueOperation, catch_, get_this. msimpl.
  replace h with (h ++ []) by apply app_nil_r.
  rewrite (then_settled _ _ _ _ cur);
    [|cbn [heap]; by rewrite lookup_app_l by done|by rewrite Hs].
  rewrite Hs. mnorm.
  erewrite then_waiting; [|cbn [heap]; hnorm; reflexivity|done].
  mnorm. hnorm. cbn [alreadyResolved reactions new_cell fst snd].
  cbn [reaction_job onFulfilled onRejected derived app].
  set (th1 := set_currentOperation (length h + 1) th).
  destruct (run_read_fails c th1 frames1 err data false v0 (length h + 0) false
              [{| onFulfilled := None; onRejected := Some (HOp (OpRead c));
                  derived := length h + 1 |}]
              (h ++ [{| settled := Pending; alreadyResolved := false;
                        reactions := [{| onFulfilled := None;
                                         onRejected := Some (HOp (OpRead c));
                                         derived := length h + 1 |}] |};
                     {| settled := Pending; alreadyResolved := false;
                        reactions := [] |}])
              re cl inv unc cr dr dcr wr
              (ok_reads frames2 ++ (VUndefined, ending) :: rest) Hne1 He)
    as (n1 & extra1 & Hrun1); [hnorm; reflexivity|].
  destruct (run_read_ok c th1 frames2 ending true err (length h + 1) false []
              (h ++ {| settled := Rejected err; alreadyResolved := false;
                       reactions := [] |}
                 :: {| settled := Pending; alreadyResolved := false;
                       reactions := [] |} :: extra1)
              re (cl ++ replicate (S (length frames1)) (ReqRead c))
              (inv ++ [OpRead c]) unc cr dr dcr wr rest Hne2 Hend Hc)
    as (n2 & extra2 & Hrun2); [hnorm; reflexivity|].
  eexists _, (n1 + n2). split; [reflexivity|]. intros n Hn.
  match goal with |- context [run n ?s] => assert (run (n1 + n2) s
     = {| this := after_receipt th1 frames2;
          heap := h ++ {| settled := Rejected err; alreadyResolved := false;
                          reactions := [] |}
                    :: {| settled := Fulfilled
                                       (VBuffers (received th1 frames2));
                          alreadyResolved := false; reactions := [] |}
                    :: extra1 ++ extra2;
          remainingElements := re; jobs := []; inflight := [];
          peripheral := answers cr dr dcr wr rest;
          calls := (cl ++ replicate (S (length frames1)) (ReqRead c))
                     ++ replicate (S (length frames2)) (ReqRead c);
          invoked := (inv ++ [OpRead c]) ++ [OpRead c];
          uncaught := unc |}) as E end.
  { rewrite run_add. rewrite_run Hrun1. hnorm0.
    cbn [map concat reaction_job onRejected derived app].
    rewrite_run Hrun2. hnorm0. by cbn [map concat]. }
  rewrite (run_rest (n1 + n2)); [|by rewrite E|exact Hn].
  rewrite E. unfold promise_state. mnorm. hnorm0.
  subst th1.
  rewrite !after_receipt_currentOperation, !received_currentOperation.
  by repeat split.
Qed.

End ReadExtras.

Section WriteExtras.
Context `{Sodium}.

(** A run of the write closure in which [_encryptPdus] throws: the
    promise of the job is rejected with what was thrown. *)
Lemma step_invoke_write_throws c pdus keys e th' rejected arg d b R js
    th h re infl per cl inv unc :
  sessionKeys th = Some keys ->
  _encryptPdus pdus th = (Throw e, th') ->
  h !! d = Some {| settled := Pending; alreadyResolved := b; reactions := R |} ->
  step {| this := th; heap := h; remainingElements := re;
          jobs := JReaction (Some (HOp (OpWrite c pdus))) rejected arg d :: js;
          inflight := infl; peripheral := per;
          calls := cl; invoked := inv; uncaught := unc |} =
  Some {| this := th';
          heap := <[d := {| settled := Rejected e; alreadyResolved := b;
                            reactions := [] |}]> h;
          remainingElements := re;
          jobs := js ++ concat (map (reaction_job (Rejected e)) R);
          inflight := infl; peripheral := per;
          calls := cl; invoked := inv ++ [OpWrite c pdus]; uncaught := unc |}.
Proof.
  intros Hk He Hd. unfold step. cbn [jobs run_job call_handler run_op].
  unfold get_this, on_this. msimpl. rewrite Hk. msimpl. rewrite He.
  msimpl. unfold settle. msimpl. rewrite Hd.
  by cbn [settled alreadyResolved reactions].
Qed.


End WriteExtras.

(** ** Writes

    [OpWrite] holds the PDUs [writeCharacteristic] was called with.  Line
    230 assigns the frames to the variable the closure reads them from, so
    a second run of the closure with session keys would start from the
    frames of the first.  What follows is about writes without session
    keys, and about writes with session keys whose closure runs once or
    throws before the assignment, where this makes no difference. *)

Section WriteSteps.
Context `{Sodium}.

Lemma write_calls_cons c p frame frames :
  write_calls c p (frame :: frames)
  = (ReqWrite c frame false, CbWrite (p + 0)) :: write_calls c (p + 1) frames.
Proof.
  unfold write_calls. cbn [imap]. f_equal.
  apply imap_ext. intros j x _. cbn. do 2 f_equal. lia.
Qed.

(** The [for] loop of [writeCharacteristic]: one promise and one write
    for each frame, all made before anything else happens. *)
Lemma write_each_spec c frames :
  forall th h re js infl per cl inv unc,
  write_each c frames
    {| this := th; heap := h; remainingElements := re; jobs := js;
       inflight := infl; peripheral := per; calls := cl; invoked := inv;
       uncaught := unc |} =
  (Normal (seq (length h) (length frames)),
   {| this := th; heap := h ++ replicate (length frames) new_cell;
      remainingElements := re; jobs := js;
      inflight := infl ++ write_calls c (length h) frames;
      peripheral := per;
      calls := cl ++ ((fun frame => ReqWrite c frame false) <$> frames);
      invoked := inv; uncaught := unc |}).
Proof.
  induction frames as [|f fs IH]; intros th h re js infl per cl inv unc.
  - cbn. by rewrite !app_nil_r.
  - cbn [write_each]. msimpl. mnorm. rewrite IH.
    rewrite write_calls_cons, length_app. cbn [length seq fmap list_fmap replicate].
    rewrite <- !app_assoc. cbn [app].
    replace (length h + 1) with (S (length h)) by lia.
    by rewrite Nat.add_0_r.
Qed.

Lemma all_elements_spec all k :
  forall hp done tl th re js infl per cl inv unc,
  all_elements all (seq (length hp + length done) k)
    {| this := th; heap := hp ++ done ++ replicate k new_cell ++ tl;
       remainingElements := re; jobs := js;
       inflight := infl; peripheral := per; calls := cl; invoked := inv;
       uncaught := unc |} =
  (Normal tt,
   {| this := th;
      heap := hp ++ done
                ++ ((fun j => waiting_cell
                                [element all (length hp + length done + k
                                              + length tl + j)])
                      <$> seq 0 k)
                ++ tl ++ replicate k new_cell;
      remainingElements := re; jobs := js;
      inflight := infl; peripheral := per; calls := cl; invoked := inv;
      uncaught := unc |}).
Proof.
  induction k as [|k IH]; intros hp done tl th re js infl per cl inv unc.
  - cbn. by rewrite !app_nil_r.
  - cbn [seq all_elements]. msimpl.
    erewrite then_waiting; cycle 1.
    { cbn [heap replicate app]. rewrite app_assoc.
      apply list_lookup_middle. by rewrite length_app. }
    { done. }
    mnorm. cbn [replicate app].
    change (alreadyResolved new_cell) with false.
    change (reactions new_cell) with (@nil reaction). cbn [app].
    match goal with
    | |- context [<[_ := ?w]> _] => set (W := w)
    end.
    assert (<[length hp + length done := W]>
              (hp ++ done ++ new_cell :: replicate k new_cell ++ tl)
              ++ [new_cell]
            = hp ++ (done ++ [W]) ++ replicate k new_cell
                 ++ (tl ++ [new_cell])) as ->.
    { rewrite (app_assoc hp done), <- length_app, insert_app_length.
      by repeat first [rewrite <- app_assoc|progress cbn [app]]. }
    replace (S (length hp + length done))
      with (length hp + length (done ++ [W]))
      by (rewrite length_app; cbn [length]; lia).
    rewrite IH. clear IH. do 3 f_equal.
    rewrite <- !app_assoc. cbn [app]. f_equal.
    cbn [fmap list_fmap app]. f_equal.
    + subst W. unfold waiting_cell, element. do 4 f_equal.
      rewrite !length_app. cbn [length].
      rewrite length_app, length_replicate. lia.
    + f_equal. rewrite <- fmap_S_seq, <- list_fmap_compose.
      apply list_fmap_ext. intros j x _. cbn. do 3 f_equal.
      rewrite !length_app. cbn [length]. lia.
Qed.


Lemma sending th pdus m :
  (sessionKeys th <> None ->
   _encryptPdus pdus th = (Normal (written th pdus), after_sending th pdus)) ->
  this m = th ->
  match sessionKeys th with
  | Some _ => on_this (_encryptPdus pdus)
  | None => mret pdus
  end m
  = (Normal (written th pdus), set_this (after_sending th pdus) m).
Proof.
  intros Hc Hth.
  destruct (sessionKeys th) as [keys|] eqn:Hk.
  - unfold on_this. rewrite Hth. by rewrite Hc.
  - unfold written, after_sending. rewrite Hk. subst th. by destruct m.
Qed.

(** What [_encryptPdus] returns while the counter lasts, and when there
    is nothing to seal. *)
Lemma encrypt_written th pdus :
  (sessionKeys th <> None ->
   (c2aCounter th + N.of_nat (length (concat (fragment <$> pdus)))
    <= 4294967296)%N) ->
  sessionKeys th <> None ->
  _encryptPdus pdus th = (Normal (written th pdus), after_sending th pdus).
Proof.
  intros Hc Hk. unfold written, after_sending.
  destruct (sessionKeys th) as [keys|] eqn:E; [|done].
  by rewrite (_encryptPdus_seal _ _ keys) by (done || by apply Hc).
Qed.

Lemma concat_fragment_empty pdus :
  Forall (fun pdu => length pdu = 0) pdus -> concat (fragment <$> pdus) = [].
Proof.
  induction 1 as [|pdu pdus Hpdu _ IH]; [done|].
  cbn [fmap list_fmap concat]. by rewrite fragment_empty, IH.
Qed.

Lemma written_empty th pdus :
  match sessionKeys th with
  | Some _ => Forall (fun pdu => length pdu = 0) pdus
  | None => pdus = []
  end ->
  written th pdus = [] /\ after_sending th pdus = th.
Proof.
  unfold written, after_sending. destruct (sessionKeys th); [|done].
  intros Hall. rewrite concat_fragment_empty by done. cbn [length seal_frames].
  by rewrite N.add_0_r, set_c2aCounter_id.
Qed.

Lemma encrypt_written_empty th pdus :
  Forall (fun pdu => length pdu = 0) pdus ->
  sessionKeys th <> None ->
  _encryptPdus pdus th = (Normal (written th pdus), after_sending th pdus).
Proof.
  intros Hall Hk. destruct (written_empty th pdus) as [-> ->].
  { by destruct (sessionKeys th). }
  unfold _encryptPdus. by apply encrypt_for_empty.
Qed.

Lemma step_invoke_write c pdus rejected arg d th h re cl inv unc per :
  let frames := written th pdus in
  let n := length frames in
  (sessionKeys th <> None ->
   _encryptPdus pdus th = (Normal (written th pdus), after_sending th pdus)) ->
  0 < n -> d < length h ->
  step {| this := th; heap := h; remainingElements := re;
          jobs := [JReaction (Some (HOp (OpWrite c pdus))) rejected arg d];
          inflight := []; peripheral := per;
          calls := cl; invoked := inv; uncaught := unc |} =
  Some {| this := after_sending th pdus;
          heap := h ++ ((fun j => waiting_cell
                                    [element (length h + n)
                                       (length h + n + 1 + j)])
                          <$> seq 0 n)
                    ++ [waiting_cell
                          [drain_reaction c (length h + n + 1 + n)]]
                    ++ replicate n new_cell ++ [new_cell];
          remainingElements := (length h + n, (n, n)) :: re;
          jobs := [JThenable d (length h + n + 1 + n)];
          inflight := write_calls c (length h) frames;
          peripheral := per;
          calls := cl ++ ((fun frame => ReqWrite c frame false) <$> frames);
          invoked := inv ++ [OpWrite c pdus]; uncaught := unc |}.
Proof.
  intros frames n Hc Hn Hd.
  unfold step. cbn [jobs run_job call_handler run_op].
  unfold get_this. msimpl.
  rewrite (sending th pdus) by done. mnorm. fold frames.
  rewrite write_each_spec. fold n. cbn [app].
  unfold Promise_all. msimpl. mnorm. rewrite length_seq.
  rewrite !length_app, length_replicate. rewrite <- app_assoc.
  pose proof (all_elements_spec (length h + n) n h [] [new_cell]) as E.
  cbn [app length] in E. rewrite Nat.add_0_r in E. rewrite E. clear E.
  rewrite decide_False by lia. msimpl.
  set (W := (fun j => waiting_cell
                        [element (length h + n) (length h + n + 1 + j)])
              <$> seq 0 n).
  assert (length W = n) as HW by (subst W; by rewrite length_fmap, length_seq).
  erewrite then_waiting; cycle 1.
  { cbn [heap]. rewrite lookup_app_plus. apply list_lookup_middle.
    by rewrite HW. }
  { done. }
  mnorm. unfold resolve_promise. rewrite decide_False.
  2:{ rewrite !length_app, HW. cbn [length]. lia. }
  msimpl. mnorm.
  assert (length (h ++ W ++ new_cell :: replicate n new_cell)
          = length h + n + 1 + n) as ->.
  { rewrite !length_app, HW. cbn [length]. rewrite length_replicate. lia. }
  rewrite insert_app_r.
  rewrite (insert_app_r_alt W) by lia. rewrite HW, Nat.sub_diag.
  cbn [insert list_insert]. change (alreadyResolved new_cell) with false.
  change (reactions new_cell) with (@nil reaction).
  by rewrite <- !app_assoc.
Qed.


(** The callback of a write: the promise of the write takes the
    outcome. *)
Lemma step_answer_write c frame p err R infl th h re cl inv unc cr dr dcr wr rr :
  h !! p = Some (waiting_cell R) ->
  step {| this := th; heap := h; remainingElements := re; jobs := [];
          inflight := (ReqWrite c frame false, CbWrite p) :: infl;
          peripheral := answers cr dr dcr (err :: wr) rr;
          calls := cl; invoked := inv; uncaught := unc |} =
  Some {| this := th;
          heap := <[p := settled_cell (outcome err)]> h;
          remainingElements := re;
          jobs := concat (map (reaction_job (outcome err)) R);
          inflight := infl; peripheral := answers cr dr dcr wr rr;
          calls := cl; invoked := inv; uncaught := unc |}.
Proof.
  intros Hp.
  assert (p < length h) as Hlt by (by eapply lookup_lt_Some).
  unfold step.
  cbn [jobs inflight peripheral answer answers connectResults
       disconnectResults discoverResults writeResults readResults].
  cbn [invoke_callback err_only arg_err]. unfold outcome.
  destruct (truthy err).
  - unfold rejectFn, lock, settle. msimpl. rewrite Hp.
    cbn [waiting_cell alreadyResolved settled reactions]. msimpl.
    rewrite list_lookup_insert_eq by done.
    cbn [alreadyResolved settled reactions]. msimpl.
    by rewrite list_insert_insert_eq.
  - unfold resolveFn, lock, resolve_promise, settle. msimpl. rewrite Hp.
    cbn [waiting_cell alreadyResolved settled reactions]. msimpl.
    rewrite list_lookup_insert_eq by done.
    cbn [alreadyResolved settled reactions]. msimpl.
    by rewrite list_insert_insert_eq.
Qed.

Lemma all_resolve_element_head all k total re m :
  remainingElements m = (all, (S k, total)) :: re ->
  all_resolve_element all m =
  (if decide (k = 0) then settle all (Fulfilled (VUndefArray total))
   else mret tt)
    (set_remainingElements ((all, (k, total)) :: re) m).
Proof.
  intros Hre. unfold all_resolve_element. rewrite Hre.
  cbn [list_find fst]. rewrite decide_True by done. cbn [fmap option_fmap option_map prod_map fst snd id].
  cbn [insert list_insert].
  replace (S k - 1) with k by lia.
  by destruct (decide (k = 0)).
Qed.

(** The element function of [Promise.all] while other promises are
    outstanding. *)
Lemma step_element_more all k total v dj b R js th h re infl per cl inv unc :
  h !! dj = Some {| settled := Pending; alreadyResolved := b; reactions := R |} ->
  step {| this := th; heap := h;
          remainingElements := (all, (S (S k), total)) :: re;
          jobs := JReaction (Some (HAllResolveElement all)) false v dj :: js;
          inflight := infl; peripheral := per;
          calls := cl; invoked := inv; uncaught := unc |} =
  Some {| this := th;
          heap := <[dj := {| settled := Fulfilled VUndefined;
                             alreadyResolved := b; reactions := [] |}]> h;
          remainingElements := (all, (S k, total)) :: re;
          jobs := js ++ concat (map (reaction_job (Fulfilled VUndefined)) R);
          inflight := infl; peripheral := per;
          calls := cl; invoked := inv; uncaught := unc |}.
Proof.
  intros Hd. unfold step. cbn [jobs run_job call_handler]. msimpl.
  rewrite (all_resolve_element_head all (S k) total re) by done.
  rewrite decide_False by done. msimpl. mnorm.
  unfold resolve_promise, settle. msimpl. rewrite Hd.
  by cbn [settled alreadyResolved reactions].
Qed.

(** The element function of [Promise.all] for the last promise
    outstanding: the promise of [Promise.all] is fulfilled. *)
Lemma step_element_last all total v dj b R ba Ra js th h re infl per cl inv unc :
  h !! dj = Some {| settled := Pending; alreadyResolved := b; reactions := R |} ->
  h !! all = Some {| settled := Pending; alreadyResolved := ba;
                     reactions := Ra |} ->
  all <> dj ->
  step {| this := th; heap := h;
          remainingElements := (all, (1, total)) :: re;
          jobs := JReaction (Some (HAllResolveElement all)) false v dj :: js;
          inflight := infl; peripheral := per;
          calls := cl; invoked := inv; uncaught := unc |} =
  Some {| this := th;
          heap := <[dj := {| settled := Fulfilled VUndefined;
                             alreadyResolved := b; reactions := [] |}]>
                    (<[all := {| settled := Fulfilled (VUndefArray total);
                                 alreadyResolved := ba; reactions := [] |}]> h);
          remainingElements := (all, (0, total)) :: re;
          jobs := (js ++ concat (map (reaction_job
                                        (Fulfilled (VUndefArray total))) Ra))
                    ++ concat (map (reaction_job (Fulfilled VUndefined)) R);
          inflight := infl; peripheral := per;
          calls := cl; invoked := inv; uncaught := unc |}.
Proof.
  intros Hd Ha Hne. unfold step. cbn [jobs run_job call_handler]. msimpl.
  rewrite (all_resolve_element_head all 0 total re) by done.
  rewrite decide_True by done. unfold settle at 1. msimpl. rewrite Ha.
  cbn [settled alreadyResolved reactions]. msimpl. mnorm.
  unfold resolve_promise, settle. msimpl.
  rewrite list_lookup_insert_ne, Hd by done.
  by cbn [settled alreadyResolved reactions].
Qed.

(** The handler of line 247: the first read of the drain is started. *)
Lemma step_invoke_drain c rejected arg d js th h re infl per cl inv unc :
  d < length h ->
  step {| this := th; heap := h; remainingElements := re;
          jobs := JReaction (Some (HDrain c)) rejected arg d :: js;
          inflight := infl; peripheral := per;
          calls := cl; invoked := inv; uncaught := unc |} =
  Some {| this := th; heap := h ++ [new_cell];
          remainingElements := re;
          jobs := js ++ [JThenable d (length h)];
          inflight := infl ++ [(ReqRead c, CbRead (length h) c [])];
          peripheral := per;
          calls := cl ++ [ReqRead c]; invoked := inv; uncaught := unc |}.
Proof.
  intros Hd. unfold step. cbn [jobs run_job call_handler].
  unfold _readCharacteristicInner, resolve_promise. msimpl.
  rewrite decide_False by lia. by msimpl.
Qed.


(** The acknowledgements of the writes, none of them an error: two turns
    for each, the callback and the element function of [Promise.all];
    after the last the promise of [Promise.all] is fulfilled and the
    handler of line 247 is due.  The store is [h ++ t]; the promises of
    the writes are the first [n] cells of [t], then comes the promise of
    [Promise.all], then the [n] promises its reactions derive. *)
Lemma ack_loop c th h re cl inv unc cr dr dcr rr n fs :
  forall i t wr,
  i + length fs = n -> 0 < length fs ->
  (forall j, i <= j < n ->
     t !! j = Some (waiting_cell
                      [element (length h + n) (length h + n + 1 + j)])) ->
  (forall j, i <= j < n -> t !! (n + 1 + j) = Some new_cell) ->
  t !! n = Some (waiting_cell [drain_reaction c (length h + n + 1 + n)]) ->
  exists t',
    run (2 * length fs)
      {| this := th; heap := h ++ t;
         remainingElements := (length h + n, (length fs, n)) :: re;
         jobs := []; inflight := write_calls c (length h + i) fs;
         peripheral := answers cr dr dcr
                         (replicate (length fs) VUndefined ++ wr) rr;
         calls := cl; invoked := inv; uncaught := unc |}
    = {| this := th; heap := h ++ t';
         remainingElements := (length h + n, (0, n)) :: re;
         jobs := [JReaction (Some (HDrain c)) false (VUndefArray n)
                    (length h + n + 1 + n)];
         inflight := [];
         peripheral := answers cr dr dcr wr rr;
         calls := cl; invoked := inv; uncaught := unc |}
    /\ length t' = length t
    /\ forall x, 2 * n < x -> t' !! x = t !! x.
Proof.
  induction fs as [|f fs IH]; intros i t wr Hi Hpos HP HD Hall;
    [cbn in Hpos; lia|].
  cbn [length] in Hi.
  replace (2 * length (f :: fs)) with (S (S (2 * length fs)))
    by (cbn [length]; lia).
  rewrite write_calls_cons. cbn [length replicate app].
  erewrite run_step.
  2:{ apply (step_answer_write _ _ _ _
               [element (length h + n) (length h + n + 1 + i)]).
      rewrite <- Nat.add_assoc, lookup_app_plus, Nat.add_0_r.
      apply HP. lia. }
  rewrite <- (Nat.add_assoc (length h) i 0), insert_app_r, Nat.add_0_r.
  cbn [outcome truthy map concat reaction_job element onFulfilled derived app].
  set (t1 := <[i := settled_cell (Fulfilled VUndefined)]> t).
  assert (length t1 = length t) as Hlen1 by apply length_insert.
  assert (t1 !! (n + 1 + i) = Some new_cell) as HDi.
  { subst t1. rewrite list_lookup_insert_ne by lia. apply HD. lia. }
  assert (t1 !! n = Some (waiting_cell
                            [drain_reaction c (length h + n + 1 + n)]))
    as Hall1.
  { subst t1. by rewrite list_lookup_insert_ne by lia. }
  destruct fs as [|f' fs].
  - (* the last acknowledgement *)
    cbn [length] in Hi |- *.
    erewrite run_step.
    2:{ apply (step_element_last _ _ _ _ false [] false
                 [drain_reaction c (length h + n + 1 + n)]).
        - replace (length h + n + 1 + i) with (length h + (n + 1 + i)) by lia.
          by rewrite lookup_app_plus.
        - by rewrite lookup_app_plus.
        - lia. }
    cbn [run Nat.mul Nat.add map concat reaction_job drain_reaction
         onFulfilled derived app].
    replace (length h + n + 1 + i) with (length h + (n + 1 + i)) by lia.
    rewrite !insert_app_r.
    eexists. split; [reflexivity|].
    split; [by rewrite !length_insert|].
    intros x Hx. subst t1. by rewrite !list_lookup_insert_ne by lia.
  - (* more to come *)
    erewrite run_step.
    2:{ apply (step_element_more _ _ _ _ _ false []).
        replace (length h + n + 1 + i) with (length h + (n + 1 + i)) by lia.
        by rewrite lookup_app_plus. }
    replace (length h + n + 1 + i) with (length h + (n + 1 + i)) by lia.
    rewrite insert_app_r. cbn [map concat app].
    set (t2 := <[n + 1 + i := {| settled := Fulfilled VUndefined;
                                 alreadyResolved := false;
                                 reactions := [] |}]> t1).
    destruct (IH (i + 1) t2 wr) as (t' & Hrun & Hlen & Hfar).
    + cbn [length] in Hi |- *. lia.
    + cbn [length]. lia.
    + intros j Hj. subst t2 t1. rewrite !list_lookup_insert_ne by lia.
      apply HP. lia.
    + intros j Hj. subst t2 t1. rewrite !list_lookup_insert_ne by lia.
      apply HD. lia.
    + subst t2. by rewrite list_lookup_insert_ne by lia.
    + rewrite <- (Nat.add_assoc (length h) i 1).
      rewrite_run Hrun. exists t'. split; [done|].
      split; [by rewrite Hlen; subst t2; rewrite length_insert|].
      intros x Hx. rewrite Hfar by done. subst t2 t1.
      by rewrite !list_lookup_insert_ne by lia.
Qed.

End WriteSteps.

Section WriteTransactions.
Context `{Sodium}.

Lemma take_prefix {A} (h t : list A) : take (length h) (h ++ t) = h.
Proof. by rewrite take_app_length. Qed.

(** A store that grew from [h ++ t] and whose cells of [h] are as they
    were but for one. *)
Lemma prefix_kept {A} (h l : list A) d x :
  length h <= length l ->
  take (length h) l = <[d := x]> h ->
  exists extra, l = <[d := x]> h ++ extra.
Proof.
  intros Hlen Htake. exists (drop (length h) l).
  by rewrite <- Htake, take_drop.
Qed.

(** A run of the write closure whose writes are all acknowledged, from
    the job that calls it to the settlement of that job's promise. *)
Lemma run_write_closure c pdus resp ending rejected arg d b R
    th h re cl inv unc cr dr dcr wr rr :
  let frames := written th pdus in
  let n := length frames in
  let th1 := after_sending th pdus in
  let res := Fulfilled (VBuffers (received th1 resp)) in
  (sessionKeys th <> None ->
   _encryptPdus pdus th = (Normal (written th pdus), after_sending th pdus)) ->
  0 < n ->
  Forall (fun d => 0 < length d) resp ->
  match ending with Some d => length d = 0 | None => True end ->
  (sessionKeys th <> None ->
   (a2cCounter th + N.of_nat (length resp) <= 4294967296)%N) ->
  h !! d = Some {| settled := Pending; alreadyResolved := b; reactions := R |} ->
  exists k extra,
    run k {| this := th; heap := h; remainingElements := re;
             jobs := [JReaction (Some (HOp (OpWrite c pdus))) rejected arg d];
             inflight := [];
             peripheral := answers cr dr dcr (replicate n VUndefined ++ wr)
                             (ok_reads resp ++ (VUndefined, ending) :: rr);
             calls := cl; invoked := inv; uncaught := unc |} =
    {| this := after_receipt th1 resp;
       heap := <[d := {| settled := res; alreadyResolved := b;
                         reactions := [] |}]> h ++ extra;
       remainingElements := (length h + n, (0, n)) :: re;
       jobs := concat (map (reaction_job res) R);
       inflight := []; peripheral := answers cr dr dcr wr rr;
       calls := (cl ++ ((fun frame => ReqWrite c frame false) <$> frames))
                  ++ replicate (S (length resp)) (ReqRead c);
       invoked := inv ++ [OpWrite c pdus]; uncaught := unc |}.
Proof.
  intros frames n th1 res Hc Hn Hne Hend Ha Hd.
  assert (d < length h) as Hld by (by eapply lookup_lt_Some).
  set (L := length h).
  set (W := (fun j => waiting_cell [element (L + n) (L + n + 1 + j)])
              <$> seq 0 n).
  assert (length W = n) as HW by (subst W; by rewrite length_fmap, length_seq).
  set (r := L + n + 1 + n).
  set (t0 := W ++ [waiting_cell [drain_reaction c r]]
               ++ replicate n new_cell ++ [new_cell]).
  assert (length t0 = n + 1 + n + 1) as Ht0.
  { subst t0. rewrite !length_app, HW, length_replicate. cbn [length]. lia. }
  set (a1 := L + (n + 1 + n + 1)).
  set (t1 := <[n + 1 + n := waiting_cell [adoption d a1]]> t0 ++ [new_cell]).
  assert (length t1 = n + 1 + n + 2) as Ht1.
  { subst t1. rewrite length_app, length_insert, Ht0. cbn [length]. lia. }
  assert (forall j, j < n ->
            t0 !! j = Some (waiting_cell
                              [element (L + n) (L + n + 1 + j)])) as Ht0P.
  { intros j Hj. subst t0. rewrite lookup_app_l by lia.
    subst W. rewrite list_lookup_fmap, lookup_seq_lt by done. done. }
  assert (t0 !! n = Some (waiting_cell [drain_reaction c r])) as Ht0A.
  { subst t0. by apply list_lookup_middle. }
  assert (forall j, j < n -> t0 !! (n + 1 + j) = Some new_cell) as Ht0D.
  { intros j Hj. subst t0. rewrite lookup_app_r by lia.
    rewrite HW. replace (n + 1 + j - n) with (S j) by lia.
    rewrite (lookup_app_r [_]) by (cbn [length]; lia). cbn [length].
    replace (S j - 1) with j by lia.
    rewrite lookup_app_l by (rewrite length_replicate; lia).
    by apply lookup_replicate_2. }
  assert (t0 !! (n + 1 + n) = Some new_cell) as Ht0R.
  { subst t0. rewrite lookup_app_r by lia.
    rewrite HW. replace (n + 1 + n - n) with (S n) by lia.
    rewrite (lookup_app_r [_]) by (cbn [length]; lia). cbn [length].
    replace (S n - 1) with n by lia.
    apply list_lookup_middle. by rewrite length_replicate. }
  (* the closure is run *)
  pose proof (step_invoke_write c pdus rejected arg d th h re cl inv unc
                (answers cr dr dcr (replicate n VUndefined ++ wr)
                   (ok_reads resp ++ (VUndefined, ending) :: rr))
                Hc Hn Hld) as E1.
  fold frames n L W r th1 in E1.
  change (W ++ [waiting_cell [drain_reaction c r]]
            ++ replicate n new_cell ++ [new_cell]) with t0 in E1.
  (* the promise of the job follows the promise the closure returned *)
  assert (step {| this := th1; heap := h ++ t0;
                  remainingElements := (L + n, (n, n)) :: re;
                  jobs := [JThenable d r];
                  inflight := write_calls c L frames;
                  peripheral := answers cr dr dcr (replicate n VUndefined ++ wr)
                                  (ok_reads resp ++ (VUndefined, ending) :: rr);
                  calls := cl ++ ((fun frame => ReqWrite c frame false)
                                    <$> frames);
                  invoked := inv ++ [OpWrite c pdus]; uncaught := unc |}
          = Some {| this := th1; heap := h ++ t1;
                    remainingElements := (L + n, (n, n)) :: re;
                    jobs := [];
                    inflight := write_calls c L frames;
                    peripheral := answers cr dr dcr
                                    (replicate n VUndefined ++ wr)
                                    (ok_reads resp
                                       ++ (VUndefined, ending) :: rr);
                    calls := cl ++ ((fun frame => ReqWrite c frame false)
                                      <$> frames);
                    invoked := inv ++ [OpWrite c pdus]; uncaught := unc |})
    as E2.
  { erewrite step_thenable.
    2:{ subst r. replace (L + n + 1 + n) with (L + (n + 1 + n)) by lia.
        subst L. rewrite lookup_app_plus. exact Ht0R. }
    do 2 f_equal. subst r t1 a1.
    replace (L + n + 1 + n) with (L + (n + 1 + n)) by lia.
    subst L. rewrite insert_app_r, length_app, Ht0.
    by rewrite <- app_assoc. }
  (* the acknowledgements *)
  destruct (ack_loop c th1 h re
              (cl ++ ((fun frame => ReqWrite c frame false) <$> frames))
              (inv ++ [OpWrite c pdus]) unc cr dr dcr
              (ok_reads resp ++ (VUndefined, ending) :: rr) n frames
              0 t1 wr) as (t2 & E3 & Ht2 & Hfar); [done|done| | | |].
  { intros j Hj. subst t1. rewrite lookup_app_l by (rewrite length_insert; lia).
    rewrite list_lookup_insert_ne by lia. apply Ht0P. lia. }
  { intros j Hj. subst t1. rewrite lookup_app_l by (rewrite length_insert; lia).
    rewrite list_lookup_insert_ne by lia. apply Ht0D. lia. }
  { subst t1. rewrite lookup_app_l by (rewrite length_insert; lia).
    by rewrite list_lookup_insert_ne by lia. }
  fold n L r in E3. rewrite Nat.add_0_r in E3.
  assert (t2 !! (n + 1 + n) = Some (waiting_cell [adoption d a1])) as Ht2R.
  { rewrite Hfar by lia. subst t1.
    rewrite lookup_app_l by (rewrite length_insert; lia).
    apply list_lookup_insert_eq. lia. }
  assert (t2 !! (n + 1 + n + 1) = Some new_cell) as Ht2A.
  { rewrite Hfar by lia. subst t1.
    rewrite lookup_app_r by (rewrite length_insert; lia).
    rewrite length_insert, Ht0. by rewrite Nat.sub_diag. }
  (* the drain *)
  assert (sessionKeys th1 <> None ->
          (a2cCounter th1 + N.of_nat (length resp) <= 4294967296)%N) as Ha1.
  { subst th1. unfold after_sending.
    destruct (sessionKeys th) eqn:Hk; [|done]. intros _. cbn. by apply Ha. }
  set (q := L + (n + 1 + n + 2)).
  set (a2 := L + (n + 1 + n + 3)).
  set (t3 := <[n + 1 + n + 2 := waiting_cell [adoption r a2]]>
               (t2 ++ [new_cell]) ++ [new_cell]).
  destruct (drain_settle c th1 (after_receipt th1 resp) (VUndefined, ending)
              resp res I
              (fun p R0 h1 re1 cl1 inv1 unc1 cr1 dr1 dcr1 wr1 rr1 Hp =>
                 step_last_finish c th1 ending p resp R0 h1 re1 cl1 inv1 unc1
                   cr1 dr1 dcr1 wr1 rr1 Ha1 Hend Hp)
              resp q r a2 d a1 false b R (h ++ t3)
              ((L + n, (0, n)) :: re)
              ((cl ++ ((fun frame => ReqWrite c frame false) <$> frames))
                 ++ [ReqRead c])
              (inv ++ [OpWrite c pdus]) unc cr dr dcr wr rr)
    as (k & extra & E4); [done|done|..].
  { subst q t3 L. rewrite lookup_app_plus.
    rewrite lookup_app_l by (rewrite length_insert, length_app, Ht2, Ht1;
                             cbn [length]; lia).
    apply list_lookup_insert_eq. rewrite length_app, Ht2, Ht1. cbn [length]. lia. }
  { subst r t3. replace (L + n + 1 + n) with (L + (n + 1 + n)) by lia.
    subst L. rewrite lookup_app_plus.
    rewrite lookup_app_l by (rewrite length_insert, length_app, Ht2, Ht1;
                             cbn [length]; lia).
    rewrite list_lookup_insert_ne by lia.
    rewrite lookup_app_l by (rewrite Ht2, Ht1; lia). exact Ht2R. }
  { by rewrite lookup_app_l. }
  { subst a1 t3 L. rewrite lookup_app_plus.
    rewrite lookup_app_l by (rewrite length_insert, length_app, Ht2, Ht1;
                             cbn [length]; lia).
    rewrite list_lookup_insert_ne by lia.
    rewrite lookup_app_l by (rewrite Ht2, Ht1; lia). exact Ht2A. }
  { subst a2 t3 L. rewrite lookup_app_plus.
    rewrite lookup_app_r by (rewrite length_insert, length_app, Ht2, Ht1;
                             cbn [length]; lia).
    rewrite length_insert, length_app, Ht2, Ht1. cbn [length].
    by replace (n + 1 + n + 3 - (n + 1 + n + 2 + 1)) with 0 by lia. }
  all: try (subst q r a1 a2 L; lia).
  assert (length t3 = n + 1 + n + 4) as Ht3.
  { subst t3. rewrite length_app, length_insert, length_app, Ht2, Ht1.
    cbn [length]. lia. }
  assert (step {| this := th1; heap := h ++ t2;
                  remainingElements := (L + n, (0, n)) :: re;
                  jobs := [JReaction (Some (HDrain c)) false (VUndefArray n) r];
                  inflight := [];
                  peripheral := answers cr dr dcr wr
                                  (ok_reads resp ++ (VUndefined, ending) :: rr);
                  calls := cl ++ ((fun frame => ReqWrite c frame false)
                                    <$> frames);
                  invoked := inv ++ [OpWrite c pdus]; uncaught := unc |}
          = Some {| this := th1; heap := h ++ (t2 ++ [new_cell]);
                    remainingElements := (L + n, (0, n)) :: re;
                    jobs := [JThenable r q];
                    inflight := [(ReqRead c, CbRead q c [])];
                    peripheral := answers cr dr dcr wr
                                    (ok_reads resp
                                       ++ (VUndefined, ending) :: rr);
                    calls := (cl ++ ((fun frame => ReqWrite c frame false)
                                       <$> frames)) ++ [ReqRead c];
                    invoked := inv ++ [OpWrite c pdus]; uncaught := unc |})
    as E5.
  { rewrite step_invoke_drain
      by (rewrite length_app, Ht2, Ht1; subst r L; lia).
    cbn [app]. rewrite length_app, Ht2, Ht1. fold L. fold q.
    by rewrite <- app_assoc. }
  assert (step {| this := th1; heap := h ++ (t2 ++ [new_cell]);
                  remainingElements := (L + n, (0, n)) :: re;
                  jobs := [JThenable r q];
                  inflight := [(ReqRead c, CbRead q c [])];
                  peripheral := answers cr dr dcr wr
                                  (ok_reads resp ++ (VUndefined, ending) :: rr);
                  calls := (cl ++ ((fun frame => ReqWrite c frame false)
                                     <$> frames)) ++ [ReqRead c];
                  invoked := inv ++ [OpWrite c pdus]; uncaught := unc |}
          = Some {| this := th1; heap := h ++ t3;
                    remainingElements := (L + n, (0, n)) :: re;
                    jobs := [];
                    inflight := [(ReqRead c, CbRead q c [])];
                    peripheral := answers cr dr dcr wr
                                    (ok_reads resp
                                       ++ (VUndefined, ending) :: rr);
                    calls := (cl ++ ((fun frame => ReqWrite c frame false)
                                       <$> frames)) ++ [ReqRead c];
                    invoked := inv ++ [OpWrite c pdus]; uncaught := unc |})
    as E6.
  { erewrite (step_thenable r q []).
    2:{ subst q L. rewrite lookup_app_plus.
        rewrite lookup_app_r by (rewrite Ht2, Ht1; lia).
        rewrite Ht2, Ht1. by rewrite Nat.sub_diag. }
    do 2 f_equal. subst q t3 a2 L.
    rewrite insert_app_r, !length_app, Ht2, Ht1. cbn [length app].
    rewrite <- app_assoc.
    by replace (n + 1 + n + 2 + 1) with (n + 1 + n + 3) by lia. }
  match type of E4 with
  | _ = {| this := _; heap := ?F; remainingElements := _; jobs := _;
           inflight := _; peripheral := _; calls := _; invoked := _;
           uncaught := _ |} =>
    destruct (prefix_kept h F d
                {| settled := res; alreadyResolved := b; reactions := [] |})
      as (extra' & HF)
  end.
  { rewrite length_app, !length_insert, length_app. lia. }
  { rewrite take_app_le by (rewrite !length_insert, length_app; lia).
    rewrite take_insert_ge by (subst a1 L; lia).
    rewrite take_insert_lt by done.
    rewrite !take_insert_ge by (subst a2 r q L; lia).
    by rewrite take_app_length. }
  exists (S (S (2 * n + S (S k)))), extra'.
  erewrite run_step by exact E1.
  erewrite run_step by exact E2.
  rewrite run_add. rewrite_run E3.
  erewrite run_step by exact E5.
  erewrite run_step by exact E6.
  rewrite_run E4. rewrite HF.
  by rewrite <- !app_assoc.
Qed.


(** A run of the write closure with nothing to write: [Promise.all] of
    no promise is fulfilled at once, and the handler of line 247 is due
    before the promise of the job follows the promise the closure
    returned. *)
Lemma step_invoke_write_nothing c pdus rejected arg d th h re cl inv unc per :
  (sessionKeys th <> None ->
   _encryptPdus pdus th = (Normal (written th pdus), after_sending th pdus)) ->
  written th pdus = [] -> d < length h ->
  step {| this := th; heap := h; remainingElements := re;
          jobs := [JReaction (Some (HOp (OpWrite c pdus))) rejected arg d];
          inflight := []; peripheral := per;
          calls := cl; invoked := inv; uncaught := unc |} =
  Some {| this := after_sending th pdus;
          heap := h ++ [{| settled := Fulfilled (VUndefArray 0);
                           alreadyResolved := false; reactions := [] |};
                        new_cell];
          remainingElements := (length h, (0, 0)) :: re;
          jobs := [JReaction (Some (HDrain c)) false (VUndefArray 0)
                     (length h + 1);
                   JThenable d (length h + 1)];
          inflight := []; peripheral := per;
          calls := cl; invoked := inv ++ [OpWrite c pdus]; uncaught := unc |}.
Proof.
  intros Hc Hw Hd.
  unfold step. cbn [jobs run_job call_handler run_op].
  unfold get_this. msimpl.
  rewrite (sending th pdus) by done. mnorm. rewrite Hw.
  cbn [write_each]. msimpl.
  unfold Promise_all. msimpl. mnorm. cbn [length all_elements]. msimpl.
  rewrite decide_True by done. unfold settle at 1. msimpl.
  rewrite lookup_app_length. cbn [new_cell settled alreadyResolved reactions].
  msimpl. mnorm. rewrite insert_app_length.
  erewrite then_settled; [|cbn [heap]; by apply lookup_app_length|done].
  mnorm. cbn [settled reaction_job onFulfilled derived map concat app].
  unfold resolve_promise. rewrite length_app. cbn [length].
  rewrite decide_False by lia. msimpl. mnorm.
  by rewrite <- app_assoc.
Qed.

Lemma run_write_nothing c pdus resp ending rejected arg d b R
    th h re cl inv unc cr dr dcr wr rr :
  let th1 := after_sending th pdus in
  let res := Fulfilled (VBuffers (received th1 resp)) in
  (sessionKeys th <> None ->
   _encryptPdus pdus th = (Normal (written th pdus), after_sending th pdus)) ->
  written th pdus = [] ->
  Forall (fun d => 0 < length d) resp ->
  match ending with Some d => length d = 0 | None => True end ->
  (sessionKeys th <> None ->
   (a2cCounter th + N.of_nat (length resp) <= 4294967296)%N) ->
  h !! d = Some {| settled := Pending; alreadyResolved := b; reactions := R |} ->
  exists k extra,
    run k {| this := th; heap := h; remainingElements := re;
             jobs := [JReaction (Some (HOp (OpWrite c pdus))) rejected arg d];
             inflight := [];
             peripheral := answers cr dr dcr wr
                             (ok_reads resp ++ (VUndefined, ending) :: rr);
             calls := cl; invoked := inv; uncaught := unc |} =
    {| this := after_receipt th1 resp;
       heap := <[d := {| settled := res; alreadyResolved := b;
                         reactions := [] |}]> h ++ extra;
       remainingElements := (length h, (0, 0)) :: re;
       jobs := concat (map (reaction_job res) R);
       inflight := []; peripheral := answers cr dr dcr wr rr;
       calls := cl ++ replicate (S (length resp)) (ReqRead c);
       invoked := inv ++ [OpWrite c pdus]; uncaught := unc |}.
Proof.
  intros th1 res Hc Hw Hne Hend Ha Hd.
  assert (d < length h) as Hld by (by eapply lookup_lt_Some).
  assert (sessionKeys th1 <> None ->
          (a2cCounter th1 + N.of_nat (length resp) <= 4294967296)%N) as Ha1.
  { subst th1. unfold after_sending.
    destruct (sessionKeys th) eqn:Hk; [|done]. intros _. cbn. by apply Ha. }
  set (all0 := {| settled := Fulfilled (VUndefArray 0);
                  alreadyResolved := false; reactions := [] |}).
  destruct (drain_settle c th1 (after_receipt th1 resp) (VUndefined, ending)
              resp res I
              (fun p R0 h1 re1 cl1 inv1 unc1 cr1 dr1 dcr1 wr1 rr1 Hp =>
                 step_last_finish c th1 ending p resp R0 h1 re1 cl1 inv1 unc1
                   cr1 dr1 dcr1 wr1 rr1 Ha1 Hend Hp)
              resp (length h + 2) (length h + 1) (length h + 4) d
              (length h + 3) false b R
              (h ++ [all0;
                     waiting_cell [adoption d (length h + 3)];
                     waiting_cell [adoption (length h + 1) (length h + 4)];
                     new_cell; new_cell])
              ((length h, (0, 0)) :: re) (cl ++ [ReqRead c])
              (inv ++ [OpWrite c pdus]) unc cr dr dcr wr rr)
    as (k & extra & E4); [done|done|hnorm; reflexivity|hnorm; reflexivity
                          |by rewrite lookup_app_l
                          |hnorm; reflexivity|hnorm; reflexivity|lia..|].
  match type of E4 with
  | _ = {| this := _; heap := ?F; remainingElements := _; jobs := _;
           inflight := _; peripheral := _; calls := _; invoked := _;
           uncaught := _ |} =>
    destruct (prefix_kept h F d
                {| settled := res; alreadyResolved := b; reactions := [] |})
      as (extra' & HF)
  end.
  { rewrite length_app, !length_insert, length_app. lia. }
  { rewrite take_app_le by (rewrite !length_insert, length_app; lia).
    rewrite take_insert_ge by lia.
    rewrite take_insert_lt by done.
    rewrite !take_insert_ge by lia.
    by rewrite take_app_length. }
  exists (S (S (S (S k)))), extra'.
  erewrite run_step
    by (by apply step_invoke_write_nothing).
  fold th1 all0.
  mstep step_invoke_drain. hnorm0.
  erewrite run_step.
  2:{ apply (step_thenable _ _ []). hnorm0. reflexivity. }
  hnorm0.
  erewrite run_step.
  2:{ apply (step_thenable _ _ []). hnorm0. reflexivity. }
  hnorm0.
  rewrite_run E4. rewrite HF.
  by rewrite <- !app_assoc.
Qed.


Lemma run_write_ok c pdus resp ending rejected arg d b R
    th h re cl inv unc cr dr dcr wr rr :
  let frames := written th pdus in
  let n := length frames in
  let th1 := after_sending th pdus in
  let res := Fulfilled (VBuffers (received th1 resp)) in
  (sessionKeys th <> None ->
   _encryptPdus pdus th = (Normal (written th pdus), after_sending th pdus)) ->
  Forall (fun d => 0 < length d) resp ->
  match ending with Some d => length d = 0 | None => True end ->
  (sessionKeys th <> None ->
   (a2cCounter th + N.of_nat (length resp) <= 4294967296)%N) ->
  h !! d = Some {| settled := Pending; alreadyResolved := b; reactions := R |} ->
  exists k extra re',
    run k {| this := th; heap := h; remainingElements := re;
             jobs := [JReaction (Some (HOp (OpWrite c pdus))) rejected arg d];
             inflight := [];
             peripheral := answers cr dr dcr (replicate n VUndefined ++ wr)
                             (ok_reads resp ++ (VUndefined, ending) :: rr);
             calls := cl; invoked := inv; uncaught := unc |} =
    {| this := after_receipt th1 resp;
       heap := <[d := {| settled := res; alreadyResolved := b;
                         reactions := [] |}]> h ++ extra;
       remainingElements := re';
       jobs := concat (map (reaction_job res) R);
       inflight := []; peripheral := answers cr dr dcr wr rr;
       calls := cl ++ ((fun frame => ReqWrite c frame false) <$> frames)
                  ++ replicate (S (length resp)) (ReqRead c);
       invoked := inv ++ [OpWrite c pdus]; uncaught := unc |}.
Proof.
  intros frames n th1 res Hc Hne Hend Ha Hd.
  destruct (decide (n = 0)) as [Hz|Hnz].
  - assert (written th pdus = []) as Hw by (by apply nil_length_inv).
    destruct (run_write_nothing c pdus resp ending rejected arg d b R
                th h re cl inv unc cr dr dcr wr rr Hc Hw Hne Hend Ha Hd)
      as (k & extra & E).
    exists k, extra, ((length h, (0, 0)) :: re).
    subst frames. rewrite Hz, Hw. exact E.
  - assert (0 < length (written th pdus)) as Hpos
      by (subst n frames; lia).
    destruct (run_write_closure c pdus resp ending rejected arg d b R
                th h re cl inv unc cr dr dcr wr rr Hc Hpos Hne Hend Ha Hd)
      as (k & extra & E).
    exists k, extra, ((length h + n, (0, n)) :: re).
    rewrite <- app_assoc in E. exact E.
Qed.

Lemma after_sending_currentOperation p this pdus :
  after_sending (set_currentOperation p this) pdus
  = set_currentOperation p (after_sending this pdus).
Proof. unfold after_sending. cbn. by destruct (sessionKeys this). Qed.

(** [writeCharacteristic] on a connection at rest when every write is
    acknowledged. *)
Lemma write_at_rest (c : Characteristic) (pdus resp : list Buffer)
    (ending : option Buffer) (st0 : pstate) (writes : list value)
    (rest : list (value * option Buffer)) (m : machine) :
  let frames := written (this m) pdus in
  let sent := after_sending (this m) pdus in
  jobs m = [] -> inflight m = [] ->
  promise_state (currentOperation (this m)) m = Some st0 ->
  st0 <> Pending ->
  (forall p, sessionKeys (this m) <> None ->
     _encryptPdus pdus (set_currentOperation p (this m))
     = (Normal (written (set_currentOperation p (this m)) pdus),
        after_sending (set_currentOperation p (this m)) pdus)) ->
  (sessionKeys (this m) <> None ->
   (a2cCounter (this m) + N.of_nat (length resp) <= 4294967296)%N) ->
  Forall (fun d => 0 < length d) resp ->
  match ending with Some d => length d = 0 | None => True end ->
  writeResults (peripheral m)
  = replicate (length frames) VUndefined ++ writes ->
  readResults (peripheral m) = ok_reads resp ++ (VUndefined, ending) :: rest ->
  let start := writeCharacteristic c pdus m in
  exists p k,
    start.1 = Normal p
    /\ forall n, k <= n ->
       let m' := run n start.2 in
       quiescent m'
       /\ jobs m' = [] /\ inflight m' = []
       /\ promise_state p m' = Some (Fulfilled (VBuffers (received sent resp)))
       /\ this m' = set_currentOperation p (after_receipt sent resp)
       /\ invoked m' = invoked m ++ [OpWrite c pdus]
       /\ calls m' = calls m
                       ++ ((fun frame => ReqWrite c frame false) <$> frames)
                       ++ replicate (S (length resp)) (ReqRead c)
       /\ writeResults (peripheral m') = writes
       /\ readResults (peripheral m') = rest.
Proof.
  intros frames sent Hj Hi Hcur Hst Hc Ha Hne Hend Hw Hr start.
  subst start frames sent.
  destruct m as [th h re js infl [cr dr dcr wr rr] cl inv unc].
  unfold promise_state in Hcur.
  cbn [jobs inflight heap this peripheral readResults writeResults calls
       invoked] in Hj, Hi, Hcur, Hr, Hw, Hc, Ha |- *.
  subst js infl rr wr.
  destruct (h !! currentOperation th) as [cur|] eqn:Hcell; [|done].
  injection Hcur as Hs.
  assert (currentOperation th < length h) as Hlt by (by eapply lookup_lt_Some).
  unfold writeCharacteristic, _queueOperation, catch_, get_this. msimpl.
  replace h with (h ++ []) by apply app_nil_r.
  rewrite (then_settled _ _ _ _ cur);
    [|cbn [heap]; by rewrite lookup_app_l by done|by rewrite Hs].
  rewrite Hs. mnorm.
  erewrite then_waiting; [|cbn [heap]; hnorm; reflexivity|done].
  mnorm. hnorm. cbn [alreadyResolved reactions new_cell fst snd].
  set (th0 := set_currentOperation (length h + 1) th).
  change (written th pdus) with (written th0 pdus).
  destruct st0 as [|v0|e0]; [done| |];
    cbn [reaction_job onFulfilled onRejected derived].
  - destruct (run_write_ok c pdus resp ending false v0 (length h + 0) false
                [{| onFulfilled := None;
                    onRejected := Some (HOp (OpWrite c pdus));
                    derived := length h + 1 |}]
                th0
                (h ++ [{| settled := Pending; alreadyResolved := false;
                          reactions := [{| onFulfilled := None;
                                           onRejected :=
                                             Some (HOp (OpWrite c pdus));
                                           derived := length h + 1 |}] |};
                       {| settled := Pending; alreadyResolved := false;
                          reactions := [] |}])
                re cl inv unc cr dr dcr writes rest (Hc _) Hne Hend Ha)
      as (n1 & extra & re' & Hrun); [hnorm; reflexivity|].
    eexists _, (n1 + 1). split; [reflexivity|]. intros n Hn.
    match type of Hrun with run _ ?s = _ =>
      match goal with |- context [run n ?s'] => change s' with s end end.
    match goal with |- context [run n ?s] => assert (run (n1 + 1) s
       = {| this := after_receipt (after_sending th0 pdus) resp;
            heap := h ++ {| settled := Fulfilled
                                         (VBuffers
                                            (received (after_sending th0 pdus)
                                               resp));
                            alreadyResolved := false; reactions := [] |}
                      :: {| settled := Fulfilled
                                         (VBuffers
                                            (received (after_sending th0 pdus)
                                               resp));
                            alreadyResolved := false; reactions := [] |}
                      :: extra;
            remainingElements := re'; jobs := []; inflight := [];
            peripheral := answers cr dr dcr writes rest;
            calls := cl ++ ((fun frame => ReqWrite c frame false)
                              <$> written th0 pdus)
                       ++ replicate (S (length resp)) (ReqRead c);
            invoked := inv ++ [OpWrite c pdus]; uncaught := unc |}) as E end.
    { rewrite run_add, Hrun. hnorm0.
      cbn [map concat reaction_job onFulfilled derived].
      erewrite run_step.
      2:{ apply step_pass_value; [by intros q|hnorm0; reflexivity]. }
      hnorm0. by cbn [map concat run]. }
    rewrite (run_rest (n1 + 1)); [|by rewrite E|exact Hn].
    rewrite E. unfold promise_state. mnorm. hnorm0.
    subst th0.
    rewrite after_sending_currentOperation, after_receipt_currentOperation,
      received_currentOperation.
    by repeat split.
  - destruct (run_write_ok c pdus resp ending true e0 (length h + 1) false []
                th0
                (h ++ [{| settled := Rejected e0; alreadyResolved := false;
                          reactions := [] |};
                       {| settled := Pending; alreadyResolved := false;
                          reactions := [] |}])
                re cl inv unc cr dr dcr writes rest (Hc _) Hne Hend Ha)
      as (n1 & extra & re' & Hrun); [hnorm; reflexivity|].
    eexists _, (S n1). split; [reflexivity|]. intros n Hn.
    match goal with |- context [run n ?s] => assert (run (S n1) s
       = {| this := after_receipt (after_sending th0 pdus) resp;
            heap := h ++ {| settled := Rejected e0; alreadyResolved := false;
                            reactions := [] |}
                      :: {| settled := Fulfilled
                                         (VBuffers
                                            (received (after_sending th0 pdus)
                                               resp));
                            alreadyResolved := false; reactions := [] |}
                      :: extra;
            remainingElements := re'; jobs := []; inflight := [];
            peripheral := answers cr dr dcr writes rest;
            calls := cl ++ ((fun frame => ReqWrite c frame false)
                              <$> written th0 pdus)
                       ++ replicate (S (length resp)) (ReqRead c);
            invoked := inv ++ [OpWrite c pdus]; uncaught := unc |}) as E end.
    { erewrite run_step by (apply step_pass_rejection; hnorm; reflexivity).
      hnorm. cbn [map concat reaction_job onRejected derived].
      rewrite_run Hrun. hnorm0. by cbn [map concat]. }
    rewrite (run_rest (S n1)); [|by rewrite E|exact Hn].
    rewrite E. unfold promise_state. mnorm. hnorm0.
    subst th0.
    rewrite after_sending_currentOperation, after_receipt_currentOperation,
      received_currentOperation.
    by repeat split.
Qed.

(** X21 — [writeCharacteristic] on a connection at rest, whether the
    operation before it succeeded or failed, when every write is
    acknowledged: the closure is run exactly once; with session keys it
    writes the sealed chunks of the PDUs in order, one write for each, and
    without them the PDUs as they are; the reads of the drain come after
    the writes, and the promise is fulfilled with the frames read, opened
    if there are session keys.  [c2aCounter] has moved on by the number of
    frames written and [a2cCounter] by the number of frames read. *)
Theorem write_transaction (c : Characteristic) (pdus resp : list Buffer)
    (ending : option Buffer) (st0 : pstate) (writes : list value)
    (rest : list (value * option Buffer)) (m : machine) :
  let frames := written (this m) pdus in
  let sent := after_sending (this m) pdus in
  jobs m = [] -> inflight m = [] ->
  promise_state (currentOperation (this m)) m = Some st0 ->
  st0 <> Pending ->
  (sessionKeys (this m) <> None ->
   (c2aCounter (this m) + N.of_nat (length (concat (fragment <$> pdus)))
    <= 4294967296)%N) ->
  (sessionKeys (this m) <> None ->
   (a2cCounter (this m) + N.of_nat (length resp) <= 4294967296)%N) ->
  Forall (fun d => 0 < length d) resp ->
  match ending with Some d => length d = 0 | None => True end ->
  writeResults (peripheral m)
  = replicate (length frames) VUndefined ++ writes ->
  readResults (peripheral m) = ok_reads resp ++ (VUndefined, ending) :: rest ->
  let start := writeCharacteristic c pdus m in
  exists p k,
    start.1 = Normal p
    /\ forall n, k <= n ->
       let m' := run n start.2 in
       quiescent m'
       /\ jobs m' = [] /\ inflight m' = []
       /\ promise_state p m' = Some (Fulfilled (VBuffers (received sent resp)))
       /\ this m' = set_currentOperation p (after_receipt sent resp)
       /\ invoked m' = invoked m ++ [OpWrite c pdus]
       /\ calls m' = calls m
                       ++ ((fun frame => ReqWrite c frame false) <$> frames)
                       ++ replicate (S (length resp)) (ReqRead c)
       /\ writeResults (peripheral m') = writes
       /\ readResults (peripheral m') = rest.
Proof.
  intros frames sent Hj Hi Hcur Hst Hc Ha Hne Hend Hw Hr.
  apply (write_at_rest c pdus resp ending st0 writes rest m); try done.
  intros p Hk. by apply encrypt_written.
Qed.

(** X22 — [writeCharacteristic] with nothing to send, on a connection
    at rest: without session keys an empty list of PDUs, with session keys
    any list of PDUs of length zero (they give no frame).  No write is
    made, no acknowledgement is awaited and [c2aCounter] stays as it is;
    the drain starts right away and the promise is fulfilled with the
    frames read. *)
Theorem write_nothing (c : Characteristic) (pdus resp : list Buffer)
    (ending : option Buffer) (st0 : pstate)
    (rest : list (value * option Buffer)) (m : machine) :
  jobs m = [] -> inflight m = [] ->
  promise_state (currentOperation (this m)) m = Some st0 ->
  st0 <> Pending ->
  match sessionKeys (this m) with
  | Some _ => Forall (fun pdu => length pdu = 0) pdus
  | None => pdus = []
  end ->
  (sessionKeys (this m) <> None ->
   (a2cCounter (this m) + N.of_nat (length resp) <= 4294967296)%N) ->
  Forall (fun d => 0 < length d) resp ->
  match ending with Some d => length d = 0 | None => True end ->
  readResults (peripheral m) = ok_reads resp ++ (VUndefined, ending) :: rest ->
  let start := writeCharacteristic c pdus m in
  exists p k,
    start.1 = Normal p
    /\ forall n, k <= n ->
       let m' := run n start.2 in
       quiescent m'
       /\ jobs m' = [] /\ inflight m' = []
       /\ promise_state p m'
          = Some (Fulfilled (VBuffers (received (this m) resp)))
       /\ this m' = set_currentOperation p (after_receipt (this m) resp)
       /\ invoked m' = invoked m ++ [OpWrite c pdus]
       /\ calls m' = calls m ++ replicate (S (length resp)) (ReqRead c)
       /\ writeResults (peripheral m') = writeResults (peripheral m)
       /\ readResults (peripheral m') = rest.
Proof.
  intros Hj Hi Hcur Hst Hempty Ha Hne Hend Hr.
  destruct (written_empty (this m) pdus Hempty) as [Hw Hs].
  pose proof (write_at_rest c pdus resp ending st0
                (writeResults (peripheral m)) rest m Hj Hi Hcur Hst) as Hgen.
  cbv zeta in Hgen. rewrite Hw, Hs in Hgen. cbn [length replicate app fmap
                                                  list_fmap] in Hgen.
  apply Hgen; try done.
  intros p Hk. apply encrypt_written_empty; [|done].
  by destruct (sessionKeys (this m)).
Qed.

End WriteTransactions.

Section Scenarios.
Context `{Sodium}.

(** X16 — A write of two PDUs whose first acknowledgement is an error,
    on a new connection without session keys: both writes are made in the
    turn that runs the closure, before any acknowledgement; the closure is
    run a second time and writes both PDUs again, the second one too
    although its first write was acknowledged.  The one read comes after
    the four writes, and the promise is fulfilled. *)
Theorem write_retry_rewrites_all (c : Characteristic) (pdu1 pdu2 : Buffer)
    (e1 : value) (ending : option Buffer)
    (connects disconnects : list value)
    (discovers : list (value * list Service * list Characteristic))
    (writes : list value) (reads : list (value * option Buffer)) :
  truthy e1 = true ->
  match ending with Some d => length d = 0 | None => True end ->
  let per :=
    answers connects disconnects discovers
      (e1 :: VUndefined :: VUndefined :: VUndefined :: writes)
      ((VUndefined, ending) :: reads) in
  let op := OpWrite c [pdu1; pdu2] in
  let start := writeCharacteristic c [pdu1; pdu2] (new_GattConnection per) in
  exists p,
    start.1 = Normal p
    /\ calls (run 1 start.2)
       = [ReqWrite c pdu1 false; ReqWrite c pdu2 false]
    /\ forall n, 19 <= n ->
       let m := run n start.2 in
       quiescent m
       /\ promise_state p m = Some (Fulfilled (VBuffers []))
       /\ invoked m = [op; op]
       /\ calls m = [ReqWrite c pdu1 false; ReqWrite c pdu2 false;
                     ReqWrite c pdu1 false; ReqWrite c pdu2 false;
                     ReqRead c]
       /\ writeResults (peripheral m) = writes
       /\ readResults (peripheral m) = reads.
Proof.
  intros He Hend per op start. exists 2. split; [reflexivity|].
  split; [reflexivity|].
  intros n Hn m. subst m.
  assert (ending = None \/ ending = Some []) as Hl.
  { destruct ending as [[|? ?]|]; auto. simpl in Hend. lia. }
  assert (quiescent (run 19 start.2)
          /\ (quiescent (run 19 start.2) ->
              quiescent (run 19 start.2)
              /\ promise_state 2 (run 19 start.2)
                 = Some (Fulfilled (VBuffers []))
              /\ invoked (run 19 start.2) = [op; op]
              /\ calls (run 19 start.2)
                 = [ReqWrite c pdu1 false; ReqWrite c pdu2 false;
                    ReqWrite c pdu1 false; ReqWrite c pdu2 false;
                    ReqRead c]
              /\ writeResults (peripheral (run 19 start.2)) = writes
              /\ readResults (peripheral (run 19 start.2)) = reads))
    as [Hq Hall].
  { subst start op per.
    destruct Hl as [-> | ->]; truthy_cases He;
      vm_compute; (split; [reflexivity|intros _; repeat split]). }
  rewrite (run_rest 19); [by apply Hall|exact Hq|exact Hn].
Qed.

(** X17 — [findAndWriteCharacteristic] on a new connection when the
    peripheral refuses to connect: the failed connect leaves the state
    CONNECTING, so the second run of the closure first tells the
    peripheral to disconnect and then asks it to connect again; when that
    fails too, its error goes to the caller and the state is still
    CONNECTING.  Discovery is never asked. *)
Theorem findAndWrite_connect_refused (serviceUuid characteristicUuid : string)
    (pdus : list Buffer) (e1 e2 : value)
    (connects disconnects : list value)
    (discovers : list (value * list Service * list Characteristic))
    (writes : list value) (reads : list (value * option Buffer)) :
  truthy e1 = true -> truthy e2 = true ->
  let per :=
    answers (e1 :: e2 :: connects) (VUndefined :: disconnects)
      discovers writes reads in
  let op := OpFindAndWrite serviceUuid characteristicUuid pdus in
  let start :=
    findAndWriteCharacteristic serviceUuid characteristicUuid pdus
      (new_GattConnection per) in
  exists p,
    start.1 = Normal p
    /\ forall n, 17 <= n ->
       let m := run n start.2 in
       quiescent m
       /\ promise_state p m = Some (Rejected e2)
       /\ state (this m) = CONNECTING
       /\ invoked m = [op; op]
       /\ calls m = [ReqConnect; ReqDisconnect; ReqConnect]
       /\ connectResults (peripheral m) = connects
       /\ disconnectResults (peripheral m) = disconnects
       /\ discoverResults (peripheral m) = discovers.
Proof.
  intros He1 He2 per op start. exists 2. split; [reflexivity|].
  intros n Hn m. subst m.
  assert (quiescent (run 17 start.2)
          /\ (quiescent (run 17 start.2) ->
              quiescent (run 17 start.2)
              /\ promise_state 2 (run 17 start.2) = Some (Rejected e2)
              /\ state (this (run 17 start.2)) = CONNECTING
              /\ invoked (run 17 start.2) = [op; op]
              /\ calls (run 17 start.2)
                 = [ReqConnect; ReqDisconnect; ReqConnect]
              /\ connectResults (peripheral (run 17 start.2)) = connects
              /\ disconnectResults (peripheral (run 17 start.2)) = disconnects
              /\ discoverResults (peripheral (run 17 start.2)) = discovers))
    as [Hq Hall].
  { subst start op per.
    truthy_cases He1; truthy_cases He2;
      vm_compute; (split; [reflexivity|intros _; repeat split]). }
  rewrite (run_rest 17); [by apply Hall|exact Hq|exact Hn].
Qed.

(** X18 — [findAndWriteCharacteristic] on a new connection when
    discovery reports an error: the promise of the attempt is rejected
    with it, whatever services and characteristics came with it; the
    second run of the closure finds the connection CONNECTED, does not
    connect again, asks discovery again, and the error of that goes to the
    caller. *)
Theorem findAndWrite_discovery_error (serviceUuid characteristicUuid : string)
    (pdus : list Buffer) (e1 e2 : value)
    (services1 services2 : list Service)
    (characteristics1 characteristics2 : list Characteristic)
    (connects disconnects : list value)
    (discovers : list (value * list Service * list Characteristic))
    (writes : list value) (reads : list (value * option Buffer)) :
  truthy e1 = true -> truthy e2 = true ->
  let per :=
    answers (VUndefined :: connects) disconnects
      ((e1, services1, characteristics1)
         :: (e2, services2, characteristics2) :: discovers)
      writes reads in
  let op := OpFindAndWrite serviceUuid characteristicUuid pdus in
  let discover := ReqDiscover [serviceUuid] [characteristicUuid] in
  let start :=
    findAndWriteCharacteristic serviceUuid characteristicUuid pdus
      (new_GattConnection per) in
  exists p,
    start.1 = Normal p
    /\ forall n, 18 <= n ->
       let m := run n start.2 in
       quiescent m
       /\ promise_state p m = Some (Rejected e2)
       /\ state (this m) = CONNECTED
       /\ invoked m = [op; op]
       /\ calls m = [ReqConnect; discover; discover]
       /\ connectResults (peripheral m) = connects
       /\ discoverResults (peripheral m) = discovers
       /\ writeResults (peripheral m) = writes.
Proof.
  intros He1 He2 per op discover start. exists 2. split; [reflexivity|].
  intros n Hn m. subst m.
  assert (quiescent (run 18 start.2)
          /\ (quiescent (run 18 start.2) ->
              quiescent (run 18 start.2)
              /\ promise_state 2 (run 18 start.2) = Some (Rejected e2)
              /\ state (this (run 18 start.2)) = CONNECTED
              /\ invoked (run 18 start.2) = [op; op]
              /\ calls (run 18 start.2) = [ReqConnect; discover; discover]
              /\ connectResults (peripheral (run 18 start.2)) = connects
              /\ discoverResults (peripheral (run 18 start.2)) = discovers
              /\ writeResults (peripheral (run 18 start.2)) = writes))
    as [Hq Hall].
  { subst start op discover per.
    truthy_cases He1; truthy_cases He2;
      vm_compute; (split; [reflexivity|intros _; repeat split]). }
  rewrite (run_rest 18); [by apply Hall|exact Hq|exact Hn].
Qed.

End Scenarios.

Lemma disconnect_when_disconnected_witness :
  let m := new_GattConnection (answers [] [] [] [] []) in
  exists p,
    (disconnect m).1 = Normal p
    /\ promise_state p (disconnect m).2 = Some (Fulfilled VUndefined)
    /\ calls (disconnect m).2 = [].
Proof.
  intros m.
  destruct (disconnect_when_disconnected m eq_refl)
    as (p & Hp & Hst & _ & Hcalls & _).
  exists p. by repeat split.
Defined.

Lemma disconnect_when_connected_witness :
  let m0 := new_GattConnection (answers [] [VError "EIO"] [] [] []) in
  let m := set_this (set_state CONNECTED (this m0)) m0 in
  exists p,
    (disconnect m).1 = Normal p
    /\ promise_state p (@run toy_sodium 1 (disconnect m).2)
       = Some (Rejected (VError "EIO"))
    /\ state (this (@run toy_sodium 1 (disconnect m).2)) = CONNECTED.
Proof.
  intros m0 m.
  assert (state (this m) <> DISCONNECTED) as Hs by discriminate.
  destruct (@disconnect_when_connected toy_sodium m (VError "EIO") []
              Hs eq_refl eq_refl eq_refl) as (p & Hp & _ & _ & Hrun).
  destruct (Hrun 1 (le_n 1)) as (_ & Hst & Hth & _).
  exists p. split; [done|]. split; [done|]. by rewrite Hth.
Defined.

Lemma connect_when_disconnected_witness :
  let m := new_GattConnection (answers [VError "EHOSTDOWN"] [] [] [] []) in
  exists p,
    (connect m).1 = Normal p
    /\ promise_state p (@run toy_sodium 4 (connect m).2)
       = Some (Rejected (VError "EHOSTDOWN"))
    /\ state (this (@run toy_sodium 4 (connect m).2)) = CONNECTING.
Proof.
  intros m.
  destruct (@connect_when_disconnected toy_sodium m (VError "EHOSTDOWN") []
              eq_refl eq_refl eq_refl eq_refl) as (p & Hp & Hrun).
  destruct (Hrun 4 (le_n 4)) as (_ & _ & _ & Hst & Hth & _).
  exists p. split; [done|]. split; [done|]. by rewrite Hth.
Defined.

Lemma connect_when_connecting_fails_witness :
  let m0 := new_GattConnection (answers [VUndefined] [VError "EIO"] [] [] []) in
  let m := set_this (set_state CONNECTING (this m0)) m0 in
  exists p,
    (connect m).1 = Normal p
    /\ promise_state p (@run toy_sodium 2 (connect m).2)
       = Some (Rejected (VError "EIO"))
    /\ calls (@run toy_sodium 2 (connect m).2) = [ReqDisconnect].
Proof.
  intros m0 m.
  destruct (@connect_when_connecting_fails toy_sodium m (VError "EIO") []
              eq_refl eq_refl eq_refl eq_refl eq_refl) as (p & Hp & Hrun).
  destruct (Hrun 2 (le_n 2)) as (_ & _ & _ & Hst & _ & Hcalls & _).
  exists p. by repeat split.
Defined.

Lemma connect_when_connecting_witness :
  let m0 := new_GattConnection (answers [VUndefined] [VUndefined] [] [] []) in
  let m := set_this (set_state CONNECTING (this m0)) m0 in
  exists p,
    (connect m).1 = Normal p
    /\ promise_state p (@run toy_sodium 5 (connect m).2)
       = Some (Fulfilled VUndefined)
    /\ state (this (@run toy_sodium 5 (connect m).2)) = CONNECTED
    /\ calls (@run toy_sodium 5 (connect m).2) = [ReqDisconnect; ReqConnect].
Proof.
  intros m0 m.
  destruct (@connect_when_connecting toy_sodium m VUndefined VUndefined [] []
              eq_refl eq_refl eq_refl eq_refl eq_refl eq_refl)
    as (p & Hp & Hrun).
  destruct (Hrun 5 (le_n 5)) as (_ & _ & _ & Hst & Hth & Hcalls & _).
  exists p. split; [done|]. split; [done|]. split; [by rewrite Hth|done].
Defined.

Lemma read_transaction_witness :
  let frame := [x07; x08] ++ toy_tag (nonce_of 5) (replicate 32 x01) in
  let m0 :=
    new_GattConnection
      (answers [] [] [] [] (ok_reads [frame] ++ [(VUndefined, None)])) in
  let m := set_this (keyed 0 5) m0 in
  let start := readCharacteristic 9 m in
  exists p k,
    start.1 = Normal p
    /\ forall n, k <= n ->
       promise_state p (@run toy_sodium n start.2)
       = Some (Fulfilled (VBuffers [[x07; x08]]))
       /\ a2cCounter (this (@run toy_sodium n start.2)) = 6%N
       /\ calls (@run toy_sodium n start.2) = [ReqRead 9; ReqRead 9].
Proof.
  intros frame m0 m start. subst start.
  assert (Fulfilled VUndefined <> Pending) as Hst by discriminate.
  assert (Forall (fun d : Buffer => 0 < length d) [frame]) as Hne
    by (repeat constructor).
  assert (sessionKeys (this m) <> None ->
          (a2cCounter (this m) + N.of_nat (length [frame]) <= 4294967296)%N)
    as Hc by (intros _; by vm_compute).
  destruct (@read_transaction toy_sodium 9 [frame] None (Fulfilled VUndefined)
              [] m eq_refl eq_refl eq_refl Hst Hne I Hc eq_refl)
    as (p & k & Hp & Hrun).
  exists p, k. split; [exact Hp|]. intros n Hn.
  destruct (Hrun n Hn) as (_ & _ & _ & Hres & Hth & _ & Hcalls & _).
  split; [by rewrite Hres|]. split; [by rewrite Hth|exact Hcalls].
Defined.

Lemma reads_in_order_witness :
  let m :=
    new_GattConnection
      (answers [] [] [] []
         (ok_reads [[x01]] ++ (VUndefined, None)
            :: ok_reads [[x02]; [x03]] ++ [(VUndefined, Some [])])) in
  let first := readCharacteristic 1 m in
  let second := readCharacteristic 2 first.2 in
  exists p1 p2 k,
    first.1 = Normal p1 /\ second.1 = Normal p2
    /\ forall n, k <= n ->
       promise_state p1 (@run toy_sodium n second.2)
       = Some (Fulfilled (VBuffers [[x01]]))
       /\ promise_state p2 (@run toy_sodium n second.2)
          = Some (Fulfilled (VBuffers [[x02]; [x03]]))
       /\ calls (@run toy_sodium n second.2)
          = [ReqRead 1; ReqRead 1; ReqRead 2; ReqRead 2; ReqRead 2].
Proof.
  intros m first second.
  assert (Forall (fun d : Buffer => 0 < length d) [[x01]]) as Hne1
    by (repeat constructor).
  assert (Forall (fun d : Buffer => 0 < length d) [[x02]; [x03]]) as Hne2
    by (repeat constructor).
  assert (sessionKeys (this m) <> None ->
          (a2cCounter (this m)
           + N.of_nat (length [[x01]] + length [[x02]; [x03]])
           <= 4294967296)%N) as Hc by (intros _; by vm_compute).
  destruct (@reads_in_order toy_sodium 1 2 [[x01]] [[x02]; [x03]] None
              (Some []) VUndefined [] m eq_refl eq_refl eq_refl Hne1 Hne2
              I eq_refl Hc eq_refl)
    as (p1 & p2 & k & Hp1 & Hp2 & Hrun).
  exists p1, p2, k. split; [exact Hp1|]. split; [exact Hp2|]. intros n Hn.
  destruct (Hrun n Hn) as (_ & _ & _ & Hr1 & Hr2 & _ & _ & Hcalls & _).
  by repeat split.
Defined.

Lemma read_retry_discards_witness :
  let m :=
    new_GattConnection
      (answers [] [] [] []
         (ok_reads [[x01]] ++ (VError "EIO", None)
            :: ok_reads [[x02]] ++ [(VUndefined, None)])) in
  let start := readCharacteristic 9 m in
  exists p k,
    start.1 = Normal p
    /\ forall n, k <= n ->
       promise_state p (@run toy_sodium n start.2)
       = Some (Fulfilled (VBuffers [[x02]]))
       /\ invoked (@run toy_sodium n start.2) = [OpRead 9; OpRead 9].
Proof.
  intros m start.
  assert (Forall (fun d : Buffer => 0 < length d) [[x01]]) as Hne1
    by (repeat constructor).
  assert (Forall (fun d : Buffer => 0 < length d) [[x02]]) as Hne2
    by (repeat constructor).
  assert (sessionKeys (this m) <> None ->
          (a2cCounter (this m) + N.of_nat (length [[x02]]) <= 4294967296)%N)
    as Hc by (intros _; by vm_compute).
  destruct (@read_retry_discards toy_sodium 9 [[x01]] [[x02]] (VError "EIO")
              None None VUndefined [] m eq_refl eq_refl eq_refl Hne1 Hne2
              eq_refl I Hc eq_refl)
    as (p & k & Hp & Hrun).
  exists p, k. split; [exact Hp|]. intros n Hn.
  destruct (Hrun n Hn) as (_ & _ & _ & Hres & _ & Hinv & _).
  by split.
Defined.

Lemma write_retry_rewrites_all_witness :
  let per :=
    answers [] [] []
      [VError "EIO"; VUndefined; VUndefined; VUndefined]
      [(VUndefined, None)] in
  let start := writeCharacteristic 9 [[x01]; [x02]] (new_GattConnection per) in
  calls (@run toy_sodium 19 start.2)
  = [ReqWrite 9 [x01] false; ReqWrite 9 [x02] false;
     ReqWrite 9 [x01] false; ReqWrite 9 [x02] false; ReqRead 9].
Proof.
  intros per start.
  destruct (@write_retry_rewrites_all toy_sodium 9 [x01] [x02] (VError "EIO")
              None [] [] [] [] [] eq_refl I) as (p & _ & _ & Hrun).
  exact (proj1 (proj2 (proj2 (proj2 (Hrun 19 (le_n 19)))))).
Defined.

Lemma findAndWrite_connect_refused_witness :
  let per :=
    answers [VError "EHOSTDOWN"; VError "EHOSTDOWN"] [VUndefined] [] [] [] in
  let start :=
    findAndWriteCharacteristic "svc" "chr" [[x01]] (new_GattConnection per) in
  calls (@run toy_sodium 17 start.2) = [ReqConnect; ReqDisconnect; ReqConnect].
Proof.
  intros per start.
  destruct (@findAndWrite_connect_refused toy_sodium "svc" "chr" [[x01]]
              (VError "EHOSTDOWN") (VError "EHOSTDOWN") [] [] [] [] []
              eq_refl eq_refl) as (p & _ & Hrun).
  exact (proj1 (proj2 (proj2 (proj2 (proj2 (Hrun 17 (le_n 17))))))).
Defined.

Lemma findAndWrite_discovery_error_witness :
  let per :=
    answers [VUndefined] []
      [(VError "EIO", [1], [2]); (VError "EIO", [], [])] [] [] in
  let start :=
    findAndWriteCharacteristic "svc" "chr" [[x01]] (new_GattConnection per) in
  promise_state 2 (@run toy_sodium 18 start.2) = Some (Rejected (VError "EIO")).
Proof.
  intros per start.
  destruct (@findAndWrite_discovery_error toy_sodium "svc" "chr" [[x01]]
              (VError "EIO") (VError "EIO") [1] [] [2] [] [] [] [] [] []
              eq_refl eq_refl) as (p & Hp & Hrun).
  injection Hp as <-.
  exact (proj1 (proj2 (Hrun 18 (le_n 18)))).
Defined.


Lemma write_transaction_witness :
  let reply := [x07; x08] ++ toy_tag (nonce_of 0) (replicate 32 x01) in
  let m0 :=
    new_GattConnection
      (answers [] [] [] [VUndefined; VUndefined]
         (ok_reads [reply] ++ [(VUndefined, Some [])])) in
  let m := set_this (keyed 0 0) m0 in
  let start := writeCharacteristic 9 [replicate 497 x00] m in
  exists p k,
    start.1 = Normal p
    /\ forall n, k <= n ->
       promise_state p (@run toy_sodium n start.2)
       = Some (Fulfilled (VBuffers [[x07; x08]]))
       /\ c2aCounter (this (@run toy_sodium n start.2)) = 2%N
       /\ a2cCounter (this (@run toy_sodium n start.2)) = 1%N
       /\ length (calls (@run toy_sodium n start.2)) = 4.
Proof.
  intros reply m0 m start. subst start.
  assert (Fulfilled VUndefined <> Pending) as Hst by discriminate.
  assert (Forall (fun d : Buffer => 0 < length d) [reply]) as Hne
    by (repeat constructor).
  assert (sessionKeys (this m) <> None ->
          (c2aCounter (this m)
           + N.of_nat (length (concat (fragment <$> [replicate 497 x00])))
           <= 4294967296)%N) as Hc by (intros _; by vm_compute).
  assert (sessionKeys (this m) <> None ->
          (a2cCounter (this m) + N.of_nat (length [reply]) <= 4294967296)%N)
    as Ha by (intros _; by vm_compute).
  assert (writeResults (peripheral m)
          = replicate (length (@written toy_sodium (this m)
                                 [replicate 497 x00])) VUndefined ++ [])
    as Hw by (by vm_compute).
  destruct (@write_transaction toy_sodium 9 [replicate 497 x00] [reply]
              (Some []) (Fulfilled VUndefined) [] [] m eq_refl eq_refl eq_refl
              Hst Hc Ha Hne eq_refl Hw eq_refl)
    as (p & k & Hp & Hrun).
  exists p, k. split; [exact Hp|]. intros n Hn.
  destruct (Hrun n Hn) as (_ & _ & _ & Hres & Hth & _ & Hcalls & _).
  split; [by rewrite Hres|]. split; [by rewrite Hth|].
  split; [by rewrite Hth|]. by rewrite Hcalls.
Defined.

Lemma write_nothing_witness :
  let m0 :=
    new_GattConnection
      (answers [] [] [] [VUndefined] [(VUndefined, None)]) in
  let m := set_this (keyed 3 0) m0 in
  let start := writeCharacteristic 9 [[]; []] m in
  exists p k,
    start.1 = Normal p
    /\ forall n, k <= n ->
       promise_state p (@run toy_sodium n start.2)
       = Some (Fulfilled (VBuffers []))
       /\ c2aCounter (this (@run toy_sodium n start.2)) = 3%N
       /\ calls (@run toy_sodium n start.2) = [ReqRead 9]
       /\ writeResults (peripheral (@run toy_sodium n start.2)) = [VUndefined].
Proof.
  intros m0 m start. subst start.
  assert (Fulfilled VUndefined <> Pending) as Hst by discriminate.
  assert (Forall (fun pdu : Buffer => length pdu = 0) [[]; []]) as Hempty
    by (repeat constructor).
  assert (sessionKeys (this m) <> None ->
          (a2cCounter (this m) + N.of_nat (length (@nil Buffer))
           <= 4294967296)%N) as Ha by (intros _; by vm_compute).
  destruct (@write_nothing toy_sodium 9 [[]; []] [] None (Fulfilled VUndefined)
              [] m eq_refl eq_refl eq_refl Hst Hempty Ha (Forall_nil_2 _) I
              eq_refl)
    as (p & k & Hp & Hrun).
  exists p, k. split; [exact Hp|]. intros n Hn.
  destruct (Hrun n Hn) as (_ & _ & _ & Hres & Hth & _ & Hcalls & Hwr & _).
  split; [by rewrite Hres|]. split; [by rewrite Hth|]. by split.
Defined.

(** * The sequencer in general, discovery, and the queue after it *)

Section FindSteps.
Context `{Sodium}.

Lemma set_state_same th : set_state (state th) th = th.
Proof. by destruct th. Qed.

(** [_queueOperation] behind a promise that is pending: the reaction
    waits there and nothing is due. *)
Lemma queue_on_pending op cur th h re js infl per cl inv unc :
  h !! currentOperation th = Some cur ->
  settled cur = Pending ->
  _queueOperation op
    {| this := th; heap := h; remainingElements := re; jobs := js;
       inflight := infl; peripheral := per; calls := cl; invoked := inv;
       uncaught := unc |} =
  (Normal (S (length h)),
   {| this := set_currentOperation (S (length h)) th;
      heap := <[currentOperation th :=
                  {| settled := Pending;
                     alreadyResolved := alreadyResolved cur;
                     reactions := reactions cur ++ [then_op op (length h)] |}]>
                h ++ [waiting_cell [catch_op op (S (length h))]; new_cell];
      remainingElements := re; jobs := js; inflight := infl;
      peripheral := per; calls := cl; invoked := inv; uncaught := unc |}).
Proof.
  intros Hcur Hs.
  assert (currentOperation th < length h) as Hlt by (by eapply lookup_lt_Some).
  unfold _queueOperation, catch_, get_this. msimpl.
  rewrite (then_waiting _ _ _ _ cur) by done.
  erewrite then_waiting; [|cbn [heap set_heap]; apply list_lookup_middle;
                           by rewrite length_insert|done].
  mnorm. rewrite !length_app, !length_insert. cbn [length].
  replace (length h + 1) with (S (length h)) by lia.
  rewrite insert_app_r_alt by (rewrite length_insert; lia).
  rewrite length_insert, Nat.sub_diag. cbn [insert list_insert].
  by rewrite <- app_assoc.
Qed.

(** The closure of [findAndWriteCharacteristic] on a CONNECTED
    connection: [connect()] returns a fulfilled promise, so the handler of
    line 124 is due at once. *)
Lemma step_invoke_find_connected s c pdus rejected arg d js
    th h re infl per cl inv unc :
  state th = CONNECTED -> d < length h ->
  step {| this := th; heap := h; remainingElements := re;
          jobs := JReaction (Some (HOp (OpFindAndWrite s c pdus)))
                    rejected arg d :: js;
          inflight := infl; peripheral := per;
          calls := cl; invoked := inv; uncaught := unc |} =
  Some {| this := th;
          heap := h ++ [settled_cell (Fulfilled VUndefined); new_cell];
          remainingElements := re;
          jobs := js ++ [JReaction (Some (HDiscover s c pdus)) false
                           VUndefined (length h + 1);
                         JThenable d (length h + 1)];
          inflight := infl; peripheral := per; calls := cl;
          invoked := inv ++ [OpFindAndWrite s c pdus]; uncaught := unc |}.
Proof.
  intros Hs Hd. unfold step. cbn [jobs run_job call_handler run_op].
  unfold connect, get_this, Promise_resolve. msimpl. rewrite Hs.
  rewrite decide_True by done. msimpl.
  erewrite then_settled; [|cbn [heap]; by apply list_lookup_middle|done].
  mnorm. unfold resolve_promise. rewrite length_app. cbn [length].
  rewrite decide_False by lia. msimpl.
  cbn [settled reaction_job onFulfilled derived].
  by rewrite <- !app_assoc.
Qed.

(** The same on a DISCONNECTED connection: the handler of line 75 is
    due, and the handler of line 124 waits for the promise of that. *)
Lemma step_invoke_find_disconnected s c pdus rejected arg d js
    th h re infl per cl inv unc :
  state th = DISCONNECTED -> d < length h ->
  step {| this := th; heap := h; remainingElements := re;
          jobs := JReaction (Some (HOp (OpFindAndWrite s c pdus)))
                    rejected arg d :: js;
          inflight := infl; peripheral := per;
          calls := cl; invoked := inv; uncaught := unc |} =
  Some {| this := th;
          heap := h ++ [settled_cell (Fulfilled VUndefined);
                        waiting_cell
                          [{| onFulfilled := Some (HDiscover s c pdus);
                              onRejected := None;
                              derived := length h + 2 |}];
                        new_cell];
          remainingElements := re;
          jobs := js ++ [JReaction (Some HConnect) false VUndefined
                           (length h + 1);
                         JThenable d (length h + 2)];
          inflight := infl; peripheral := per; calls := cl;
          invoked := inv ++ [OpFindAndWrite s c pdus]; uncaught := unc |}.
Proof.
  intros Hs Hd. unfold step. cbn [jobs run_job call_handler run_op].
  unfold connect, get_this, Promise_resolve. msimpl. rewrite Hs.
  rewrite decide_False by done. rewrite decide_False by (by intros []).
  msimpl.
  erewrite then_settled; [|cbn [heap]; by apply list_lookup_middle|done].
  mnorm.
  erewrite then_waiting; [|cbn [heap]; by apply list_lookup_middle|done].
  mnorm. unfold resolve_promise. hnorm.
  rewrite decide_False by lia. msimpl. mnorm. hnorm.
  by cbn [settled reaction_job onFulfilled derived new_cell alreadyResolved
          reactions app].
Qed.

(** The same on a connection left CONNECTING: the peripheral is first
    told to disconnect. *)
Lemma step_invoke_find_connecting s c pdus rejected arg d js
    th h re infl per cl inv unc :
  state th = CONNECTING -> d < length h ->
  step {| this := th; heap := h; remainingElements := re;
          jobs := JReaction (Some (HOp (OpFindAndWrite s c pdus)))
                    rejected arg d :: js;
          inflight := infl; peripheral := per;
          calls := cl; invoked := inv; uncaught := unc |} =
  Some {| this := th;
          heap := h ++ [waiting_cell
                          [{| onFulfilled := Some HConnect;
                              onRejected := None;
                              derived := length h + 1 |}];
                        waiting_cell
                          [{| onFulfilled := Some (HDiscover s c pdus);
                              onRejected := None;
                              derived := length h + 2 |}];
                        new_cell];
          remainingElements := re;
          jobs := js ++ [JThenable d (length h + 2)];
          inflight := infl ++ [(ReqDisconnect, CbReconnect (length h))];
          peripheral := per; calls := cl ++ [ReqDisconnect];
          invoked := inv ++ [OpFindAndWrite s c pdus]; uncaught := unc |}.
Proof.
  intros Hs Hd. unfold step. cbn [jobs run_job call_handler run_op].
  unfold connect, get_this. msimpl. rewrite Hs.
  rewrite decide_False by done. rewrite decide_True by done.
  msimpl.
  erewrite then_waiting; [|cbn [heap]; by apply list_lookup_middle|done].
  mnorm. hnorm0.
  erewrite then_waiting; [|cbn [heap]; hnorm; reflexivity|done].
  mnorm. unfold resolve_promise. hnorm.
  rewrite decide_False by lia. msimpl. mnorm. hnorm.
  by cbn [new_cell alreadyResolved reactions app].
Qed.

(** The handler of line 124: discovery is asked. *)
Lemma step_invoke_discover s c pdus rejected arg d js
    th h re infl per cl inv unc :
  d < length h ->
  step {| this := th; heap := h; remainingElements := re;
          jobs := JReaction (Some (HDiscover s c pdus)) rejected arg d :: js;
          inflight := infl; peripheral := per;
          calls := cl; invoked := inv; uncaught := unc |} =
  Some {| this := th; heap := h ++ [new_cell];
          remainingElements := re;
          jobs := js ++ [JThenable d (length h)];
          inflight := infl ++ [(ReqDiscover [s] [c],
                                CbDiscover (length h) pdus)];
          peripheral := per;
          calls := cl ++ [ReqDiscover [s] [c]]; invoked := inv;
          uncaught := unc |}.
Proof.
  intros Hd. unfold step. cbn [jobs run_job call_handler].
  unfold resolve_promise. msimpl.
  rewrite decide_False by lia. by msimpl.
Qed.

(** The callback of line 129 on an error or on an empty result: the
    promise of line 125 is rejected. *)
Lemma step_answer_discover_fails ss cs pdus p e err services characteristics
    R infl th h re cl inv unc cr dr dcr wr rr :
  (truthy err = true /\ e = err)
  \/ (truthy err = false /\ (services = [] \/ characteristics = [])
      /\ e = VString "Characteristic not found") ->
  h !! p = Some (waiting_cell R) ->
  step {| this := th; heap := h; remainingElements := re; jobs := [];
          inflight := (ReqDiscover ss cs, CbDiscover p pdus) :: infl;
          peripheral := answers cr dr
                          ((err, services, characteristics) :: dcr) wr rr;
          calls := cl; invoked := inv; uncaught := unc |} =
  Some {| this := th; heap := <[p := settled_cell (Rejected e)]> h;
          remainingElements := re;
          jobs := concat (map (reaction_job (Rejected e)) R);
          inflight := infl; peripheral := answers cr dr dcr wr rr;
          calls := cl; invoked := inv; uncaught := unc |}.
Proof.
  intros He Hp.
  assert (p < length h) as Hlt by (by eapply lookup_lt_Some).
  assert (forall x m, heap m = h -> jobs m = [] ->
            rejectFn p x m =
            (Normal tt,
             set_jobs (concat (map (reaction_job (Rejected x)) R))
               (set_heap (<[p := settled_cell (Rejected x)]> h) m))) as E.
  { intros x m Hh Hj. unfold rejectFn, lock, settle. msimpl.
    rewrite Hh, Hp. cbn [waiting_cell alreadyResolved settled reactions].
    msimpl. rewrite list_lookup_insert_eq by done.
    cbn [alreadyResolved settled reactions]. msimpl.
    by rewrite list_insert_insert_eq, Hj. }
  unfold step.
  cbn [jobs inflight peripheral answer answers connectResults
       disconnectResults discoverResults writeResults readResults].
  cbn [invoke_callback arg_err arg_services arg_characteristics].
  destruct He as [[Ht ->]|(Ht & Hnone & ->)]; rewrite Ht.
  - by rewrite E.
  - assert (bool_decide (length services = 0)
            || bool_decide (length characteristics = 0) = true) as ->.
    { destruct Hnone as [-> | ->]; cbn [length].
      - done.
      - by rewrite orb_true_r. }
    by rewrite E.
Qed.

(** The callback of line 129 when a characteristic was found: it queues
    the write, here behind a promise that is pending, and leaves the
    promise of line 125 as it is. *)
Lemma step_answer_discover_found ss cs pdus p err service services
    characteristic characteristics cur infl th h re cl inv unc
    cr dr dcr wr rr :
  truthy err = false ->
  h !! currentOperation th = Some cur ->
  settled cur = Pending ->
  step {| this := th; heap := h; remainingElements := re; jobs := [];
          inflight := (ReqDiscover ss cs, CbDiscover p pdus) :: infl;
          peripheral := answers cr dr
                          ((err, service :: services,
                            characteristic :: characteristics) :: dcr) wr rr;
          calls := cl; invoked := inv; uncaught := unc |} =
  Some {| this := set_currentOperation (S (length h)) th;
          heap := <[currentOperation th :=
                      {| settled := Pending;
                         alreadyResolved := alreadyResolved cur;
                         reactions :=
                           reactions cur
                             ++ [then_op (OpWrite characteristic pdus)
                                   (length h)] |}]> h
                    ++ [waiting_cell
                          [catch_op (OpWrite characteristic pdus)
                             (S (length h))];
                        new_cell];
          remainingElements := re; jobs := []; inflight := infl;
          peripheral := answers cr dr dcr wr rr;
          calls := cl; invoked := inv; uncaught := unc |}.
Proof.
  intros Ht Hcur Hs. unfold step.
  cbn [jobs inflight peripheral answer answers connectResults
       disconnectResults discoverResults writeResults readResults].
  cbn [invoke_callback arg_err arg_services arg_characteristics].
  rewrite Ht. cbn [length bool_decide orb].
  rewrite !bool_decide_eq_false_2 by done. cbn [orb]. msimpl. mnorm.
  unfold writeCharacteristic.
  by rewrite (queue_on_pending _ cur) by done.
Qed.

End FindSteps.

Section Discovery.
Context `{Sodium}.

Lemma next_ok_inv errs :
  next_ok errs = true ->
  exists err rest, errs = err :: rest /\ truthy err = false.
Proof.
  destruct errs as [|err rest]; [done|]. cbn [next_ok].
  intros Hok. exists err, rest. split; [done|]. by destruct (truthy err).
Qed.

(** A run of the closure of [findAndWriteCharacteristic] when the
    peripheral lets it connect, up to the moment discovery has been asked
    and nothing else is due.  The store has grown by [extra], in which
    [pd] is the promise of line 125, [q] the promise the closure returned
    and [a1], [a2] the promises derived by the two adoptions. *)
Lemma find_reaches_discovery s c pdus rejected arg d b R
    th h re per cl inv unc :
  connect_succeeds (state th) per = true ->
  h !! d = Some {| settled := Pending; alreadyResolved := b;
                   reactions := R |} ->
  exists n extra pd q a1 a2,
    run n {| this := th; heap := h; remainingElements := re;
             jobs := [JReaction (Some (HOp (OpFindAndWrite s c pdus)))
                        rejected arg d];
             inflight := []; peripheral := per;
             calls := cl; invoked := inv; uncaught := unc |}
    = {| this := set_state CONNECTED th; heap := h ++ extra;
         remainingElements := re; jobs := [];
         inflight := [(ReqDiscover [s] [c],
                       CbDiscover (length h + pd) pdus)];
         peripheral := after_connect (state th) per;
         calls := cl ++ connect_calls (state th) ++ [ReqDiscover [s] [c]];
         invoked := inv ++ [OpFindAndWrite s c pdus]; uncaught := unc |}
    /\ extra !! pd
       = Some (waiting_cell [adoption (length h + q) (length h + a2)])
    /\ extra !! q = Some (waiting_cell [adoption d (length h + a1)])
    /\ extra !! a1 = Some new_cell /\ extra !! a2 = Some new_cell
    /\ pd <> q /\ pd <> a1 /\ pd <> a2 /\ q <> a1 /\ q <> a2 /\ a1 <> a2.
Proof.
  intros Hok Hd.
  assert (d < length h) as Hlt by (by eapply lookup_lt_Some).
  destruct per as [cr dr dcr wr rr].
  destruct (state th) eqn:Hs;
    cbn [connect_succeeds connect_calls after_connect connectResults
         disconnectResults discoverResults writeResults readResults app]
      in Hok |- *.
  - (* DISCONNECTED *)
    apply next_ok_inv in Hok as (err & rest & -> & Hok).
    exists 8, [settled_cell (Fulfilled VUndefined);
               {| settled := Fulfilled VUndefined; alreadyResolved := false;
                  reactions := [] |};
               waiting_cell [adoption d (length h + 4)];
               settled_cell (Fulfilled VUndefined);
               new_cell;
               {| settled := Fulfilled VUndefined; alreadyResolved := false;
                  reactions := [] |};
               waiting_cell [adoption (length h + 2) (length h + 7)];
               new_cell], 6, 2, 4, 7.
    split; [|by repeat split].
    mstep step_invoke_find_disconnected. hnorm.
    mstep step_invoke_connect. hnorm.
    mstep step_thenable. hnorm.
    mstep step_thenable. hnorm.
    erewrite run_step.
    2:{ apply (step_answer_connect _ _ [adoption (length h + 1) (length h + 5)]).
        hnorm. reflexivity. }
    hnorm. unfold outcome. rewrite Hok. cbn [map concat]. rewrite app_nil_r.
    rewrite <- (app_nil_r (reaction_job _ _)).
    erewrite run_step.
    2:{ apply step_adopted; [done|hnorm; reflexivity|hnorm; reflexivity|lia]. }
    hnorm. cbn [map concat reaction_job onFulfilled derived app].
    mstep step_invoke_discover. hnorm.
    mstep step_thenable. hnorm.
    cbn [run tail]. reflexivity.
  - (* CONNECTING *)
    apply andb_prop in Hok as [Hok1 Hok2].
    apply next_ok_inv in Hok1 as (derr & drest & -> & Hok1).
    apply next_ok_inv in Hok2 as (err & rest & -> & Hok2).
    exists 9, [settled_cell (Fulfilled VUndefined);
               {| settled := Fulfilled VUndefined; alreadyResolved := false;
                  reactions := [] |};
               waiting_cell [adoption d (length h + 3)];
               new_cell;
               settled_cell (Fulfilled VUndefined);
               {| settled := Fulfilled VUndefined; alreadyResolved := false;
                  reactions := [] |};
               waiting_cell [adoption (length h + 2) (length h + 7)];
               new_cell], 6, 2, 3, 7.
    split; [|by repeat split].
    mstep step_invoke_find_connecting. hnorm.
    mstep step_thenable. hnorm.
    erewrite run_step.
    2:{ eapply step_answer_reconnect. hnorm0. reflexivity. }
    hnorm0. unfold outcome at 1 2. rewrite Hok1.
    cbn [map concat reaction_job onFulfilled derived app].
    mstep step_invoke_connect. hnorm.
    mstep step_thenable. hnorm.
    erewrite run_step.
    2:{ apply (step_answer_connect _ _ [adoption (length h + 1) (length h + 5)]).
        hnorm. reflexivity. }
    hnorm. unfold outcome. rewrite Hok2. cbn [map concat]. rewrite app_nil_r.
    rewrite <- (app_nil_r (reaction_job _ _)).
    erewrite run_step.
    2:{ apply step_adopted; [done|hnorm; reflexivity|hnorm; reflexivity|lia]. }
    hnorm. cbn [map concat reaction_job onFulfilled derived app].
    mstep step_invoke_discover. hnorm.
    mstep step_thenable. hnorm.
    cbn [run tail]. reflexivity.
  - (* CONNECTED *)
    exists 4, [settled_cell (Fulfilled VUndefined);
               waiting_cell [adoption d (length h + 3)];
               waiting_cell [adoption (length h + 1) (length h + 4)];
               new_cell; new_cell], 2, 1, 3, 4.
    split; [|by repeat split].
    replace (set_state CONNECTED th) with th
      by (rewrite <- Hs; symmetry; apply set_state_same).
    mstep step_invoke_find_connected. hnorm.
    mstep step_invoke_discover. hnorm.
    mstep step_thenable. hnorm.
    mstep step_thenable. hnorm.
    cbn [run]. reflexivity.
Qed.

End Discovery.

Section FindRuns.
Context `{Sodium}.

(** Discovery answered with an error or with nothing found: the
    rejection goes from the promise of line 125 to the promise the closure
    returned and from there to the promise of the job that ran it. *)
Lemma discovery_fails_settles ss cs pdus e err services characteristics
    d b R pd q a1 a2 extra th h re cl inv unc cr dr dcr wr rr :
  (truthy err = true /\ e = err)
  \/ (truthy err = false /\ (services = [] \/ characteristics = [])
      /\ e = VString "Characteristic not found") ->
  h !! d = Some {| settled := Pending; alreadyResolved := b;
                   reactions := R |} ->
  extra !! pd = Some (waiting_cell [adoption (length h + q) (length h + a2)]) ->
  extra !! q = Some (waiting_cell [adoption d (length h + a1)]) ->
  extra !! a1 = Some new_cell -> extra !! a2 = Some new_cell ->
  pd <> q -> pd <> a1 -> pd <> a2 -> q <> a1 -> q <> a2 -> a1 <> a2 ->
  exists extra',
    run 3 {| this := th; heap := h ++ extra; remainingElements := re;
             jobs := [];
             inflight := [(ReqDiscover ss cs,
                           CbDiscover (length h + pd) pdus)];
             peripheral := answers cr dr
                             ((err, services, characteristics) :: dcr) wr rr;
             calls := cl; invoked := inv; uncaught := unc |}
    = {| this := th;
         heap := <[d := {| settled := Rejected e; alreadyResolved := b;
                           reactions := [] |}]> h ++ extra';
         remainingElements := re;
         jobs := concat (map (reaction_job (Rejected e)) R);
         inflight := []; peripheral := answers cr dr dcr wr rr;
         calls := cl; invoked := inv; uncaught := unc |}.
Proof.
  intros He Hd Hpd Hq Ha1 Ha2 ? ? ? ? ? ?.
  assert (d < length h) as Hlt by (by eapply lookup_lt_Some).
  eexists.
  erewrite run_step.
  2:{ eapply step_answer_discover_fails; [exact He|].
      rewrite lookup_app_plus. exact Hpd. }
  rewrite insert_app_r. cbn [map concat].
  erewrite run_step.
  2:{ eapply (step_adopted (Rejected e) (length h + q) (length h + a2));
        [done| | |lia].
      - rewrite lookup_app_plus, list_lookup_insert_ne by done. exact Hq.
      - rewrite lookup_app_plus, list_lookup_insert_ne by done. exact Ha2. }
  rewrite !insert_app_r. cbn [map concat app].
  erewrite run_step.
  2:{ eapply (step_adopted (Rejected e) d (length h + a1));
        [done| | |lia].
      - rewrite lookup_app_l by done. exact Hd.
      - rewrite lookup_app_plus, !list_lookup_insert_ne by done. exact Ha1. }
  rewrite insert_app_l by done.
  rewrite insert_app_r_alt by (rewrite length_insert; lia).
  rewrite length_insert.
  replace (length h + a1 - length h) with a1 by lia.
  cbn [run app]. reflexivity.
Qed.

(** A run of the closure of [findAndWriteCharacteristic] whose discovery
    fails, by an error or by finding nothing. *)
Lemma find_fails s c pdus e err services characteristics rest th per :
  connect_succeeds (state th) per = true ->
  discoverResults per = (err, services, characteristics) :: rest ->
  (truthy err = true /\ e = err)
  \/ (truthy err = false /\ (services = [] \/ characteristics = [])
      /\ e = VString "Characteristic not found") ->
  run_fails (OpFindAndWrite s c pdus) th per e (set_state CONNECTED th)
    (after_discovery 1 (after_connect (state th) per))
    (connect_calls (state th) ++ [ReqDiscover [s] [c]]).
Proof.
  intros Hok Hdisc He rejected arg d b R h re cl inv unc Hd.
  destruct (find_reaches_discovery s c pdus rejected arg d b R th h re per
              cl inv unc Hok Hd)
    as (n & extra & pd & q & a1 & a2 & Hrun & Hpd & Hq & Ha1 & Ha2
        & ? & ? & ? & ? & ? & ?).
  destruct per as [cr dr dcr wr rr].
  cbn [discoverResults] in Hdisc. subst dcr.
  destruct (discovery_fails_settles [s] [c] pdus e err services
              characteristics d b R pd q a1 a2 extra (set_state CONNECTED th)
              h re (cl ++ connect_calls (state th) ++ [ReqDiscover [s] [c]])
              (inv ++ [OpFindAndWrite s c pdus]) unc
              (connectResults
                 (after_connect (state th)
                    (answers cr dr ((err, services, characteristics) :: rest)
                       wr rr)))
              (disconnectResults
                 (after_connect (state th)
                    (answers cr dr ((err, services, characteristics) :: rest)
                       wr rr)))
              rest wr rr)
    as (extra' & Htail); [done..|].
  exists (n + 3), extra', re. rewrite run_add.
  rewrite_run Hrun. rewrite_run Htail. reflexivity.
Qed.

(** A run of the closure of [findAndWriteCharacteristic] whose discovery
    finds the characteristic, while the end of the chain is pending: the
    write is queued behind it, and then nothing is left to run while the
    promise [d] of the job is as it was. *)
Lemma find_found_stuck s c pdus err service services characteristic
    characteristics rest rejected arg d b R cur th h re per cl inv unc :
  connect_succeeds (state th) per = true ->
  discoverResults per
  = (err, service :: services, characteristic :: characteristics) :: rest ->
  truthy err = false ->
  h !! d = Some {| settled := Pending; alreadyResolved := b;
                   reactions := R |} ->
  h !! currentOperation th = Some cur ->
  settled cur = Pending ->
  exists n extra w,
    run n {| this := th; heap := h; remainingElements := re;
             jobs := [JReaction (Some (HOp (OpFindAndWrite s c pdus)))
                        rejected arg d];
             inflight := []; peripheral := per;
             calls := cl; invoked := inv; uncaught := unc |}
    = {| this := set_currentOperation (length h + S w)
                   (set_state CONNECTED th);
         heap := <[currentOperation th :=
                     {| settled := Pending;
                        alreadyResolved := alreadyResolved cur;
                        reactions :=
                          reactions cur
                            ++ [then_op (OpWrite characteristic pdus)
                                  (length h + w)] |}]> h ++ extra;
         remainingElements := re; jobs := []; inflight := [];
         peripheral := after_discovery 1 (after_connect (state th) per);
         calls := cl ++ connect_calls (state th) ++ [ReqDiscover [s] [c]];
         invoked := inv ++ [OpFindAndWrite s c pdus]; uncaught := unc |}
    /\ extra !! S w = Some new_cell.
Proof.
  intros Hok Hdisc Ht Hd Hcur Hs.
  assert (currentOperation th < length h) as Hlt by (by eapply lookup_lt_Some).
  destruct (find_reaches_discovery s c pdus rejected arg d b R th h re per
              cl inv unc Hok Hd)
    as (n & extra & pd & q & a1 & a2 & Hrun & _).
  destruct per as [cr dr dcr wr rr].
  cbn [discoverResults] in Hdisc. subst dcr.
  exists (n + 1),
    (extra ++ [waiting_cell
                 [catch_op (OpWrite characteristic pdus)
                    (S (length h + length extra))];
               new_cell]), (length extra).
  split; [|by rewrite (lookup_app_r extra), Nat.sub_succ_l, Nat.sub_diag by lia].
  rewrite run_add. rewrite_run Hrun.
  erewrite run_step.
  2:{ eapply (step_answer_discover_found _ _ _ _ _ _ _ _ _ cur); [exact Ht| |exact Hs].
      cbn [currentOperation set_state]. by rewrite lookup_app_l. }
  cbn [run currentOperation set_state]. rewrite insert_app_l by done.
  rewrite length_app, <- app_assoc.
  replace (length h + S (length extra)) with (S (length h + length extra))
    by lia.
  reflexivity.
Qed.

End FindRuns.

Section Sequencer.
Context `{Sodium}.

(** Reads that return [frames] and then fail: a failing run of the read
    closure. *)
Lemma read_fails c th frames err data cr dr dcr wr rr :
  Forall (fun d => 0 < length d) frames ->
  truthy err = true ->
  run_fails (OpRead c) th
    (answers cr dr dcr wr (ok_reads frames ++ (err, data) :: rr))
    err th (answers cr dr dcr wr rr)
    (replicate (S (length frames)) (ReqRead c)).
Proof.
  intros Hne He rejected arg d b R h re cl inv unc Hd.
  destruct (run_read_fails c th frames err data rejected arg d b R h re cl
              inv unc cr dr dcr wr rr Hne He Hd) as (n & extra & Hrun).
  by exists n, extra, re.
Qed.

(** [_encryptPdus] throwing: a failing run of the write closure, which
    writes nothing. *)
Lemma write_fails_sealing c pdus keys e th th' per :
  sessionKeys th = Some keys ->
  _encryptPdus pdus th = (Throw e, th') ->
  run_fails (OpWrite c pdus) th per e th' per [].
Proof.
  intros Hk He rejected arg d b R h re cl inv unc Hd.
  exists 1, [], re.
  erewrite run_step
    by (eapply step_invoke_write_throws; [exact Hk|exact He|exact Hd]).
  cbn [run app]. by rewrite !app_nil_r.
Qed.

Lemma idle_quiescent m : jobs m = [] -> inflight m = [] -> quiescent m.
Proof. intros Hj Hi. unfold quiescent, step. by rewrite Hj, Hi. Qed.

(** An operation queued at rest behind a fulfilled chain, when both runs
    of its closure fail: it is run twice and the second failure is the
    caller's. *)
Lemma retried_behind_success op e1 e2 th1 per1 made1 th2 per2 made2 v0 m :
  let p := S (length (heap m)) in
  jobs m = [] -> inflight m = [] ->
  promise_state (currentOperation (this m)) m = Some (Fulfilled v0) ->
  run_fails op (set_currentOperation p (this m)) (peripheral m)
    e1 th1 per1 made1 ->
  run_fails op th1 per1 e2 th2 per2 made2 ->
  let start := _queueOperation op m in
  start.1 = Normal p
  /\ exists k, forall n, k <= n ->
       let m' := run n start.2 in
       quiescent m'
       /\ jobs m' = [] /\ inflight m' = []
       /\ promise_state p m' = Some (Rejected e2)
       /\ this m' = th2 /\ peripheral m' = per2
       /\ invoked m' = invoked m ++ [op; op]
       /\ calls m' = calls m ++ made1 ++ made2
       /\ uncaught m' = uncaught m.
Proof.
  intros p Hj Hi Hcur Hf1 Hf2 start. subst start p.
  destruct m as [th h re js infl per cl inv unc].
  unfold promise_state in Hcur.
  cbn [jobs inflight heap this peripheral calls invoked uncaught]
    in Hj, Hi, Hcur, Hf1 |- *.
  subst js infl.
  destruct (h !! currentOperation th) as [cur|] eqn:Hcell; [|done].
  injection Hcur as Hs.
  assert (currentOperation th < length h) as Hlt by (by eapply lookup_lt_Some).
  unfold _queueOperation, catch_, get_this. msimpl.
  replace h with (h ++ []) by apply app_nil_r.
  rewrite (then_settled _ _ _ _ cur);
    [|cbn [heap]; by rewrite lookup_app_l by done|by rewrite Hs].
  rewrite Hs. mnorm.
  erewrite then_waiting; [|cbn [heap]; hnorm; reflexivity|done].
  mnorm. hnorm. cbn [alreadyResolved reactions new_cell fst snd].
  cbn [reaction_job onFulfilled onRejected derived app].
  replace (S (length h)) with (length h + 1) in Hf1 by lia.
  destruct (Hf1 false v0 (length h + 0) false
              [{| onFulfilled := None; onRejected := Some (HOp op);
                  derived := length h + 1 |}]
              (h ++ [{| settled := Pending; alreadyResolved := false;
                        reactions := [{| onFulfilled := None;
                                         onRejected := Some (HOp op);
                                         derived := length h + 1 |}] |};
                     {| settled := Pending; alreadyResolved := false;
                        reactions := [] |}])
              re cl inv unc)
    as (n1 & extra1 & re1 & Hrun1); [hnorm; reflexivity|].
  destruct (Hf2 true e1 (length h + 1) false []
              (h ++ {| settled := Rejected e1; alreadyResolved := false;
                       reactions := [] |}
                 :: {| settled := Pending; alreadyResolved := false;
                       reactions := [] |} :: extra1)
              re1 (cl ++ made1) (inv ++ [op]) unc)
    as (n2 & extra2 & re2 & Hrun2); [hnorm; reflexivity|].
  replace (S (length h + 0)) with (length h + 1) by lia.
  split; [done|]. exists (n1 + n2). intros n Hn.
  match goal with |- context [run n ?s] => assert (run (n1 + n2) s
     = {| this := th2;
          heap := h ++ {| settled := Rejected e1; alreadyResolved := false;
                          reactions := [] |}
                    :: {| settled := Rejected e2; alreadyResolved := false;
                          reactions := [] |}
                    :: extra1 ++ extra2;
          remainingElements := re2; jobs := []; inflight := [];
          peripheral := per2;
          calls := (cl ++ made1) ++ made2;
          invoked := (inv ++ [op]) ++ [op];
          uncaught := unc |}) as E end.
  { rewrite run_add. rewrite_run Hrun1. hnorm0.
    cbn [map concat reaction_job onRejected derived app].
    rewrite_run Hrun2. hnorm0. by cbn [map concat]. }
  rewrite (run_rest (n1 + n2)); [|by rewrite E|exact Hn].
  rewrite E. unfold promise_state. mnorm. hnorm0.
  by repeat split.
Qed.

(** An operation queued at rest behind a rejected chain, when the run of
    its closure fails: it is run once, by the handler of [catch], and the
    failure is the caller's. *)
Lemma once_behind_failure op e th1 per1 made e0 m :
  let p := S (length (heap m)) in
  jobs m = [] -> inflight m = [] ->
  promise_state (currentOperation (this m)) m = Some (Rejected e0) ->
  run_fails op (set_currentOperation p (this m)) (peripheral m)
    e th1 per1 made ->
  let start := _queueOperation op m in
  start.1 = Normal p
  /\ exists k, forall n, k <= n ->
       let m' := run n start.2 in
       quiescent m'
       /\ jobs m' = [] /\ inflight m' = []
       /\ promise_state p m' = Some (Rejected e)
       /\ this m' = th1 /\ peripheral m' = per1
       /\ invoked m' = invoked m ++ [op]
       /\ calls m' = calls m ++ made
       /\ uncaught m' = uncaught m.
Proof.
  intros p Hj Hi Hcur Hf start. subst start p.
  destruct m as [th h re js infl per cl inv unc].
  unfold promise_state in Hcur.
  cbn [jobs inflight heap this peripheral calls invoked uncaught]
    in Hj, Hi, Hcur, Hf |- *.
  subst js infl.
  destruct (h !! currentOperation th) as [cur|] eqn:Hcell; [|done].
  injection Hcur as Hs.
  assert (currentOperation th < length h) as Hlt by (by eapply lookup_lt_Some).
  unfold _queueOperation, catch_, get_this. msimpl.
  replace h with (h ++ []) by apply app_nil_r.
  rewrite (then_settled _ _ _ _ cur);
    [|cbn [heap]; by rewrite lookup_app_l by done|by rewrite Hs].
  rewrite Hs. mnorm.
  erewrite then_waiting; [|cbn [heap]; hnorm; reflexivity|done].
  mnorm. hnorm. cbn [alreadyResolved reactions new_cell fst snd].
  cbn [reaction_job onFulfilled onRejected derived app].
  replace (S (length h)) with (length h + 1) in Hf by lia.
  destruct (Hf true e0 (length h + 1) false []
              (h ++ [{| settled := Rejected e0; alreadyResolved := false;
                        reactions := [] |};
                     {| settled := Pending; alreadyResolved := false;
                        reactions := [] |}])
              re cl inv unc)
    as (n1 & extra1 & re1 & Hrun1); [hnorm; reflexivity|].
  replace (S (length h + 0)) with (length h + 1) by lia.
  split; [done|]. exists (1 + n1). intros n Hn.
  match goal with |- context [run n ?s] => assert (run (1 + n1) s
     = {| this := th1;
          heap := h ++ {| settled := Rejected e0; alreadyResolved := false;
                          reactions := [] |}
                    :: {| settled := Rejected e; alreadyResolved := false;
                          reactions := [] |}
                    :: extra1;
          remainingElements := re1; jobs := []; inflight := [];
          peripheral := per1;
          calls := cl ++ made;
          invoked := inv ++ [op];
          uncaught := unc |}) as E end.
  { cbn [Nat.add].
    erewrite run_step by (apply step_pass_rejection; hnorm; reflexivity).
    hnorm. cbn [map concat reaction_job onRejected derived app].
    rewrite_run Hrun1. hnorm0. by cbn [map concat]. }
  rewrite (run_rest (1 + n1)); [|by rewrite E|exact Hn].
  rewrite E. unfold promise_state. mnorm. hnorm0.
  by repeat split.
Qed.

End Sequencer.

Section WriteFails.
Context `{Sodium}.

(** A write of one frame whose acknowledgement is an error: a failing
    run of the write closure.  The rejection goes from the promise of the
    write to the promise of [Promise.all], through the promise of line 247,
    which has no handler for it, to the promise of the job. *)
Lemma write_fails_unacknowledged c pdus frame err th cr dr dcr wr rr :
  written th pdus = [frame] ->
  (sessionKeys th <> None ->
   _encryptPdus pdus th = (Normal (written th pdus), after_sending th pdus)) ->
  truthy err = true ->
  run_fails (OpWrite c pdus) th (answers cr dr dcr (err :: wr) rr)
    err (after_sending th pdus) (answers cr dr dcr wr rr)
    [ReqWrite c frame false].
Proof.
  intros Hw Hc He rejected arg d b R h re cl inv unc Hd.
  assert (d < length h) as Hlt by (by eapply lookup_lt_Some).
  exists 6. eexists. eexists.
  erewrite run_step.
  2:{ apply step_invoke_write; [exact Hc|rewrite Hw; cbn; lia|exact Hlt]. }
  rewrite Hw. cbn [length seq fmap list_fmap replicate app].
  unfold write_calls. cbn [imap]. hnorm.
  mstep step_thenable. hnorm.
  erewrite run_step.
  2:{ apply (step_answer_write _ _ _ _
               [element (length h + 1) (length h + 2)]).
      hnorm0. reflexivity. }
  hnorm0. unfold outcome. rewrite He.
  cbn [map concat]. rewrite app_nil_r.
  change (reaction_job (Rejected err)
            (element (length h + 1) (length h + 2)))
    with (reaction_job (Rejected err)
            (adoption (length h + 1) (length h + 2))).
  rewrite <- (app_nil_r (reaction_job _ _)).
  erewrite run_step.
  2:{ apply (step_adopted _ _ _ [drain_reaction c (length h + 3)] false);
        [done|hnorm; reflexivity|hnorm; reflexivity|lia]. }
  hnorm. cbn [map concat reaction_job drain_reaction onRejected derived app].
  mstep step_pass_rejection. hnorm.
  cbn [map concat app]. rewrite app_nil_r.
  rewrite <- (app_nil_r (reaction_job _ _)).
  erewrite run_step.
  2:{ apply (step_adopted _ d (length h + 4) R b); [done| |hnorm; reflexivity|lia].
      by rewrite lookup_app_l by done. }
  rewrite insert_app_l by done.
  rewrite insert_app_r_alt by (rewrite length_insert; lia).
  rewrite length_insert.
  replace (length h + 4 - length h) with 4 by lia.
  cbn [run app insert list_insert]. reflexivity.
Qed.

End WriteFails.

Section Stuck.
Context `{Sodium}.

(** [_queueOperation] on a connection at rest whose chain ends in a
    pending promise: nothing becomes due, the new end of the chain is
    pending, and what was pending stays so. *)
Lemma queue_at_pending op m :
  jobs m = [] -> inflight m = [] ->
  promise_state (currentOperation (this m)) m = Some Pending ->
  exists p m',
    _queueOperation op m = (Normal p, m')
    /\ jobs m' = [] /\ inflight m' = []
    /\ currentOperation (this m') = p
    /\ promise_state p m' = Some Pending
    /\ state (this m') = state (this m)
    /\ invoked m' = invoked m /\ calls m' = calls m
    /\ peripheral m' = peripheral m /\ uncaught m' = uncaught m
    /\ forall q, promise_state q m = Some Pending ->
                 promise_state q m' = Some Pending.
Proof.
  intros Hj Hi Hcur.
  destruct m as [th h re js infl per cl inv unc].
  unfold promise_state in Hcur.
  cbn [jobs inflight heap this] in Hj, Hi, Hcur. subst js infl.
  destruct (h !! currentOperation th) as [cur|] eqn:Hcell; [|done].
  injection Hcur as Hs.
  assert (currentOperation th < length h) as Hlt by (by eapply lookup_lt_Some).
  rewrite (queue_on_pending op cur) by done.
  eexists _, _. split; [reflexivity|].
  unfold promise_state.
  cbn [jobs inflight this heap invoked calls peripheral uncaught
       currentOperation set_currentOperation state].
  do 3 (split; [done|]).
  split.
  { rewrite lookup_app_r by (rewrite length_insert; lia).
    rewrite length_insert.
    by replace (S (length h) - length h) with 1 by lia. }
  do 5 (split; [done|]).
  intros q Hq.
  assert (q < length h) as Hql.
  { destruct (h !! q) eqn:E; [by eapply lookup_lt_Some|done]. }
  rewrite lookup_app_l by (by rewrite length_insert).
  destruct (decide (q = currentOperation th)) as [->|Hne].
  - by rewrite list_lookup_insert_eq by done.
  - by rewrite list_lookup_insert_ne by done.
Qed.

(** Behind a pending end of the chain on a connection at rest, whatever
    is queued stays where it is. *)
Lemma stuck_forever later :
  forall m,
  jobs m = [] -> inflight m = [] ->
  promise_state (currentOperation (this m)) m = Some Pending ->
  let r := queue_each later m in
  length r.1 = length later
  /\ Forall (fun p => promise_state p r.2 = Some Pending) r.1
  /\ jobs r.2 = [] /\ inflight r.2 = []
  /\ promise_state (currentOperation (this r.2)) r.2 = Some Pending
  /\ state (this r.2) = state (this m)
  /\ invoked r.2 = invoked m /\ calls r.2 = calls m
  /\ peripheral r.2 = peripheral m /\ uncaught r.2 = uncaught m
  /\ forall q, promise_state q m = Some Pending ->
               promise_state q r.2 = Some Pending.
Proof.
  induction later as [|[n op] later IH]; intros m Hj Hi Hcur; [by repeat split|].
  cbn [queue_each].
  rewrite (run_quiescent n m) by (by apply idle_quiescent).
  destruct (queue_at_pending op m Hj Hi Hcur)
    as (p & m1 & -> & Hj1 & Hi1 & Hp & Hpend & Hst & Hinv & Hcl & Hper
        & Hunc & Hkeep).
  rewrite <- Hp in Hpend.
  specialize (IH m1 Hj1 Hi1 Hpend). cbn zeta in IH.
  destruct (queue_each later m1) as [ps m2].
  cbn [fst snd length] in IH |- *.
  destruct IH as (Hlen & Hall & Hj2 & Hi2 & Hcur2 & Hst2 & Hinv2 & Hcl2
                  & Hper2 & Hunc2 & Hkeep2).
  split; [by rewrite Hlen|].
  split.
  { apply Forall_cons. split; [|done]. apply Hkeep2. by rewrite Hp in Hpend. }
  do 3 (split; [done|]).
  repeat split; try congruence.
  intros q Hq. by apply Hkeep2, Hkeep.
Qed.

End Stuck.

Section SequencerClaims.
Context `{Sodium}.

Lemma after_discovery_twice s per :
  after_discovery 1 (after_connect CONNECTED
                       (after_discovery 1 (after_connect s per)))
  = after_discovery 2 (after_connect s per).
Proof.
  unfold after_discovery, after_connect.
  cbn [connectResults disconnectResults discoverResults writeResults
       readResults].
  by rewrite drop_drop.
Qed.

(** C8, as the code has it — When discovery finds no service or no
    characteristic, the attempt fails with 'Characteristic not found',
    and the sequencer treats this failure as any other.  On a connection
    at rest that is CONNECTED or that the peripheral lets connect, an
    operation queued behind a fulfilled chain is run a second time:
    discovery is asked again, and the error reaches the caller once the
    second attempt has failed the same way. *)
Theorem not_found_retried (serviceUuid characteristicUuid : string)
    (pdus : list Buffer) (err1 err2 : value)
    (services1 services2 : list Service)
    (characteristics1 characteristics2 : list Characteristic)
    (rest : list (value * list Service * list Characteristic))
    (v0 : value) (m : machine) :
  jobs m = [] -> inflight m = [] ->
  promise_state (currentOperation (this m)) m = Some (Fulfilled v0) ->
  connect_succeeds (state (this m)) (peripheral m) = true ->
  discoverResults (peripheral m)
  = (err1, services1, characteristics1)
      :: (err2, services2, characteristics2) :: rest ->
  truthy err1 = false -> truthy err2 = false ->
  services1 = [] \/ characteristics1 = [] ->
  services2 = [] \/ characteristics2 = [] ->
  let op := OpFindAndWrite serviceUuid characteristicUuid pdus in
  let discover := ReqDiscover [serviceUuid] [characteristicUuid] in
  let start :=
    findAndWriteCharacteristic serviceUuid characteristicUuid pdus m in
  exists p k,
    start.1 = Normal p
    /\ forall n, k <= n ->
       let m' := run n start.2 in
       quiescent m'
       /\ jobs m' = [] /\ inflight m' = []
       /\ promise_state p m'
          = Some (Rejected (VString "Characteristic not found"))
       /\ this m' = set_currentOperation p (set_state CONNECTED (this m))
       /\ invoked m' = invoked m ++ [op; op]
       /\ calls m' = calls m ++ connect_calls (state (this m))
                       ++ [discover; discover]
       /\ peripheral m'
          = after_discovery 2 (after_connect (state (this m)) (peripheral m))
       /\ uncaught m' = uncaught m.
Proof.
  intros Hj Hi Hcur Hok Hdisc Ht1 Ht2 Hn1 Hn2 op discover start.
  subst start. unfold findAndWriteCharacteristic. fold op.
  set (p := S (length (heap m))).
  assert (run_fails op (set_currentOperation p (this m)) (peripheral m)
            (VString "Characteristic not found")
            (set_state CONNECTED (set_currentOperation p (this m)))
            (after_discovery 1
               (after_connect (state (this m)) (peripheral m)))
            (connect_calls (state (this m)) ++ [discover])) as Hf1.
  { apply (find_fails serviceUuid characteristicUuid pdus _ err1 services1
             characteristics1 ((err2, services2, characteristics2) :: rest)
             (set_currentOperation p (this m)) (peripheral m));
      [exact Hok|exact Hdisc|right; by repeat split]. }
  assert (run_fails op
            (set_state CONNECTED (set_currentOperation p (this m)))
            (after_discovery 1
               (after_connect (state (this m)) (peripheral m)))
            (VString "Characteristic not found")
            (set_state CONNECTED
               (set_state CONNECTED (set_currentOperation p (this m))))
            (after_discovery 1
               (after_connect CONNECTED
                  (after_discovery 1
                     (after_connect (state (this m)) (peripheral m)))))
            (connect_calls CONNECTED ++ [discover])) as Hf2.
  { apply (find_fails serviceUuid characteristicUuid pdus _ err2 services2
             characteristics2 rest
             (set_state CONNECTED (set_currentOperation p (this m)))
             (after_discovery 1
                (after_connect (state (this m)) (peripheral m))));
      [done| |right; by repeat split].
    cbn [after_discovery after_connect discoverResults]. by rewrite Hdisc. }
  destruct (retried_behind_success op _ _ _ _ _ _ _ _ v0 m Hj Hi Hcur Hf1 Hf2)
    as (Hp & k & Hrun).
  exists p, k. split; [exact Hp|]. intros n Hn.
  destruct (Hrun n Hn) as (Hq & Hj' & Hi' & Hres & Hth & Hper & Hinv & Hcl
                           & Hunc).
  do 4 (split; [done|]).
  split; [by rewrite Hth|].
  split; [done|].
  split.
  { rewrite Hcl. cbn [connect_calls app]. by rewrite <- app_assoc. }
  split; [|done]. rewrite Hper. apply after_discovery_twice.
Qed.

End SequencerClaims.

Section RetryClaim.
Context `{Sodium}.

(** C2, as the code has it — The retry depends on how the operation
    before ended.  For every operation and every state of the machine,
    [_queueOperation] leaves two reactions: one that runs the operation
    when the end of the chain fulfils, and one on the promise of that,
    which runs the operation when that promise is rejected, be it by a
    failed first run or by the rejection of the chain passing through.
    So, for every operation queued on a connection at rest: behind a
    fulfilled chain, when both runs of its closure fail, it is run exactly
    twice and the second failure goes to its caller; behind a rejected
    chain, when the run of its closure fails, it is run exactly once, and
    that failure goes to its caller with no second run.  (For a write with
    session keys the first is stated when the first run failed in the
    sealing: see [reruns_as_given].)  The closures fail in the sense used
    here when a read reports an error, when the acknowledgement of a write
    is an error, when the sealing of a write throws, and when discovery
    reports an error or finds nothing.  For reads the two cases are
    spelled out on any connection at rest, with the connection at rest
    again and the chain ending in the rejected promise.  Of three reads
    queued together on a new connection where the first succeeds and every
    later read of the peripheral fails: the second operation, behind a
    success, is run, fails, is run exactly once more, and its second
    failure goes to its caller; the third, behind a failure, still runs,
    but exactly once, and its failure goes to its caller with no second
    run.  A retry that succeeds gives its caller the result.  The same
    holds of a write whose acknowledgement is an error (the write is made
    twice) and of a [findAndWriteCharacteristic] behind it whose connect
    fails (it is run once). *)
Theorem retry_after_success_only (c1 c2 c3 : Characteristic)
    (e1 e2 e3 : value) (d1 d2 d3 ending : option Buffer)
    (connects disconnects : list value)
    (discovers : list (value * list Service * list Characteristic))
    (writes : list value) (reads : list (value * option Buffer)) :
  truthy e1 = true -> truthy e2 = true -> truthy e3 = true ->
  match ending with Some d => length d = 0 | None => True end ->
  (forall op m cur,
     heap m !! currentOperation (this m) = Some cur ->
     let p1 := length (heap m) in
     let p2 := S (length (heap m)) in
     exists m',
       _queueOperation op m = (Normal p2, m')
       /\ currentOperation (this m') = p2
       /\ heap m' !! p1 = Some (waiting_cell [catch_op op p2])
       /\ heap m' !! p2 = Some new_cell
       /\ invoked m' = invoked m
       /\ match settled cur with
          | Pending =>
            jobs m' = jobs m
            /\ heap m' !! currentOperation (this m)
               = Some {| settled := Pending;
                         alreadyResolved := alreadyResolved cur;
                         reactions := reactions cur ++ [then_op op p1] |}
          | Fulfilled v =>
            jobs m' = jobs m ++ [JReaction (Some (HOp op)) false v p1]
          | Rejected e =>
            jobs m' = jobs m ++ [JReaction None true e p1]
          end)
  /\ (forall op m v0 f1 f2 th1 th2 per1 per2 made1 made2,
      let p := S (length (heap m)) in
      jobs m = [] -> inflight m = [] ->
      promise_state (currentOperation (this m)) m = Some (Fulfilled v0) ->
      run_fails op (set_currentOperation p (this m)) (peripheral m)
        f1 th1 per1 made1 ->
      run_fails op th1 per1 f2 th2 per2 made2 ->
      reruns_as_given op (set_currentOperation p (this m)) ->
      let start := _queueOperation op m in
      start.1 = Normal p
      /\ exists k, forall n, k <= n ->
           let m' := run n start.2 in
           quiescent m'
           /\ jobs m' = [] /\ inflight m' = []
           /\ promise_state p m' = Some (Rejected f2)
           /\ this m' = th2 /\ peripheral m' = per2
           /\ invoked m' = invoked m ++ [op; op]
           /\ calls m' = calls m ++ made1 ++ made2
           /\ uncaught m' = uncaught m)
  /\ (forall op m e0 f th1 per1 made,
      let p := S (length (heap m)) in
      jobs m = [] -> inflight m = [] ->
      promise_state (currentOperation (this m)) m = Some (Rejected e0) ->
      run_fails op (set_currentOperation p (this m)) (peripheral m)
        f th1 per1 made ->
      let start := _queueOperation op m in
      start.1 = Normal p
      /\ exists k, forall n, k <= n ->
           let m' := run n start.2 in
           quiescent m'
           /\ jobs m' = [] /\ inflight m' = []
           /\ promise_state p m' = Some (Rejected f)
           /\ this m' = th1 /\ peripheral m' = per1
           /\ invoked m' = invoked m ++ [op]
           /\ calls m' = calls m ++ made
           /\ uncaught m' = uncaught m)
  /\ (forall c th frames err data cr dr dcr wr rr,
      Forall (fun d => 0 < length d) frames ->
      truthy err = true ->
      run_fails (OpRead c) th
        (answers cr dr dcr wr (ok_reads frames ++ (err, data) :: rr))
        err th (answers cr dr dcr wr rr)
        (replicate (S (length frames)) (ReqRead c)))
  /\ (forall c pdus frame err th cr dr dcr wr rr,
      sessionKeys th = None ->
      pdus = [frame] ->
      truthy err = true ->
      run_fails (OpWrite c pdus) th (answers cr dr dcr (err :: wr) rr)
        err th (answers cr dr dcr wr rr) [ReqWrite c frame false])
  /\ (forall c pdus keys e th th' per,
      sessionKeys th = Some keys ->
      _encryptPdus pdus th = (Throw e, th') ->
      run_fails (OpWrite c pdus) th per e th' per [])
  /\ (forall serviceUuid characteristicUuid pdus e err services
        characteristics rest th per,
      connect_succeeds (state th) per = true ->
      discoverResults per = (err, services, characteristics) :: rest ->
      (truthy err = true /\ e = err)
      \/ (truthy err = false /\ (services = [] \/ characteristics = [])
          /\ e = VString "Characteristic not found") ->
      run_fails (OpFindAndWrite serviceUuid characteristicUuid pdus) th per e
        (set_state CONNECTED th)
        (after_discovery 1 (after_connect (state th) per))
        (connect_calls (state th)
           ++ [ReqDiscover [serviceUuid] [characteristicUuid]]))
  /\ (forall m v0,
      jobs m = [] -> inflight m = [] ->
      promise_state (currentOperation (this m)) m = Some (Fulfilled v0) ->
      readResults (peripheral m) = (e1, d1) :: (e2, d2) :: reads ->
      let start := readCharacteristic c1 m in
      exists p,
        start.1 = Normal p
        /\ forall n, 8 <= n ->
           let m' := run n start.2 in
           quiescent m'
           /\ jobs m' = [] /\ inflight m' = []
           /\ currentOperation (this m') = p
           /\ promise_state p m' = Some (Rejected e2)
           /\ invoked m' = invoked m ++ [OpRead c1; OpRead c1]
           /\ calls m' = calls m ++ [ReqRead c1; ReqRead c1]
           /\ readResults (peripheral m') = reads)
  /\ (forall m e0,
      jobs m = [] -> inflight m = [] ->
      promise_state (currentOperation (this m)) m = Some (Rejected e0) ->
      readResults (peripheral m) = (e3, d3) :: reads ->
      let start := readCharacteristic c3 m in
      exists p,
        start.1 = Normal p
        /\ forall n, 5 <= n ->
           let m' := run n start.2 in
           quiescent m'
           /\ jobs m' = [] /\ inflight m' = []
           /\ currentOperation (this m') = p
           /\ promise_state p m' = Some (Rejected e3)
           /\ invoked m' = invoked m ++ [OpRead c3]
           /\ calls m' = calls m ++ [ReqRead c3]
           /\ readResults (peripheral m') = reads)
  /\ (let per :=
        answers connects disconnects discovers writes
          ((VUndefined, ending) :: (e1, d1) :: (e2, d2) :: (e3, d3) :: reads) in
      let first := readCharacteristic c1 (new_GattConnection per) in
      let second := readCharacteristic c2 first.2 in
      let third := readCharacteristic c3 second.2 in
      exists p1 p2 p3,
        first.1 = Normal p1 /\ second.1 = Normal p2 /\ third.1 = Normal p3
        /\ forall n, 18 <= n ->
           let m := run n third.2 in
           quiescent m
           /\ invoked m = [OpRead c1; OpRead c2; OpRead c2; OpRead c3]
           /\ calls m = [ReqRead c1; ReqRead c2; ReqRead c2; ReqRead c3]
           /\ promise_state p1 m = Some (Fulfilled (VBuffers []))
           /\ promise_state p2 m = Some (Rejected e2)
           /\ promise_state p3 m = Some (Rejected e3)
           /\ readResults (peripheral m) = reads)
  /\ (let per :=
        answers connects disconnects discovers writes
          ((e1, d1) :: (VUndefined, ending) :: reads) in
      let first := readCharacteristic c1 (new_GattConnection per) in
      exists p1,
        first.1 = Normal p1
        /\ forall n, 8 <= n ->
           let m := run n first.2 in
           quiescent m
           /\ invoked m = [OpRead c1; OpRead c1]
           /\ promise_state p1 m = Some (Fulfilled (VBuffers []))
           /\ readResults (peripheral m) = reads)
  /\ (forall (pdu : Buffer) (pdus : list Buffer)
        (serviceUuid characteristicUuid : string),
      let per :=
        answers (e3 :: connects) disconnects discovers
          (e1 :: e2 :: writes) reads in
      let write := OpWrite c1 [pdu] in
      let find := OpFindAndWrite serviceUuid characteristicUuid pdus in
      let first := writeCharacteristic c1 [pdu] (new_GattConnection per) in
      let second :=
        findAndWriteCharacteristic serviceUuid characteristicUuid pdus
          first.2 in
      exists p1 p2,
        first.1 = Normal p1 /\ second.1 = Normal p2
        /\ forall n, 21 <= n ->
           let m := run n second.2 in
           quiescent m
           /\ invoked m = [write; write; find]
           /\ calls m = [ReqWrite c1 pdu false; ReqWrite c1 pdu false;
                         ReqConnect]
           /\ promise_state p1 m = Some (Rejected e2)
           /\ promise_state p2 m = Some (Rejected e3)
           /\ connectResults (peripheral m) = connects
           /\ writeResults (peripheral m) = writes).
Proof.
  intros H1 H2 H3 Hend.
  split; [intros op m cur Hcur; by apply _queueOperation_reactions|].
  split.
  { intros op m v0 f1 f2 th1 th2 per1 per2 made1 made2 p Hj Hi Hcur
      Hf1 Hf2 _.
    exact (retried_behind_success op f1 f2 th1 per1 made1 th2 per2 made2
             v0 m Hj Hi Hcur Hf1 Hf2). }
  split.
  { intros op m e0 f th1 per1 made p Hj Hi Hcur Hf.
    exact (once_behind_failure op f th1 per1 made e0 m Hj Hi Hcur Hf). }
  split; [intros; by apply read_fails|].
  split.
  { intros c pdus frame err th cr dr dcr wr rr Hk -> He.
    pose proof (write_fails_unacknowledged c [frame] frame err th
                  cr dr dcr wr rr) as Hw.
    unfold written, after_sending in Hw. rewrite Hk in Hw.
    by apply Hw. }
  split; [intros; by eapply write_fails_sealing|].
  split; [intros; by eapply find_fails|].
  split;
    [intros m v0 Hj Hi Hcur Hr;
     exact (read_behind_success c1 v0 e1 d1 e2 d2 reads m Hj Hi Hcur H1 H2 Hr)|].
  split;
    [intros m e0 Hj Hi Hcur Hr;
     exact (read_behind_failure c3 e0 e3 d3 reads m Hj Hi Hcur H3 Hr)|].
  assert (ending = None \/ ending = Some []) as Hl.
  { destruct ending as [[|? ?]|]; auto. simpl in Hend. lia. }
  clear Hend. split; [|split].
  - intros per first second third. exists 2, 4, 6.
    do 3 (split; [reflexivity|]).
    intros n Hn m. subst m.
    assert (quiescent (run 18 third.2)
            /\ (quiescent (run 18 third.2) ->
                quiescent (run 18 third.2)
                /\ invoked (run 18 third.2)
                   = [OpRead c1; OpRead c2; OpRead c2; OpRead c3]
                /\ calls (run 18 third.2)
                   = [ReqRead c1; ReqRead c2; ReqRead c2; ReqRead c3]
                /\ promise_state 2 (run 18 third.2)
                   = Some (Fulfilled (VBuffers []))
                /\ promise_state 4 (run 18 third.2) = Some (Rejected e2)
                /\ promise_state 6 (run 18 third.2) = Some (Rejected e3)
                /\ readResults (peripheral (run 18 third.2)) = reads))
      as [Hq Hall].
    { subst third second first per.
      destruct Hl as [-> | ->];
        truthy_cases H1; truthy_cases H2; truthy_cases H3;
        vm_compute; (split; [reflexivity|intros _; repeat split]). }
    rewrite (run_rest 18); [by apply Hall|exact Hq|exact Hn].
  - intros per first. exists 2. split; [reflexivity|].
    intros n Hn m. subst m.
    assert (quiescent (run 8 first.2)
            /\ (quiescent (run 8 first.2) ->
                quiescent (run 8 first.2)
                /\ invoked (run 8 first.2) = [OpRead c1; OpRead c1]
                /\ promise_state 2 (run 8 first.2)
                   = Some (Fulfilled (VBuffers []))
                /\ readResults (peripheral (run 8 first.2)) = reads))
      as [Hq Hall].
    { subst first per.
      destruct Hl as [-> | ->]; truthy_cases H1;
        vm_compute; (split; [reflexivity|intros _; repeat split]). }
    rewrite (run_rest 8); [by apply Hall|exact Hq|exact Hn].
  - intros pdu pdus serviceUuid characteristicUuid per write find
      first second.
    exists 2, 4. do 2 (split; [reflexivity|]).
    intros n Hn m. subst m.
    assert (quiescent (run 21 second.2)
            /\ (quiescent (run 21 second.2) ->
                quiescent (run 21 second.2)
                /\ invoked (run 21 second.2) = [write; write; find]
                /\ calls (run 21 second.2)
                   = [ReqWrite c1 pdu false; ReqWrite c1 pdu false;
                      ReqConnect]
                /\ promise_state 2 (run 21 second.2) = Some (Rejected e2)
                /\ promise_state 4 (run 21 second.2) = Some (Rejected e3)
                /\ connectResults (peripheral (run 21 second.2)) = connects
                /\ writeResults (peripheral (run 21 second.2)) = writes))
      as [Hq Hall].
    { subst second first find write per.
      truthy_cases H1; truthy_cases H2; truthy_cases H3;
        vm_compute; (split; [reflexivity|intros _; repeat split]). }
    rewrite (run_rest 21); [by apply Hall|exact Hq|exact Hn].
Qed.

End RetryClaim.

Section StuckQueue.
Context `{Sodium}.

(** [findAndWriteCharacteristic] on a connection at rest, when discovery
    finds the characteristic: the machine comes to rest with the promise
    returned and the end of the chain both pending. *)
Lemma findAndWrite_found s c pdus err service services characteristic
    characteristics rest st0 m :
  jobs m = [] -> inflight m = [] ->
  promise_state (currentOperation (this m)) m = Some st0 ->
  st0 <> Pending ->
  connect_succeeds (state (this m)) (peripheral m) = true ->
  discoverResults (peripheral m)
  = (err, service :: services, characteristic :: characteristics) :: rest ->
  truthy err = false ->
  let start := findAndWriteCharacteristic s c pdus m in
  exists p k,
    start.1 = Normal p
    /\ jobs (run k start.2) = [] /\ inflight (run k start.2) = []
    /\ promise_state p (run k start.2) = Some Pending
    /\ promise_state (currentOperation (this (run k start.2)))
         (run k start.2) = Some Pending
    /\ state (this (run k start.2)) = CONNECTED
    /\ invoked (run k start.2) = invoked m ++ [OpFindAndWrite s c pdus]
    /\ calls (run k start.2)
       = calls m ++ connect_calls (state (this m)) ++ [ReqDiscover [s] [c]]
    /\ peripheral (run k start.2)
       = after_discovery 1 (after_connect (state (this m)) (peripheral m))
    /\ uncaught (run k start.2) = uncaught m.
Proof.
  intros Hj Hi Hcur Hst Hok Hdisc Ht start. subst start.
  destruct m as [th h re js infl per cl inv unc].
  unfold promise_state in Hcur.
  cbn [jobs inflight heap this peripheral calls invoked uncaught]
    in Hj, Hi, Hcur, Hok, Hdisc |- *.
  subst js infl.
  destruct (h !! currentOperation th) as [cur|] eqn:Hcell; [|done].
  injection Hcur as Hs.
  assert (currentOperation th < length h) as Hlt by (by eapply lookup_lt_Some).
  unfold findAndWriteCharacteristic, _queueOperation, catch_, get_this.
  msimpl.
  replace h with (h ++ []) by apply app_nil_r.
  rewrite (then_settled _ _ _ _ cur);
    [|cbn [heap]; by rewrite lookup_app_l by done|by rewrite Hs].
  rewrite Hs. mnorm.
  erewrite then_waiting; [|cbn [heap]; hnorm; reflexivity|done].
  mnorm. hnorm. cbn [alreadyResolved reactions new_cell fst snd].
  set (op := OpFindAndWrite s c pdus).
  set (th1 := set_currentOperation (length h + 1) th).
  destruct st0 as [|v0|e0]; [done| |];
    cbn [reaction_job onFulfilled onRejected derived].
  - destruct (find_found_stuck s c pdus err service services characteristic
                characteristics rest false v0 (length h + 0) false
                [{| onFulfilled := None; onRejected := Some (HOp op);
                    derived := length h + 1 |}]
                new_cell th1
                (h ++ [{| settled := Pending; alreadyResolved := false;
                          reactions := [{| onFulfilled := None;
                                           onRejected := Some (HOp op);
                                           derived := length h + 1 |}] |};
                       {| settled := Pending; alreadyResolved := false;
                          reactions := [] |}])
                re per cl inv unc Hok Hdisc Ht)
      as (n & extra & w & Hrun & Hw);
      [hnorm; reflexivity|cbn [th1 currentOperation set_currentOperation];
                          hnorm; reflexivity|done|].
    exists (length h + 1), n. split; [done|].
    rewrite_run Hrun. unfold promise_state.
    cbn [jobs inflight heap this peripheral calls invoked uncaught
         currentOperation set_currentOperation set_state state th1].
    do 2 (split; [done|]).
    split.
    { rewrite lookup_app_l by (rewrite length_insert, length_app; cbn; lia).
      rewrite list_lookup_insert_eq by (rewrite length_app; cbn; lia). done. }
    split.
    { rewrite lookup_app_r by (rewrite length_insert; lia).
      rewrite length_insert.
      match goal with
      | |- context [?a + S w - ?a] => replace (a + S w - a) with (S w) by lia
      end.
      by rewrite Hw. }
    by repeat split.
  - destruct (find_found_stuck s c pdus err service services characteristic
                characteristics rest true e0 (length h + 1) false []
                new_cell th1
                (h ++ [{| settled := Rejected e0; alreadyResolved := false;
                          reactions := [] |};
                       {| settled := Pending; alreadyResolved := false;
                          reactions := [] |}])
                re per cl inv unc Hok Hdisc Ht)
      as (n & extra & w & Hrun & Hw);
      [hnorm; reflexivity|cbn [th1 currentOperation set_currentOperation];
                          hnorm; reflexivity|done|].
    exists (length h + 1), (1 + n). split; [done|].
    cbn [Nat.add].
    erewrite run_step by (apply step_pass_rejection; hnorm; reflexivity).
    hnorm. cbn [map concat reaction_job onRejected derived app].
    rewrite_run Hrun. unfold promise_state.
    cbn [jobs inflight heap this peripheral calls invoked uncaught
         currentOperation set_currentOperation set_state state th1].
    do 2 (split; [done|]).
    split.
    { rewrite lookup_app_l by (rewrite length_insert, length_app; cbn; lia).
      rewrite list_lookup_insert_eq by (rewrite length_app; cbn; lia). done. }
    split.
    { rewrite lookup_app_r by (rewrite length_insert; lia).
      rewrite length_insert.
      match goal with
      | |- context [?a + S w - ?a] => replace (a + S w - a) with (S w) by lia
      end.
      by rewrite Hw. }
    by repeat split.
Qed.

(** X19 — After a [findAndWriteCharacteristic] whose discovery found the
    characteristic has come to rest, on a connection that was at rest and
    CONNECTED or let connect by the peripheral, the queue is stuck: the
    chain ends in a promise that stays pending.  Whatever operations are
    queued afterwards, one after another and whatever the turns the event
    loop is given in between and after, none is ever run, the promise of
    each stays pending, as does the promise of the
    [findAndWriteCharacteristic], and the peripheral gets no further
    call. *)
Theorem queue_stuck_after_findAndWrite
    (serviceUuid characteristicUuid : string)
    (pdus : list Buffer) (err : value)
    (service : Service) (services : list Service)
    (characteristic : Characteristic) (characteristics : list Characteristic)
    (rest : list (value * list Service * list Characteristic))
    (st0 : pstate) (later : list (nat * operation)) (m : machine) :
  jobs m = [] -> inflight m = [] ->
  promise_state (currentOperation (this m)) m = Some st0 ->
  st0 <> Pending ->
  connect_succeeds (state (this m)) (peripheral m) = true ->
  discoverResults (peripheral m)
  = (err, service :: services, characteristic :: characteristics) :: rest ->
  truthy err = false ->
  let op := OpFindAndWrite serviceUuid characteristicUuid pdus in
  let start :=
    findAndWriteCharacteristic serviceUuid characteristicUuid pdus m in
  exists p k,
    start.1 = Normal p
    /\ forall n, k <= n ->
       let queued := queue_each later (run n start.2) in
       length queued.1 = length later
       /\ forall n',
          let m' := run n' queued.2 in
          quiescent m'
          /\ promise_state p m' = Some Pending
          /\ Forall (fun q => promise_state q m' = Some Pending) queued.1
          /\ state (this m') = CONNECTED
          /\ invoked m' = invoked m ++ [op]
          /\ calls m' = calls m ++ connect_calls (state (this m))
                          ++ [ReqDiscover [serviceUuid] [characteristicUuid]]
          /\ peripheral m'
             = after_discovery 1
                 (after_connect (state (this m)) (peripheral m))
          /\ uncaught m' = uncaught m.
Proof.
  intros Hj Hi Hcur Hst Hok Hdisc Ht op start.
  destruct (findAndWrite_found serviceUuid characteristicUuid pdus err
              service services characteristic characteristics rest st0 m
              Hj Hi Hcur Hst Hok Hdisc Ht)
    as (p & k & Hp & Hj1 & Hi1 & Hpend & Hend & Hstate & Hinv & Hcl & Hper
        & Hunc).
  exists p, k. split; [exact Hp|]. intros n Hn queued. subst queued start op.
  rewrite (run_rest k n) by (by apply idle_quiescent || exact Hn).
  destruct (stuck_forever later _ Hj1 Hi1 Hend)
    as (Hlen & Hall & Hj2 & Hi2 & _ & Hst2 & Hinv2 & Hcl2 & Hper2 & Hunc2
        & Hkeep).
  split; [exact Hlen|]. intros n' m'. subst m'.
  rewrite run_quiescent by (by apply idle_quiescent).
  split; [by apply idle_quiescent|].
  split; [by apply Hkeep|].
  split; [exact Hall|].
  split; [by rewrite Hst2|]. split; [by rewrite Hinv2|].
  split; [by rewrite Hcl2|]. split; [by rewrite Hper2|by rewrite Hunc2].
Qed.

End StuckQueue.

(** C8 — On a new connection whose discovery finds nothing, the operation
    is run twice and discovery is asked twice before the error is
    surfaced. *)
Lemma not_found_runs_twice :
  let per :=
    answers [VUndefined] []
      [(VUndefined, [], []); (VUndefined, [], [])] [] [] in
  let start :=
    findAndWriteCharacteristic "svc" "chr" [[x01]] (new_GattConnection per) in
  let m := @run toy_sodium 18 start.2 in
  invoked m = [OpFindAndWrite "svc" "chr" [[x01]];
               OpFindAndWrite "svc" "chr" [[x01]]]
  /\ calls m = [ReqConnect; ReqDiscover ["svc"] ["chr"];
                ReqDiscover ["svc"] ["chr"]]
  /\ promise_state 2 m = Some (Rejected (VString "Characteristic not found")).
Proof. vm_compute. repeat split. Qed.

Lemma not_found_retried_witness :
  let per :=
    answers [VUndefined] []
      [(VUndefined, [], [5]); (VUndefined, [4], [])] [] [] in
  let start :=
    findAndWriteCharacteristic "svc" "chr" [[x01]] (new_GattConnection per) in
  exists p k,
    start.1 = Normal p
    /\ forall n, k <= n ->
       promise_state p (@run toy_sodium n start.2)
       = Some (Rejected (VString "Characteristic not found"))
       /\ invoked (@run toy_sodium n start.2)
          = [OpFindAndWrite "svc" "chr" [[x01]];
             OpFindAndWrite "svc" "chr" [[x01]]]
       /\ calls (@run toy_sodium n start.2)
          = [ReqConnect; ReqDiscover ["svc"] ["chr"];
             ReqDiscover ["svc"] ["chr"]].
Proof.
  intros per start. subst start.
  destruct (@not_found_retried toy_sodium "svc" "chr" [[x01]]
              VUndefined VUndefined [] [4] [5] [] [] VUndefined
              (new_GattConnection per) eq_refl eq_refl eq_refl eq_refl
              eq_refl eq_refl eq_refl (or_introl eq_refl) (or_intror eq_refl))
    as (p & k & Hp & Hrun).
  exists p, k. split; [exact Hp|]. intros n Hn.
  destruct (Hrun n Hn) as (_ & _ & _ & Hres & _ & Hinv & Hcalls & _).
  split; [exact Hres|]. split; [exact Hinv|exact Hcalls].
Defined.

(** C2 — Of two failing reads queued together, the first is run twice and
    the second only once: its failure goes to its caller without a retry,
    while the peripheral still has an answer to give. *)
Lemma second_failure_not_retried :
  let per := answers [] [] [] [] (replicate 4 (VError "EIO", None)) in
  let first := readCharacteristic 1 (new_GattConnection per) in
  let second := readCharacteristic 2 first.2 in
  let m := @run toy_sodium 13 second.2 in
  invoked m = [OpRead 1; OpRead 1; OpRead 2]
  /\ promise_state 4 m = Some (Rejected (VError "EIO"))
  /\ readResults (peripheral m) = [(VError "EIO", None)]
  /\ @step toy_sodium m = None.
Proof. vm_compute. repeat split. Qed.

Lemma retry_after_success_only_witness :
  let per :=
    answers [] [] [] []
      ((VUndefined, None) :: replicate 4 (VError "EIO", None)) in
  let first := readCharacteristic 1 (new_GattConnection per) in
  let second := readCharacteristic 2 first.2 in
  let third := readCharacteristic 3 second.2 in
  invoked (@run toy_sodium 18 third.2)
  = [OpRead 1; OpRead 2; OpRead 2; OpRead 3].
Proof.
  intros per first second third.
  destruct (@retry_after_success_only toy_sodium 1 2 3
              (VError "EIO") (VError "EIO") (VError "EIO")
              None None None None
              [] [] [] [] [(VError "EIO", None)]
              eq_refl eq_refl eq_refl I)
    as (_ & _ & _ & _ & _ & _ & _ & _ & _
        & (p1 & p2 & p3 & _ & _ & _ & Hrun) & _ & _).
  exact (proj1 (proj2 (Hrun 18 (le_n 18)))).
Defined.

Lemma queue_stuck_after_findAndWrite_witness :
  let per :=
    answers [VUndefined] [] [(VUndefined, [1], [2])]
      [VUndefined] [(VUndefined, None)] in
  let later := [(3, OpRead 2); (0, OpWrite 2 [[x01]])] in
  let start :=
    findAndWriteCharacteristic "svc" "chr" [[x01]] (new_GattConnection per) in
  exists p k,
    start.1 = Normal p
    /\ forall n, k <= n ->
       forall n',
         let queued := @queue_each toy_sodium later (@run toy_sodium n start.2) in
         let m' := @run toy_sodium n' queued.2 in
         length queued.1 = 2
         /\ promise_state p m' = Some Pending
         /\ Forall (fun q => promise_state q m' = Some Pending) queued.1
         /\ invoked m' = [OpFindAndWrite "svc" "chr" [[x01]]]
         /\ calls m' = [ReqConnect; ReqDiscover ["svc"] ["chr"]]
         /\ writeResults (peripheral m') = [VUndefined]
         /\ readResults (peripheral m') = [(VUndefined, None)].
Proof.
  intros per later start. subst start.
  assert (Fulfilled VUndefined <> Pending) as Hst by discriminate.
  destruct (@queue_stuck_after_findAndWrite toy_sodium "svc" "chr" [[x01]]
              VUndefined 1 [] 2 [] [] (Fulfilled VUndefined) later
              (new_GattConnection per) eq_refl eq_refl eq_refl Hst
              eq_refl eq_refl eq_refl)
    as (p & k & Hp & Hrun).
  exists p, k. split; [exact Hp|]. intros n Hn n' queued m'.
  destruct (Hrun n Hn) as (Hlen & Hall).
  destruct (Hall n') as (_ & Hpend & Hq & _ & Hinv & Hcalls & Hper & _).
  split; [exact Hlen|]. split; [exact Hpend|]. split; [exact Hq|].
  split; [exact Hinv|]. split; [exact Hcalls|].
  subst m' queued. rewrite Hper. by split.
Defined.
